(** * iRODS open-access export: streaming archive and checksum pipeline

    A shallow embedding of the archive/checksum core of
    [etl/irodsManager/irodsUtils.py], of the validation code of
    [etl/dataverseManager/dataverseClient.py] and of the metadata mapper
    [metadataMapper.py], with the properties of the design document stated
    and settled on the embedding, followed by further properties of the
    same code.

    Conventions.
    - Python [int] is [Z].
    - A Python [bytes] object is a [list A] of pieces, each piece [a]
      contributing [size_of a] bytes; [len(b)] is [blen].  For raw bytes the
      pieces are single bytes ([A := Byte.byte], [size_of := fun _ => 1]);
      the archive writer uses layout pieces ([Zipfile.piece]) so that a
      payload of two gigabytes is one piece and not two billion list cells.
    - A Python [str] is a [string]; every character stands for the code point
      of the same number (U+0000 .. U+00FF).
    - A raised exception is the [Raise] case of [result]. *)

From Stdlib Require Import ZArith Lia Ascii String.
From stdpp Require Import gmap strings list sorting.

Local Open Scope Z_scope.

(** ** Exceptions *)

Inductive exn : Type :=
| ValueError (msg : string)
| KeyError (key : string)
| AttributeError (msg : string)
| LargeZipFile (msg : string).

Inductive result (T : Type) : Type :=
| Ok (v : T)
| Raise (e : exn).
Arguments Ok {T} v.
Arguments Raise {T} e.

#[global] Instance result_ret : MRet result := fun T v => Ok v.
#[global] Instance result_bind : MBind result :=
  fun T U f m => match m with Ok v => f v | Raise e => Raise e end.

(** ** [bytes] objects and [UnseekableStream] *)

Section UnseekableStream.
Context {A : Type} (size_of : A -> Z).

(** [len(b)] *)
Fixpoint blen (b : list A) : Z :=
  match b with
  | [] => 0
  | a :: b' => size_of a + blen b'
  end.

(** [class UnseekableStream(RawIOBase)]: [_buffer] is the attribute set by
    [__init__]; [closed] is the flag inherited from [IOBase]. *)
Record UnseekableStream : Type := mkStream {
  _buffer : list A;
  closed : bool
}.

(** [UnseekableStream()] *)
Definition stream_init : UnseekableStream :=
  {| _buffer := []; closed := false |}.

(** [def write(self, b)] *)
Definition write (b : list A) (self : UnseekableStream)
  : result (Z * UnseekableStream) :=
  if closed self then Raise (ValueError "Stream was closed!")
  else Ok (blen b, {| _buffer := _buffer self ++ b; closed := closed self |}).

(** [def get(self)] *)
Definition get (self : UnseekableStream) : list A * UnseekableStream :=
  let chunk := _buffer self in
  (chunk, {| _buffer := []; closed := closed self |}).

(** [IOBase.close], inherited *)
Definition close (self : UnseekableStream) : UnseekableStream :=
  {| _buffer := _buffer self; closed := true |}.

(** A client of the stream: a sequence of calls on one stream object. *)
Inductive call : Type :=
| CallWrite (b : list A)
| CallGet.

Inductive outcome : Type :=
| Wrote (n : Z)
| Got (chunk : list A)
| Raised (e : exn).

Definition do_call (c : call) (self : UnseekableStream)
  : outcome * UnseekableStream :=
  match c with
  | CallWrite b =>
      match write b self with
      | Ok (n, self') => (Wrote n, self')
      | Raise e => (Raised e, self)
      end
  | CallGet => let '(chunk, self') := get self in (Got chunk, self')
  end.

Fixpoint run_calls (cs : list call) (self : UnseekableStream)
  : list outcome * UnseekableStream :=
  match cs with
  | [] => ([], self)
  | c :: cs' =>
      let '(o, self1) := do_call c self in
      let '(os, self2) := run_calls cs' self1 in
      (o :: os, self2)
  end.

(** What the calls wrote, what the calls were handed back, and what was
    written after the last [get]. *)
Definition written (cs : list call) : list A :=
  concat (omap (fun c => match c with CallWrite b => Some b | CallGet => None end) cs).

Definition delivered (os : list outcome) : list A :=
  concat (omap (fun o => match o with Got chunk => Some chunk | _ => None end) os).

Fixpoint pending (acc : list A) (cs : list call) : list A :=
  match cs with
  | [] => acc
  | CallWrite b :: cs' => pending (acc ++ b) cs'
  | CallGet :: cs' => pending [] cs'
  end.

End UnseekableStream.

Arguments UnseekableStream : clear implicits.
Arguments call : clear implicits.
Arguments outcome : clear implicits.
Arguments mkStream {A} _ _.
Arguments _buffer {A} _.
Arguments closed {A} _.
Arguments stream_init {A}.
Arguments get {A} _.
Arguments close {A} _.
Arguments CallGet {A}.
Arguments Wrote {A} _.
Arguments Raised {A} _.
Arguments CallWrite {A} _.
Arguments Got {A} _.

(** ** [hashlib] objects

    A hash object is represented by the bytes it has been fed, in order;
    [update] appends, and the digest is the hash function applied to what was
    fed ([m.update(a); m.update(b)] is [m.update(a+b)]). *)

Record hash_object (A : Type) : Type := mkHash { fed : list A }.
Arguments mkHash {A} _.
Arguments fed {A} _.

Definition hash_new {A} : hash_object A := mkHash [].
Definition hash_update {A} (data : list A) (h : hash_object A) : hash_object A :=
  mkHash (fed h ++ data).
Definition hexdigest {A} (H : list A -> string) (h : hash_object A) : string :=
  H (fed h).

(** ** [requests_toolbelt.multipart.encoder.CustomBytesIO]

    The value of the underlying [BytesIO] is [consumed ++ unread] and its
    position is [length consumed]. *)

Record CustomBytesIO (A : Type) : Type := mkBytesIO {
  consumed : list A;
  unread : list A
}.
Arguments mkBytesIO {A} _ _.
Arguments consumed {A} _.
Arguments unread {A} _.

Section CustomBytesIO.
Context {A : Type}.

Definition zlen (b : list A) : Z := Z.of_nat (length b).

Definition bytesio_new : CustomBytesIO A := mkBytesIO [] [].

(** [tell()] and the [len] property ([_get_end() - tell()]) *)
Definition tell (o : CustomBytesIO A) : Z := zlen (consumed o).
Definition bytesio_len (o : CustomBytesIO A) : Z := zlen (unread o).

(** [requests.utils.super_len]: the object has a [len] attribute, which is
    taken as the total length, and a [tell], which is subtracted from it. *)
Definition super_len (o : CustomBytesIO A) : Z :=
  Z.max 0 (bytesio_len o - tell o).

(** [append]: write at the end, keep the position; returns the count. *)
Definition append (b : list A) (o : CustomBytesIO A) : Z * CustomBytesIO A :=
  (zlen b, mkBytesIO (consumed o) (unread o ++ b)).

(** [smart_truncate]: drop what was read once it is at least as long as
    what is left. *)
Definition smart_truncate (o : CustomBytesIO A) : CustomBytesIO A :=
  let to_be_read := bytesio_len o in
  let already_read := tell o in
  if decide (already_read >= to_be_read) then mkBytesIO [] (unread o) else o.

(** [BytesIO.read(size)]: everything left for a negative size. *)
Definition bytesio_read (size : Z) (o : CustomBytesIO A)
  : list A * CustomBytesIO A :=
  if decide (size < 0) then (unread o, mkBytesIO (consumed o ++ unread o) [])
  else
    let n := Z.to_nat size in
    (take n (unread o), mkBytesIO (consumed o ++ take n (unread o)) (drop n (unread o))).
End CustomBytesIO.

(** ** [IteratorAsBinaryFile]

    The iterator is the list of chunks it has still to yield; an exhausted
    iterator is [[]]. *)

Module IteratorAsBinaryFile.

Record t (A : Type) : Type := mk {
  size : Z;
  md5 : hash_object A;
  len : Z;
  iterator : list (list A);
  encoding : string;
  _buffer : CustomBytesIO A
}.
Arguments mk {A} _ _ _ _ _ _.
Arguments size {A} _.
Arguments md5 {A} _.
Arguments len {A} _.
Arguments iterator {A} _.
Arguments encoding {A} _.
Arguments _buffer {A} _.

Section Methods.
Context {A : Type}.

(** [def __init__(self, size, iterator, md5, encoding='utf-8')] *)
Definition init (size : Z) (iterator : list (list A)) (md5 : hash_object A)
  : result (t A) :=
  if decide (size < 0) then
    Raise (ValueError "The size of the upload must be a positive integer")
  else Ok (mk size md5 size iterator "utf-8" bytesio_new).

(** The [while amount_to_load > 0 and bytes_to_append] loop of
    [_load_bytes]; [bytes_to_append] is [True] on entry.  [_get_bytes] is
    the head of the iterator, or [b''] on [StopIteration]. *)
Fixpoint load_loop (amount_to_load : Z) (it : list (list A))
    (buf : CustomBytesIO A) : list (list A) * CustomBytesIO A :=
  if decide (amount_to_load > 0) then
    match it with
    | [] => ([], (append [] buf).2)
    | bytes_to_append :: it' =>
        let '(n, buf') := append bytes_to_append buf in
        match bytes_to_append with
        | [] => (it', buf')
        | _ :: _ => load_loop (amount_to_load - n) it' buf'
        end
    end
  else (it, buf).

(** [def _load_bytes(self, size)] *)
Definition _load_bytes (size : Z) (self : t A) : t A :=
  let buf := smart_truncate (_buffer self) in
  let amount_to_load := size - super_len buf in
  let '(it', buf') := load_loop amount_to_load (iterator self) buf in
  mk (IteratorAsBinaryFile.size self) (md5 self) (len self) it'
     (encoding self) buf'.

(** [def read(self, size=-1)] *)
Definition read (size : Z) (self : t A) : list A * t A :=
  if decide (size = -1) then
    (concat (iterator self),
     mk (IteratorAsBinaryFile.size self) (md5 self) (len self) []
        (encoding self) (_buffer self))
  else
    let self1 := _load_bytes size self in
    let '(s, buf') := bytesio_read size (_buffer self1) in
    let len1 := match s with [] => 0 | _ :: _ => len self1 end in
    let len2 := if decide (size < 0) then 0 else len1 in
    (s, mk (IteratorAsBinaryFile.size self1) (hash_update s (md5 self1)) len2
           (iterator self1) (encoding self1) buf').

(** The bytes the reader has still to hand out: what is buffered and not
    yet read, then what the iterator will yield. *)
Definition remaining (self : t A) : list A :=
  unread (_buffer self) ++ concat (iterator self).

(** A caller pulling with the given request sizes, one after the other. *)
Fixpoint reads (sizes : list Z) (self : t A) : list (list A) * t A :=
  match sizes with
  | [] => ([], self)
  | n :: sizes' =>
      let '(s, self1) := read n self in
      let '(ss, self2) := reads sizes' self1 in
      (s :: ss, self2)
  end.
End Methods.

End IteratorAsBinaryFile.

(** ** [MultiPurposeReader]

    [_raw] is the wrapped file object, represented by the bytes it has still
    to deliver; its [read(n)] hands out everything for a negative [n] and at
    most [n] bytes otherwise. *)

Module MultiPurposeReader.

Record t (A : Type) : Type := mk {
  len : Z;
  _raw : list A;
  md5 : hash_object A;
  sha : hash_object A
}.
Arguments mk {A} _ _ _ _.
Arguments len {A} _.
Arguments _raw {A} _.
Arguments md5 {A} _.
Arguments sha {A} _.

(** [io.DEFAULT_BUFFER_SIZE] *)
Definition DEFAULT_BUFFER_SIZE : Z := 8 * 1024.

Section Methods.
Context {A : Type}.

Definition raw_read (n : Z) (raw : list A) : list A * list A :=
  if decide (n < 0) then (raw, [])
  else (take (Z.to_nat n) raw, drop (Z.to_nat n) raw).

(** [def read(self, chunk_size)] *)
Definition read (chunk_size : Z) (self : t A) : list A * t A :=
  let force_size := 1024 * DEFAULT_BUFFER_SIZE in
  let '(chunk, raw') :=
    if decide (chunk_size = -1 \/ chunk_size = 0 \/ chunk_size > force_size)
    then raw_read chunk_size (_raw self)
    else raw_read force_size (_raw self) in
  let len1 := len self - zlen chunk in
  let len2 := match chunk with [] => 0 | _ :: _ => len1 end in
  (chunk, mk len2 raw' (hash_update chunk (md5 self))
             (hash_update chunk (sha self))).
End Methods.

End MultiPurposeReader.

(** ** The archive writer: CPython's [zipfile], at the level of record sizes

    [zip_collection] drives [zipfile.ZipFile] in mode ['w'] with
    [ZIP_STORED] over an [UnseekableStream].  The stream has no [tell], so
    [ZipFile.__init__] wraps it in [_Tellable] and clears [_seekable]; every
    member is then written with a data descriptor (flag bit [0x08]).  The
    embedding follows [ZipInfo.FileHeader], [ZipFile._open_to_write],
    [_ZipWriteFile.write]/[close], [ZipFile._write_end_record] and
    [ZipFile.close] for that case.  What a [struct.pack] call writes is kept
    as its format string, a file name as the string that is encoded, and
    member data as its byte count: the values packed (CRC, time stamps,
    version numbers) do not change any length. *)

Module Zipfile.

Definition ZIP64_LIMIT : Z := Z.shiftl 1 31 - 1.
Definition ZIP_FILECOUNT_LIMIT : Z := Z.shiftl 1 16 - 1.

Definition structEndArchive : string := "<4s4H2LH".
Definition structCentralDir : string := "<4s4B4HL2L5H2L".
Definition structFileHeader : string := "<4s2B4HL2L2H".
Definition structEndArchive64Locator : string := "<4sLQL".
Definition structEndArchive64 : string := "<4sQ2H2L4Q".

(** [struct.calcsize] for the little-endian standard-size formats above:
    an optional repeat count, then [s] (count bytes), [B], [H], [L] or [Q]. *)
Definition digit_of (c : ascii) : option Z :=
  let n := Z.of_N (N_of_ascii c) in
  if decide (48 <= n <= 57) then Some (n - 48) else None.

Definition unit_size (c : ascii) : option Z :=
  if Ascii.eqb c "s" then Some 1
  else if Ascii.eqb c "B" then Some 1
  else if Ascii.eqb c "H" then Some 2
  else if Ascii.eqb c "L" then Some 4
  else if Ascii.eqb c "Q" then Some 8
  else None.

Fixpoint calcsize_from (fmt : string) (count : option Z) (acc : Z) : Z :=
  match fmt with
  | EmptyString => acc
  | String c rest =>
      match digit_of c with
      | Some d => calcsize_from rest (Some (10 * default 0 count + d)) acc
      | None =>
          match unit_size c with
          | Some u => calcsize_from rest None (acc + default 1 count * u)
          | None => calcsize_from rest None acc
          end
      end
  end.

Definition calcsize (fmt : string) : Z := calcsize_from fmt None 0.

Definition sizeEndCentDir : Z := calcsize structEndArchive.
Definition sizeCentralDir : Z := calcsize structCentralDir.
Definition sizeFileHeader : Z := calcsize structFileHeader.
Definition sizeEndCentDir64Locator : Z := calcsize structEndArchive64Locator.
Definition sizeEndCentDir64 : Z := calcsize structEndArchive64.

(** [len(s)] of a [str], and the length of [str.encode]: ASCII when every
    character is below 128, UTF-8 otherwise (two bytes for U+0080..U+00FF). *)
Definition py_len (s : string) : Z := Z.of_nat (String.length s).

Definition is_ascii (c : ascii) : bool := Z.of_N (N_of_ascii c) <? 128.

Fixpoint all_ascii (s : string) : bool :=
  match s with
  | EmptyString => true
  | String c rest => is_ascii c && all_ascii rest
  end.

Fixpoint utf8_len (s : string) : Z :=
  match s with
  | EmptyString => 0
  | String c rest => (if is_ascii c then 1 else 2) + utf8_len rest
  end.

(** The pieces a [bytes] object written by the archive writer is made of. *)
Inductive piece : Type :=
| Packed (fmt : string)
| Encoded (s : string)
| Payload (n : Z).

Definition piece_size (p : piece) : Z :=
  match p with
  | Packed fmt => calcsize fmt
  | Encoded s => if all_ascii s then py_len s else utf8_len s
  | Payload n => n
  end.

Abbreviation bytes := (list piece).
Abbreviation len := (blen piece_size).

(** [class ZipInfo]: the attributes the sizes depend on. *)
Record ZipInfo : Type := mkZipInfo {
  orig_filename : string;
  filename : string;
  extra : bytes;
  comment : bytes;
  flag_bits : Z;
  compress_size : Z;
  file_size : Z;
  header_offset : Z
}.

(** [filename[0:null_byte]] when the name holds a null character. *)
Fixpoint until_null (s : string) : string :=
  match s with
  | EmptyString => EmptyString
  | String c rest =>
      if Ascii.eqb c "000" then EmptyString else String c (until_null rest)
  end.

(** [ZipInfo(filename)] on a platform whose [os.sep] is ["/"]. *)
Definition ZipInfo_init (name : string) : ZipInfo :=
  {| orig_filename := name; filename := until_null name;
     extra := []; comment := []; flag_bits := 0;
     compress_size := 0; file_size := 0; header_offset := 0 |}.

Definition _MASK_USE_DATA_DESCRIPTOR : Z := Z.shiftl 1 3.
Definition _MASK_UTF_FILENAME : Z := Z.shiftl 1 11.

(** [def _encodeFilenameFlags(self)] *)
Definition _encodeFilenameFlags (zi : ZipInfo) : bytes * Z :=
  if all_ascii (filename zi) then ([Encoded (filename zi)], flag_bits zi)
  else ([Encoded (filename zi)], Z.lor (flag_bits zi) _MASK_UTF_FILENAME).

(** [class _Tellable] *)
Module Tellable.
Record t : Type := mk { fp : UnseekableStream piece; offset : Z }.

Definition init (fp : UnseekableStream piece) : t := mk fp 0.

Definition write (data : bytes) (self : t) : result (Z * t) :=
  '(n, fp') ← write piece_size data (fp self);
  mret (n, mk fp' (offset self + n)).

Definition tell (self : t) : Z := offset self.
End Tellable.

(** [class ZipFile], opened with [ZipFile(stream, 'w', ZIP_STORED)]. *)
Record ZipFile : Type := mkZipFile {
  fp : Tellable.t;
  start_dir : Z;
  filelist : list ZipInfo;
  _comment : bytes;
  _allowZip64 : bool;
  _writing : bool
}.

Definition ZipFile_init (stream : UnseekableStream piece) : ZipFile :=
  {| fp := Tellable.init stream; start_dir := 0; filelist := [];
     _comment := []; _allowZip64 := true; _writing := false |}.

Definition fp_write (data : bytes) (self : ZipFile) : result ZipFile :=
  '(_, fp') ← Tellable.write data (fp self);
  mret {| fp := fp'; start_dir := start_dir self; filelist := filelist self;
          _comment := _comment self; _allowZip64 := _allowZip64 self;
          _writing := _writing self |}.

Definition has_flag (bits mask : Z) : bool := negb (Z.land bits mask =? 0).

(** [def FileHeader(self, zip64=None)], called with an explicit [zip64]. *)
Definition FileHeader (zip64 : bool) (self : ZipInfo) : result bytes :=
  let '(compress_size, file_size) :=
    if has_flag (flag_bits self) _MASK_USE_DATA_DESCRIPTOR then (0, 0)
    else (compress_size self, file_size self) in
  let extra := extra self ++ (if zip64 then [Packed "<HHQQ"] else []) in
  if decide (file_size > ZIP64_LIMIT \/ compress_size > ZIP64_LIMIT) then
    if zip64 then
      let '(filename, _) := _encodeFilenameFlags self in
      Ok ([Packed structFileHeader] ++ filename ++ extra)
    else Raise (LargeZipFile "Filesize would require ZIP64 extensions")
  else
    let '(filename, _) := _encodeFilenameFlags self in
    Ok ([Packed structFileHeader] ++ filename ++ extra).

(** [def _writecheck(self, zinfo)]; a duplicate name only warns. *)
Definition _writecheck (zinfo : ZipInfo) (self : ZipFile) : result unit :=
  if _allowZip64 self then Ok tt
  else if decide (Z.of_nat (length (filelist self)) >= ZIP_FILECOUNT_LIMIT) then
    Raise (LargeZipFile "Files count would require ZIP64 extensions")
  else if decide (file_size zinfo > ZIP64_LIMIT) then
    Raise (LargeZipFile "Filesize would require ZIP64 extensions")
  else if decide (header_offset zinfo > ZIP64_LIMIT) then
    Raise (LargeZipFile "Zipfile size would require ZIP64 extensions")
  else Ok tt.

(** [class _ZipWriteFile] with no compressor ([ZIP_STORED]). *)
Record ZipWriteFile : Type := mkZipWriteFile {
  _zinfo : ZipInfo;
  _zip64 : bool;
  _file_size : Z;
  _compress_size : Z
}.

(** [def _open_to_write(self, zinfo, force_zip64=False)].  In the source
    [zip64] is [_allowZip64 and (force_zip64 or file_size * 1.05 >
    ZIP64_LIMIT)] with a floating-point product; [zip_collection] always
    passes [force_zip64=True], for which the product is not evaluated. *)
Definition _open_to_write (zinfo : ZipInfo) (force_zip64 : bool)
    (self : ZipFile) : result (ZipWriteFile * ZipFile) :=
  if force_zip64 && negb (_allowZip64 self) then
    Raise (ValueError "force_zip64 is True, but allowZip64 was False when opening the ZIP file.")
  else if _writing self then
    Raise (ValueError "Can't write to the ZIP file while there is another write handle open on it.")
  else
    let zip64 := _allowZip64 self &&
                 (force_zip64 || (20 * ZIP64_LIMIT <? 21 * file_size zinfo)) in
    let zinfo1 :=
      {| orig_filename := orig_filename zinfo; filename := filename zinfo;
         extra := extra zinfo; comment := comment zinfo;
         flag_bits := Z.lor 0 _MASK_USE_DATA_DESCRIPTOR;
         compress_size := 0; file_size := file_size zinfo;
         header_offset := Tellable.tell (fp self) |} in
    _ ← _writecheck zinfo1 self;
    header ← FileHeader zip64 zinfo1;
    self1 ← fp_write header self;
    mret (mkZipWriteFile zinfo1 zip64 0 0,
          {| fp := fp self1; start_dir := start_dir self1;
             filelist := filelist self1; _comment := _comment self1;
             _allowZip64 := _allowZip64 self1; _writing := true |}).

(** [_ZipWriteFile.write] *)
Definition member_write (data : bytes) (w : ZipWriteFile) (zf : ZipFile)
  : result (Z * ZipWriteFile * ZipFile) :=
  let nbytes := len data in
  let w1 := mkZipWriteFile (_zinfo w) (_zip64 w) (_file_size w + nbytes)
                           (_compress_size w) in
  zf1 ← fp_write data zf;
  mret (nbytes, w1, zf1).

(** [_ZipWriteFile.close]: sizes into the [ZipInfo], the data descriptor,
    [start_dir], and the member is appended to [filelist]. *)
Definition member_close (w : ZipWriteFile) (zf : ZipFile) : result ZipFile :=
  let zi := _zinfo w in
  let zi1 :=
    {| orig_filename := orig_filename zi; filename := filename zi;
       extra := extra zi; comment := comment zi; flag_bits := flag_bits zi;
       compress_size := _file_size w; file_size := _file_size w;
       header_offset := header_offset zi |} in
  if has_flag (flag_bits zi1) _MASK_USE_DATA_DESCRIPTOR then
    let fmt := if _zip64 w then "<LLQQ" else "<LLLL" in
    zf1 ← fp_write [Packed fmt] zf;
    mret {| fp := fp zf1; start_dir := Tellable.tell (fp zf1);
            filelist := filelist zf1 ++ [zi1]; _comment := _comment zf1;
            _allowZip64 := _allowZip64 zf1; _writing := false |}
  else Raise (AttributeError "'_Tellable' object has no attribute 'seek'").

(** One central directory record, as in the loop of [_write_end_record]. *)
Definition central_extra (zinfo : ZipInfo) : list Z :=
  (if decide (file_size zinfo > ZIP64_LIMIT \/ compress_size zinfo > ZIP64_LIMIT)
   then [file_size zinfo; compress_size zinfo] else [])
  ++ (if decide (header_offset zinfo > ZIP64_LIMIT)
      then [header_offset zinfo] else []).

Fixpoint repeat_string (c : ascii) (n : nat) : string :=
  match n with
  | O => EmptyString
  | S n' => String c (repeat_string c n')
  end.

Definition central_extra_data (zinfo : ZipInfo) : bytes :=
  match central_extra zinfo with
  | [] => extra zinfo
  | e :: es =>
      [Packed ("<HH" ++ repeat_string "Q" (length (e :: es)))] ++ extra zinfo
  end.

Definition write_central (zinfo : ZipInfo) (self : ZipFile) : result ZipFile :=
  let '(filename, _) := _encodeFilenameFlags zinfo in
  self1 ← fp_write [Packed structCentralDir] self;
  self2 ← fp_write filename self1;
  self3 ← fp_write (central_extra_data zinfo) self2;
  fp_write (comment zinfo) self3.

Fixpoint write_centrals (zinfos : list ZipInfo) (self : ZipFile)
  : result ZipFile :=
  match zinfos with
  | [] => Ok self
  | zinfo :: rest => self1 ← write_central zinfo self; write_centrals rest self1
  end.

(** [def _write_end_record(self)] *)
Definition _write_end_record (self : ZipFile) : result ZipFile :=
  self1 ← write_centrals (filelist self) self;
  let pos2 := Tellable.tell (fp self1) in
  let centDirCount := Z.of_nat (length (filelist self1)) in
  let centDirSize := pos2 - start_dir self1 in
  let centDirOffset := start_dir self1 in
  let requires_zip64 :=
    bool_decide (centDirCount > ZIP_FILECOUNT_LIMIT)
    || bool_decide (centDirOffset > ZIP64_LIMIT)
    || bool_decide (centDirSize > ZIP64_LIMIT) in
  self2 ←
    (if requires_zip64 then
       if _allowZip64 self1 then
         s ← fp_write [Packed structEndArchive64] self1;
         fp_write [Packed structEndArchive64Locator] s
       else Raise (LargeZipFile "would require ZIP64 extensions")
     else Ok self1);
  self3 ← fp_write [Packed structEndArchive] self2;
  fp_write (_comment self3) self3.

(** [def close(self)]: the stream was passed in, so it is not closed. *)
Definition ZipFile_close (self : ZipFile) : result ZipFile :=
  if _writing self then
    Raise (ValueError "Can't close the ZIP file while there is another write handle open on it.")
  else _write_end_record self.

End Zipfile.

(** ** [irodsUtils]: plan, size prediction and archive generation *)

Module IrodsUtils.
Import Zipfile.

(** An iRODS data object as the code reads it: [f.path], [f.name], [f.size]. *)
Record data_object : Type := mkObject {
  path : string;
  name : string;
  size : Z
}.

(** One item of [collection.walk()]: [(coll, sub, files)]. *)
Definition walk_item : Type := string * list string * list data_object.

(** A value of the [upload_success] dict: a hex digest, or [True]. *)
Inductive entry : Type :=
| Digest (hex : string)
| PyTrue.

#[global] Instance entry_eq_dec : EqDecision entry.
Proof. solve_decision. Defined.

(** [BLOCK_SIZE = 1024 * io.DEFAULT_BUFFER_SIZE] *)
Definition BLOCK_SIZE : Z := 1024 * MultiPurposeReader.DEFAULT_BUFFER_SIZE.

(** [sorted(..., reverse=True, key=lambda t: t[0])]: larger key first. *)
Definition size_desc (a b : Z * data_object) : Prop := b.1 <= a.1.

#[global] Instance size_desc_dec a b : Decision (size_desc a b).
Proof. unfold size_desc. apply _. Defined.

(** [def sort_path_by_size(collection)]: the dict [sort] is keyed by
    [file.size]. *)
Definition sort_update (sort : gmap Z data_object) (file : data_object)
  : gmap Z data_object := <[size file := file]> sort.

Definition sort_dict (collection : list walk_item) : gmap Z data_object :=
  foldl (fun sort '(coll, sub, files) => foldl sort_update sort files)
        ∅ collection.

Definition sort_path_by_size (collection : list walk_item)
  : list (Z * data_object) :=
  merge_sort size_desc (map_to_list (sort_dict collection)).

(** The files the walk visits, in the order of the two loops. *)
Definition walked_files (collection : list walk_item) : list data_object :=
  concat (map (fun item : walk_item => item.2) collection).

(** [def calc_zip_block(size, file_path, zip64)] *)
Definition calc_zip_block (size : Z) (file_path : string) (zip64 : bool) : Z :=
  let zip_size := size in
  if decide (size >= ZIP64_LIMIT) then
    let zip_size := zip_size + (30 + py_len file_path + 24 + 20) in
    let zip_size := zip_size + (46 + py_len file_path) in
    if zip64 then zip_size + 28 else zip_size + 20
  else
    let zip_size := zip_size + (30 + py_len file_path + 24 + 20) in
    let zip_size := zip_size + (46 + py_len file_path) in
    if zip64 then zip_size + 12 else zip_size.

(** The locals of [collection_zip_preparation] that its loop updates. *)
Record prep : Type := mkPrep {
  data : list data_object;
  total : Z;
  zip64 : bool;
  seeded : gmap string entry
}.

(** One iteration of [for file_size, file in sorted_path.items()];
    [rulemanager] stands for [rulemanager.rule_checksum]. *)
Definition prep_step (rulemanager : string -> string) (st : prep)
    (item : Z * data_object) : prep :=
  let '(file_size, file) := item in
  let size := total st + calc_zip_block file_size (path file) (zip64 st) in
  let zip64' := if decide (size >= ZIP64_LIMIT) then true else zip64 st in
  let irods_hash_decode := rulemanager (path file) in
  mkPrep (data st ++ [file]) size zip64'
         (<[path file := Digest irods_hash_decode]> (seeded st)).

Definition prep_loop (rulemanager : string -> string)
    (upload_success : gmap string entry) (sorted_path : list (Z * data_object))
  : prep :=
  foldl (prep_step rulemanager) (mkPrep [] 0 false upload_success) sorted_path.

(** The locals after the first [k] iterations of the loop. *)
Definition running (rulemanager : string -> string)
    (upload_success : gmap string entry) (sorted_path : list (Z * data_object))
    (k : nat) : prep :=
  prep_loop rulemanager upload_success (take k sorted_path).

(** The end of [collection_zip_preparation]: end of central directory
    record, and the ZIP64 record and locator when flagged. *)
Definition prep_finish (st : prep) : Z :=
  let size := total st + 22 in
  if zip64 st then size + (56 + 20) else size.

(** [def collection_zip_preparation(collection, rulemanager, upload_success)]:
    returns [(data, size)] and leaves the digests in [upload_success]. *)
Definition collection_zip_preparation (collection : list walk_item)
    (rulemanager : string -> string) (upload_success : gmap string entry)
  : list data_object * Z * gmap string entry :=
  let sorted_path := sort_path_by_size collection in
  let st := prep_loop rulemanager upload_success sorted_path in
  (data st, prep_finish st, seeded st).

(** What [session.data_objects.open(path, 'r')] gives access to: the number
    of bytes stored, and the SHA-256 hex digest of those bytes. *)
Record remote_object : Type := mkRemote {
  stored_size : Z;
  stored_sha256 : string
}.

(** [iter(lambda: buff.read(BLOCK_SIZE), b'')]: the lengths of the chunks
    read, full blocks and then the rest. *)
Definition read_blocks (n : Z) : list Z :=
  if decide (n <= 0) then []
  else replicate (Z.to_nat (n / BLOCK_SIZE)) BLOCK_SIZE
       ++ (if decide (n mod BLOCK_SIZE = 0) then [] else [n mod BLOCK_SIZE]).

(** The generator [zip_collection] together with what its consumer sees:
    the archive object over the shared stream, the [upload_success] dict,
    and the chunks the consumer has yielded so far. *)
Record pipeline : Type := mkPipeline {
  zip_buffer : ZipFile;
  upload_success : gmap string entry;
  emitted : list bytes
}.

Definition with_zip (zf : ZipFile) (st : pipeline) : pipeline :=
  mkPipeline zf (upload_success st) (emitted st).

Definition stream_of (st : pipeline) : UnseekableStream piece :=
  Tellable.fp (fp (zip_buffer st)).

Definition with_stream (s : UnseekableStream piece) (st : pipeline) : pipeline :=
  let zf := zip_buffer st in
  with_zip {| fp := Tellable.mk s (Tellable.offset (fp zf));
              start_dir := start_dir zf; filelist := filelist zf;
              _comment := _comment zf; _allowZip64 := _allowZip64 zf;
              _writing := _writing zf |} st.

(** The body of the loop of [archive_generator], run at each [yield] of
    the archive generator: [s = stream.get()], passed on when not empty.
    The branch taken under debug logging yields the same chunks and copies
    them to a file; the progress bar only counts. *)
Definition archive_generator_step (st : pipeline) : pipeline :=
  let '(s, stream') := get (stream_of st) in
  let st1 := with_stream stream' st in
  if decide (len s > 0) then
    mkPipeline (zip_buffer st1) (upload_success st1) (emitted st1 ++ [s])
  else st1.

Section Generator.
(** What happens when the generator yields. *)
Variable yield_ : pipeline -> pipeline.
Variable session : string -> remote_object.

(** [for chunk in iter(...): dest.write(chunk); irods_sha.update(chunk); yield] *)
Fixpoint write_chunks (chunks : list Z) (dest : ZipWriteFile) (st : pipeline)
  : result (ZipWriteFile * pipeline) :=
  match chunks with
  | [] => Ok (dest, st)
  | chunk :: rest =>
      '(_, dest1, zf1) ← member_write [Payload chunk] dest (zip_buffer st);
      write_chunks rest dest1 (yield_ (with_zip zf1 st))
  end.

(** The body of [for f in data]. *)
Definition zip_member (f : data_object) (st : pipeline) : result pipeline :=
  let buff := session (path f) in
  let zi := ZipInfo_init (path f) in
  let zip_info :=
    {| orig_filename := orig_filename zi; filename := filename zi;
       extra := extra zi; comment := comment zi; flag_bits := flag_bits zi;
       compress_size := compress_size zi; file_size := size f;
       header_offset := header_offset zi |} in
  '(dest, zf1) ← _open_to_write zip_info true (zip_buffer st);
  '(dest1, st1) ← write_chunks (read_blocks (stored_size buff)) dest
                                (with_zip zf1 st);
  zf2 ← member_close dest1 (zip_buffer st1);
  let sha_hexdigest := stored_sha256 buff in
  let us := upload_success st1 in
  let us' := if decide (us !! path f = Some (Digest sha_hexdigest))
             then <[path f := PyTrue]> us else us in
  mret (mkPipeline zf2 us' (emitted st1)).

Fixpoint zip_members (data : list data_object) (st : pipeline)
  : result pipeline :=
  match data with
  | [] => Ok st
  | f :: rest => st1 ← zip_member f st; zip_members rest st1
  end.

(** [def zip_collection(data, stream, session, upload_success)] *)
Definition zip_collection (data : list data_object)
    (stream : UnseekableStream piece) (upload_success : gmap string entry)
  : result pipeline :=
  let st := mkPipeline (ZipFile_init stream) upload_success [] in
  let st := yield_ st in
  st1 ← zip_members data st;
  zf ← ZipFile_close (zip_buffer st1);
  mret (yield_ (with_zip zf st1)).
End Generator.

(** [archive_generator(zip_collection(data, stream, session,
    upload_success), stream, bar)], run to exhaustion: the chunks yielded,
    and the dict as the generator leaves it. *)
Definition archive_generator (data : list data_object)
    (stream : UnseekableStream piece) (session : string -> remote_object)
    (upload_success : gmap string entry)
  : result (list bytes * gmap string entry) :=
  st ← zip_collection archive_generator_step session data stream upload_success;
  mret (emitted st, IrodsUtils.upload_success st).

(** [def get_zip_generator(collection, session, upload_success,
    rulemanager, irods_md5)] *)
Definition get_zip_generator (collection : list walk_item)
    (session : string -> remote_object) (upload_success : gmap string entry)
    (rulemanager : string -> string) (irods_md5 : hash_object piece)
  : result (IteratorAsBinaryFile.t piece * gmap string entry) :=
  let '(data, size, us1) :=
    collection_zip_preparation collection rulemanager upload_success in
  let stream := stream_init in
  '(chunks, us2) ← archive_generator data stream session us1;
  iterator ← IteratorAsBinaryFile.init size chunks irods_md5;
  mret (iterator, us2).

(** The bytes a consumer of the archive generator receives for a plan. *)
Definition emitted_length (chunks : list bytes) : Z := len (concat chunks).

End IrodsUtils.

(** ** [dataverseClient]: the export attempt and its validation

    A method of the client is a function from the client object to its
    outcome, a value or a raised exception, and the object as the method
    leaves it. *)

Module DataverseClient.
Import IrodsUtils.

(** The members of the [ExporterState] enumeration that the client names
    (the enumeration is declared outside the files at hand; only the
    identity of a member matters below). *)
Inductive Status : Type :=
| CREATE_EXPORTER | CREATE_DATASET | CREATE_DATASET_FAILED | DATASET_UNKNOWN
| PREPARE_COLLECTION | ZIP_COLLECTION | UPLOAD_ZIPPED_COLLECTION
| VALIDATE_CHECKSUM | VALIDATE_UPLOAD | UPLOAD_CORRUPTED | UPLOAD_FAILED
| FINALIZE | EXPORTED.

#[global] Instance Status_eq_dec : EqDecision Status.
Proof. solve_decision. Defined.

(** What the orchestrating process does, in program order; the queries of
    the checksum worker appear where the schedule lets them run. *)
Inductive event : Type :=
| StatusUpdate (old new : Status)
| PoolStarted
| WorkerQueried (path : string)
| PrepareZip
| RequestIssued
| ResponseReceived
| PoolClosed
| PoolJoined
| ResultRead (chksums : gmap string string)
| Compared (path : string) (equal : bool)
| RuleDeletion
| FinalReport
| EmailConfirmation
| SubmitForReview.

(** [HTTPStatus.OK.value] *)
Definition HTTP_OK : Z := 200.

(** The response of the deposit request: [resp.status_code], and
    [resp.json()['data']['files'][0]['dataFile']['md5']] when the body has
    that entry ([None] when the lookup raises). *)
Record response : Type := mkResponse {
  status_code : Z;
  reported_md5 : option string
}.

(** The single worker process of [Pool(processes=1)] running the checksum
    job: the paths it has still to query, and the digests it has. *)
Record worker : Type := mkWorker {
  todo : list string;
  fetched : gmap string string
}.

Record t : Type := mk {
  dataset_deposit_url : option string;
  upload_success : gmap string entry;
  irods_md5 : hash_object Byte.byte;
  pool : option worker;
  deletion : bool;
  trace : list event
}.

Definition log (e : event) (self : t) : t :=
  mk (dataset_deposit_url self) (upload_success self) (irods_md5 self)
     (pool self) (deletion self) (trace self ++ [e]).

Definition with_pool (w : option worker) (self : t) : t :=
  mk (dataset_deposit_url self) (upload_success self) (irods_md5 self)
     w (deletion self) (trace self).

Definition with_upload_success (us : gmap string entry) (self : t) : t :=
  mk (dataset_deposit_url self) us (irods_md5 self)
     (pool self) (deletion self) (trace self).

Definition with_md5 (h : hash_object Byte.byte) (self : t) : t :=
  mk (dataset_deposit_url self) (upload_success self) h
     (pool self) (deletion self) (trace self).

(** [irods_client.update_metadata_status(old, new)] *)
Definition update_metadata_status (old new : Status) (self : t) : t :=
  log (StatusUpdate old new) self.

(** [DataverseClient(...)] once [create_dataset] has set the deposit URL. *)
Definition init (url : option string) : t :=
  mk url ∅ hash_new None false [].

(** What the two transfer phases of an attempt do to the client, as far as
    the files at hand do not decide it: [_prepare_zip] calls
    [zip_generator_faker], [_upload_zip_collection] streams the archive and
    posts it.  [during_prepare] and [during_upload] are the numbers of
    queries the worker gets to run meanwhile. *)
Record attempt : Type := mkAttempt {
  plan_paths : list string;
  during_prepare : nat;
  during_upload : nat;
  after_prepare : gmap string entry -> gmap string entry;
  after_upload : gmap string entry -> gmap string entry;
  uploaded_md5 : hash_object Byte.byte;
  resp : response
}.

(** [self.upload_success[k] == chksums[k]]: a digest against a digest;
    [True] is not equal to any string. *)
Definition entry_equals (v : entry) (c : string) : bool :=
  match v with
  | Digest h => bool_decide (h = c)
  | PyTrue => false
  end.

(** One iteration of [for k in self.upload_success.keys()]. *)
Definition check_key (chksums : gmap string string) (k : string)
    (count : Z) (self : t) : result Z * t :=
  match upload_success self !! k with
  | None => (Raise (KeyError k), self)
  | Some v =>
      match chksums !! k with
      | None => (Raise (KeyError k), self)
      | Some c =>
          let self1 := log (Compared k (entry_equals v c)) self in
          if entry_equals v c then
            (Ok (count + 1),
             with_upload_success (<[k := PyTrue]> (upload_success self1)) self1)
          else (Ok count, self1)
      end
  end.

Fixpoint check_keys (chksums : gmap string string) (keys : list string)
    (count : Z) (self : t) : result Z * t :=
  match keys with
  | [] => (Ok count, self)
  | k :: rest =>
      match check_key chksums k count self with
      | (Ok count1, self1) => check_keys chksums rest count1 self1
      | (Raise e, self1) => (Raise e, self1)
      end
  end.

Section Client.
(** [rulemanager.rule_checksum], the digest the remote source holds. *)
Variable rule_checksum : string -> string.
(** The hash function behind [hashlib.md5]. *)
Variable md5_of : list Byte.byte -> string.

(** Modelled from the spec: [run_checksum], the job handed to the pool, is
    not in the files at hand.  Per section 4.5 it queries, one after the
    other, the remote digest of every file of the plan and returns the
    completed path-to-digest mapping; one step is one query. *)
Definition worker_step (self : t) : t :=
  match pool self with
  | Some (mkWorker (p :: rest) got) =>
      log (WorkerQueried p)
          (with_pool (Some (mkWorker rest (<[p := rule_checksum p]> got))) self)
  | _ => self
  end.

Fixpoint worker_steps (n : nat) (self : t) : t :=
  match n with
  | O => self
  | S n' => worker_steps n' (worker_step self)
  end.

Definition pending_queries (self : t) : nat :=
  match pool self with Some w => length (todo w) | None => O end.

(** [pool.join()]: returns when the worker has nothing left to do. *)
Definition pool_join (self : t) : t :=
  log PoolJoined (worker_steps (pending_queries self) self).

(** [pool_result.get()]: returns the mapping once the job has finished. *)
Definition pool_result_get (self : t) : result (gmap string string) * t :=
  let self1 := worker_steps (pending_queries self) self in
  match pool self1 with
  | Some w => (Ok (fetched w), log (ResultRead (fetched w)) self1)
  | None =>
      (Raise (AttributeError "'NoneType' object has no attribute 'get'"), self1)
  end.

(** [def _validate_checksum(self)] *)
Definition _validate_checksum (self : t) : result bool * t :=
  let self := update_metadata_status UPLOAD_ZIPPED_COLLECTION VALIDATE_CHECKSUM self in
  match pool self with
  | None =>
      (Raise (AttributeError "'NoneType' object has no attribute 'close'"), self)
  | Some _ =>
      let self := log PoolClosed self in
      let self := pool_join self in
      match pool_result_get self with
      | (Raise e, self) => (Raise e, self)
      | (Ok chksums, self) =>
          let keys := (map_to_list (upload_success self)).*1 in
          match check_keys chksums keys 0 self with
          | (Raise e, self) => (Raise e, self)
          | (Ok count, self) =>
              if decide (count = Z.of_nat (base.size (upload_success self))) then
                (Ok true, self)
              else
                (Ok false,
                 update_metadata_status VALIDATE_UPLOAD UPLOAD_CORRUPTED self)
          end
      end
  end.

(** [def _validate_upload(self, resp)] *)
Definition _validate_upload (resp : response) (self : t) : result bool * t :=
  let self := update_metadata_status VALIDATE_CHECKSUM VALIDATE_UPLOAD self in
  let md5_hexdigest := hexdigest md5_of (irods_md5 self) in
  if decide (status_code resp = HTTP_OK) then
    match reported_md5 resp with
    | None => (Raise (KeyError "md5"), self)
    | Some md5_dataverse =>
        if decide (md5_dataverse = md5_hexdigest) then
          (Ok true, update_metadata_status VALIDATE_UPLOAD FINALIZE self)
        else
          (Ok false, update_metadata_status VALIDATE_UPLOAD UPLOAD_CORRUPTED self)
    end
  else
    (Ok false, update_metadata_status VALIDATE_UPLOAD UPLOAD_FAILED self).

(** [def _prepare_zip(self)] *)
Definition _prepare_zip (a : attempt) (self : t) : t :=
  let self := update_metadata_status PREPARE_COLLECTION ZIP_COLLECTION self in
  let self := log PrepareZip self in
  let self := with_upload_success (after_prepare a (upload_success self)) self in
  worker_steps (during_prepare a) self.

(** [def _upload_zip_collection(self, size_bundle)] *)
Definition _upload_zip_collection (a : attempt) (self : t) : response * t :=
  let self := update_metadata_status ZIP_COLLECTION UPLOAD_ZIPPED_COLLECTION self in
  let self := with_md5 hash_new self in
  let self := log RequestIssued self in
  let self := worker_steps (during_upload a) self in
  let self := with_upload_success (after_upload a (upload_success self)) self in
  let self := with_md5 (uploaded_md5 a) self in
  (resp a, log ResponseReceived self).

(** [def import_files(self, deletion=False, ...)] *)
Definition import_files (a : attempt) (delete : bool) (self : t)
  : result unit * t :=
  let self := mk (dataset_deposit_url self) (upload_success self)
                 (irods_md5 self) (pool self) delete (trace self) in
  match dataset_deposit_url self with
  | Some _ =>
      let self := update_metadata_status CREATE_DATASET PREPARE_COLLECTION self in
      let self := with_pool (Some (mkWorker (plan_paths a) ∅)) self in
      let self := log PoolStarted self in
      let self := _prepare_zip a self in
      let '(response, self) := _upload_zip_collection a self in
      match _validate_checksum self with
      | (Raise e, self) => (Raise e, self)
      | (Ok validated_checksum, self) =>
          match _validate_upload response self with
          | (Raise e, self) => (Raise e, self)
          | (Ok validated_upload, self) =>
              if validated_checksum && validated_upload then
                let self := if deletion self then log RuleDeletion self else self in
                (Ok tt, log SubmitForReview (log EmailConfirmation (log FinalReport self)))
              else (Ok tt, self)
          end
      end
  | None =>
      (Ok tt, update_metadata_status CREATE_DATASET DATASET_UNKNOWN self)
  end.
End Client.

(** The mapping the checksum job returns when it has run to its end. *)
Definition complete_chksums (rule_checksum : string -> string)
    (paths : list string) : gmap string string :=
  foldl (fun got p => <[p := rule_checksum p]> got) ∅ paths.

(** Whether the entry of [k] equals the fetched digest of [k]. *)
Definition agrees (us : gmap string entry) (chksums : gmap string string)
    (k : string) : bool :=
  match us !! k, chksums !! k with
  | Some v, Some c => entry_equals v c
  | _, _ => false
  end.

(** Kinds of events. *)
Definition is_query (e : event) : Prop :=
  match e with WorkerQueried _ => True | _ => False end.

Definition is_validation (e : event) : Prop :=
  match e with
  | StatusUpdate _ _ | Compared _ _ | RuleDeletion | FinalReport
  | EmailConfirmation | SubmitForReview => True
  | _ => False
  end.

End DataverseClient.

(** ** The length of the archive in closed form

    The sizes of the records [zipfile] writes for a plan, read off the
    writer above: per member a local header ([structFileHeader], the encoded
    name and the 20-byte ZIP64 extra that [force_zip64] adds), the data, and
    a 24-byte data descriptor; per member a central directory record whose
    ZIP64 extra holds the two sizes when the size is above the limit and the
    header offset when that is above the limit; the ZIP64 end record and
    locator when the member count, the directory offset or the directory
    size is above its limit; the end record.  [archive_length_correct] below
    proves that this is the number of bytes the generator emits. *)

Module ArchiveSize.
Import Zipfile IrodsUtils.

Definition name_size (p : string) : Z := piece_size (Encoded (until_null p)).

Definition stored_bytes (session : string -> remote_object) (f : data_object) : Z :=
  blen piece_size (map Payload (read_blocks (stored_size (session (path f))))).

Definition local_size (session : string -> remote_object) (f : data_object) : Z :=
  sizeFileHeader + name_size (path f) + 20 + stored_bytes session f + 24.

Definition member_info (session : string -> remote_object) (f : data_object)
    (offset : Z) : ZipInfo :=
  {| orig_filename := path f; filename := until_null (path f);
     extra := []; comment := [];
     flag_bits := Z.lor 0 _MASK_USE_DATA_DESCRIPTOR;
     compress_size := stored_bytes session f;
     file_size := stored_bytes session f;
     header_offset := offset |}.

Definition central_size (zinfo : ZipInfo) : Z :=
  sizeCentralDir + piece_size (Encoded (filename zinfo))
  + len (central_extra_data zinfo) + len (comment zinfo).

Fixpoint members_end (session : string -> remote_object)
    (data : list data_object) (offset : Z) : Z :=
  match data with
  | [] => offset
  | f :: rest => members_end session rest (offset + local_size session f)
  end.

Fixpoint members_infos (session : string -> remote_object)
    (data : list data_object) (offset : Z) : list ZipInfo :=
  match data with
  | [] => []
  | f :: rest =>
      member_info session f offset
      :: members_infos session rest (offset + local_size session f)
  end.

Definition directory_size (zinfos : list ZipInfo) : Z :=
  foldr (fun zinfo n => central_size zinfo + n) 0 zinfos.

Definition needs_zip64_end (count offset dirsize : Z) : bool :=
  bool_decide (count > ZIP_FILECOUNT_LIMIT)
  || bool_decide (offset > ZIP64_LIMIT)
  || bool_decide (dirsize > ZIP64_LIMIT).

Definition archive_length (session : string -> remote_object)
    (data : list data_object) : Z :=
  let start_dir := members_end session data 0 in
  let dirsize := directory_size (members_infos session data 0) in
  start_dir + dirsize
  + (if needs_zip64_end (Z.of_nat (length data)) start_dir dirsize
     then sizeEndCentDir64 + sizeEndCentDir64Locator else 0)
  + sizeEndCentDir.

(** What [ZipFile.close] writes: the directory and the end records. *)
Definition tail_size (count off dirsize : Z) : Z :=
  dirsize
  + (if needs_zip64_end count off dirsize
     then sizeEndCentDir64 + sizeEndCentDir64Locator else 0)
  + sizeEndCentDir.

(** The session of a remote source that holds, for every file of the plan,
    as many bytes as the plan declares. *)
Definition honours (session : string -> remote_object) (data : list data_object)
  : Prop :=
  Forall (fun f => stored_size (session (path f)) = size f) data.

(** A name that [ZipInfo] keeps as it is and that encodes to one byte per
    character. *)
Definition plain_name (p : string) : Prop :=
  all_ascii p = true /\ until_null p = p.

(** The plan a list of files stands for: each file under its size. *)
Definition plan_of (data : list data_object) : list (Z * data_object) :=
  map (fun f => (size f, f)) data.

(** An archive object over an open stream that holds [buf], and a pipeline
    state around it. *)
Definition zfile (buf : bytes) (off sd : Z) (fl : list ZipInfo) (wr : bool)
  : ZipFile :=
  mkZipFile (Tellable.mk (mkStream buf false) off) sd fl [] true wr.

Definition state (buf : bytes) (off sd : Z) (fl : list ZipInfo) (wr : bool)
    (us : gmap string entry) (em : list bytes) : pipeline :=
  mkPipeline (zfile buf off sd fl wr) us em.

Definition wf_piece (p : piece) : Prop := 0 <= piece_size p.

(** The [ZipInfo] of a member while it is being written, and its local
    header. *)
Definition opened_info (f : data_object) (off : Z) : ZipInfo :=
  {| orig_filename := path f; filename := until_null (path f);
     extra := []; comment := [];
     flag_bits := Z.lor 0 _MASK_USE_DATA_DESCRIPTOR;
     compress_size := 0; file_size := size f; header_offset := off |}.

Definition local_header (f : data_object) : bytes :=
  [Packed structFileHeader; Encoded (until_null (path f)); Packed "<HHQQ"].

End ArchiveSize.

(** ** Callers of the readers *)

(** A caller pulling from a [MultiPurposeReader] with the given chunk
    sizes, one after the other. *)
Fixpoint multi_purpose_reads {A : Type} (sizes : list Z)
    (self : MultiPurposeReader.t A) : list (list A) * MultiPurposeReader.t A :=
  match sizes with
  | [] => ([], self)
  | n :: sizes' =>
      let '(chunk, self1) := MultiPurposeReader.read n self in
      let '(chunks, self2) := multi_purpose_reads sizes' self1 in
      (chunk :: chunks, self2)
  end.

(** ** What the archive generator leaves in [upload_success]

    The end of the loop body of [zip_collection]: the entry of the file
    becomes [True] when it is the digest of the bytes read. *)

Definition mark_match (session : string -> IrodsUtils.remote_object)
    (us : gmap string IrodsUtils.entry) (f : IrodsUtils.data_object)
  : gmap string IrodsUtils.entry :=
  if decide (us !! IrodsUtils.path f
             = Some (IrodsUtils.Digest
                       (IrodsUtils.stored_sha256 (session (IrodsUtils.path f)))))
  then <[IrodsUtils.path f := IrodsUtils.PyTrue]> us
  else us.

(** The actions [import_files] takes once both validations have answered
    true: the deletion rule, the final report, the confirmation e-mail and
    the submission for review. *)
Definition is_final_action (e : DataverseClient.event) : Prop :=
  match e with
  | DataverseClient.RuleDeletion | DataverseClient.FinalReport
  | DataverseClient.EmailConfirmation | DataverseClient.SubmitForReview => True
  | _ => False
  end.

(** ** The tar block size

    [def calc_tar_block(nb)].  The function ends with an [elif] that has no
    [else]: when neither branch is taken Python returns [None]. *)

Definition calc_tar_block (nb : Z) : option Z :=
  if decide (nb < 512) then Some 512
  else
    let remainder := (nb `mod` 512)%Z in
    if decide (remainder = 0) then Some nb
    else if decide (remainder > 0) then Some (nb + 512)
    else None.

(** ** The metadata mapper

    [metadataMapper.py].  A value that [json] loads or dumps is a [json];
    a Python [dict] keeps its keys in insertion order, so its entries are
    an association list: setting a key it has replaces the value in place,
    setting a new key appends.  The template read from [template.json] is
    an argument. *)

Module MetadataMapper.

#[warnings="-register-all"] Inductive json : Type :=
| JNull
| JBool (b : bool)
| JNum (n : Z)
| JStr (s : string)
| JList (items : list json)
| JDict (entries : list (string * json)).

Abbreviation dict := (list (string * json)).

Inductive error : Type :=
| KeyError (key : string)
| IndexError
| TypeError
| AttributeError.

Inductive outcome (T : Type) : Type :=
| Done (v : T)
| Fails (e : error).
Arguments Done {T} v.
Arguments Fails {T} e.

#[global] Instance outcome_ret : MRet outcome := fun T v => Done v.
#[global] Instance outcome_bind : MBind outcome :=
  fun T U f m => match m with Done v => f v | Fails e => Fails e end.

(** [d.get(k)]: the value or [None]. *)
Fixpoint dict_get (d : dict) (k : string) : option json :=
  match d with
  | [] => None
  | (k', v) :: rest => if decide (k' = k) then Some v else dict_get rest k
  end.

(** [d[k] = v] *)
Fixpoint dict_set (d : dict) (k : string) (v : json) : dict :=
  match d with
  | [] => [(k, v)]
  | (k', v') :: rest =>
      if decide (k' = k) then (k', v) :: rest
      else (k', v') :: dict_set rest k v
  end.

(** [j[k]] for a string [k]: only a dict can be indexed by a string. *)
Definition getitem (j : json) (k : string) : outcome json :=
  match j with
  | JDict d =>
      match dict_get d k with
      | Some v => Done v
      | None => Fails (KeyError k)
      end
  | _ => Fails TypeError
  end.

(** [j[k] = v] for a string [k]. *)
Definition setitem (j : json) (k : string) (v : json) : outcome json :=
  match j with
  | JDict d => Done (JDict (dict_set d k v))
  | _ => Fails TypeError
  end.

(** [c.get(k)] as a value: [None] is [JNull]. *)
Definition get (d : dict) (k : string) : json :=
  default JNull (dict_get d k).

(** [s.split(sep)] for a separator of one character. *)
Fixpoint split (sep : ascii) (s : string) : list string :=
  match s with
  | EmptyString => [EmptyString]
  | String c rest =>
      if Ascii.eqb c sep then EmptyString :: split sep rest
      else match split sep rest with
           | seg :: segs => String c seg :: segs
           | [] => [String c EmptyString]
           end
  end.

(** [c in chars] *)
Fixpoint occurs (c : ascii) (chars : string) : bool :=
  match chars with
  | EmptyString => false
  | String c' rest => Ascii.eqb c' c || occurs c rest
  end.

(** [s.lstrip(chars)], [s.rstrip(chars)], [s.strip(chars)] *)
Fixpoint lstrip (chars s : string) : string :=
  match s with
  | EmptyString => EmptyString
  | String c rest => if occurs c chars then lstrip chars rest else s
  end.

Fixpoint rstrip (chars s : string) : string :=
  match s with
  | EmptyString => EmptyString
  | String c rest =>
      match rstrip chars rest with
      | EmptyString => if occurs c chars then EmptyString
                       else String c EmptyString
      | kept => String c kept
      end
  end.

Definition strip (chars s : string) : string := rstrip chars (lstrip chars s).

(** [l[i]] *)
Definition index {T : Type} (l : list T) (i : nat) : outcome T :=
  match l !! i with
  | Some x => Done x
  | None => Fails IndexError
  end.

(** [a + b] where one operand is known to be a [str]. *)
Definition add (a b : json) : outcome json :=
  match a, b with
  | JStr x, JStr y => Done (JStr (x +:+ y))
  | _, _ => Fails TypeError
  end.

(** What the mapper reads of [imetadata].  [contact] is a list of dicts;
    [tissue], [technology] and [organism] are a dict or [None]; [pid] and
    the members of [articles] are strings. *)
Record imetadata : Type := mkMetadata {
  pid : string;
  creator : json;
  description : json;
  date : json;
  title : json;
  contact : list dict;
  tissue : option dict;
  technology : option dict;
  organism : option dict;
  factors : list json;
  articles : list string
}.

(** A field of the citation block: the four keys in the order given. *)
Definition primitive (typeName : string) (value : json) : json :=
  JDict [("typeName", JStr typeName); ("multiple", JBool false);
         ("value", value); ("typeClass", JStr "primitive")].

(** The same keys in the order the later methods write them. *)
Definition entry (typeClass typeName : string) (value : json) : json :=
  JDict [("multiple", JBool false); ("typeClass", JStr typeClass);
         ("typeName", JStr typeName); ("value", value)].

(** [def update_pid(self, md, authority, identifier, hdl="hdl")] *)
Definition update_pid (md : json) (authority identifier hdl : string)
  : outcome json :=
  md ← setitem md "protocol" (JStr hdl);
  md ← setitem md "authority" (JStr authority);
  setitem md "identifier" (JStr identifier).

(** [def update_fields(self, new)]: the list is changed in place, so the
    dicts on the way to it see the change. *)
Definition update_fields (new : json) (md : json) : outcome json :=
  blocks ← getitem md "metadataBlocks";
  citation ← getitem blocks "citation";
  fields ← getitem citation "fields";
  match fields, citation, blocks, md with
  | JList l, JDict c, JDict b, JDict m =>
      Done (JDict (dict_set m "metadataBlocks"
             (JDict (dict_set b "citation"
                (JDict (dict_set c "fields" (JList (l ++ [new])))))))) 
  | JList _, _, _, _ => Fails TypeError
  | _, _, _, _ => Fails AttributeError
  end.

(** The end of the methods that take [up]: [if up: self.update_fields(new)]
    and [return new]; the result is [new] and [self.md]. *)
Definition finish (new : json) (up : bool) (md : json)
  : outcome (json * json) :=
  if up then md ← update_fields new md; Done (new, md)
  else Done (new, md).

(** [def add_author(self, author, up=True)], the second definition of that
    name, which replaces the first. *)
Definition add_author (author : json) (up : bool) (md : json)
  : outcome (json * json) :=
  finish (JDict [("typeName", JStr "author"); ("multiple", JBool true);
                 ("value", JList [JDict [("authorName",
                                          primitive "authorName" author)]]);
                 ("typeClass", JStr "compound")]) up md.

(** [def add_title(self, title, up=True)] *)
Definition add_title (title : json) (up : bool) (md : json)
  : outcome (json * json) :=
  finish (primitive "title" title) up md.

(** [def add_description(self, description, up=True)] *)
Definition add_description (description : json) (up : bool) (md : json)
  : outcome (json * json) :=
  finish (JDict [("typeName", JStr "dsDescription"); ("multiple", JBool true);
                 ("value", JList [JDict [("dsDescriptionValue",
                             primitive "dsDescriptionValue" description)]]);
                 ("typeClass", JStr "compound")]) up md.

(** [def add_subject(self, up=True)] *)
Definition add_subject (up : bool) (md : json) : outcome (json * json) :=
  finish (JDict [("typeName", JStr "subject"); ("multiple", JBool true);
                 ("value", JList [JStr "Medicine, Health and Life Sciences"]);
                 ("typeClass", JStr "controlledVocabulary")]) up md.

(** [def add_date(self, date, up=True)] *)
Definition add_date (date : json) (up : bool) (md : json)
  : outcome (json * json) :=
  finish (primitive "productionDate" date) up md.

(** [def add_contacts(self, contacts, up=True)] *)
Definition add_contacts (contacts : list json) (up : bool) (md : json)
  : outcome (json * json) :=
  finish (JDict [("typeName", JStr "datasetContact"); ("multiple", JBool true);
                 ("value", JList contacts);
                 ("typeClass", JStr "compound")]) up md.

(** [def add_contact_email(self, email)] *)
Definition add_contact_email (email : json) : json :=
  JDict [("datasetContactEmail", primitive "datasetContactEmail" email)].

(** [def add_contact(self, name, email, affiliation)] *)
Definition add_contact (name email affiliation : json) : json :=
  JDict [("datasetContactAffiliation",
          entry "primitive" "datasetContactAffiliation" affiliation);
         ("datasetContactEmail",
          entry "primitive" "datasetContactEmail" email);
         ("datasetContactName",
          entry "primitive" "datasetContactName" name)].

(** [def add_keywords(self, keywords, up=True)] *)
Definition add_keywords (keywords : list json) (up : bool) (md : json)
  : outcome (json * json) :=
  finish (JDict [("multiple", JBool true); ("typeClass", JStr "compound");
                 ("typeName", JStr "keyword");
                 ("value", JList keywords)]) up md.

(** [def add_keyword(self, value, vocabulary, uri)] *)
Definition add_keyword (value vocabulary uri : json) : json :=
  JDict [("keywordValue", entry "primitive" "keywordValue" value);
         ("keywordVocabulary",
          entry "primitive" "keywordVocabulary" vocabulary);
         ("keywordVocabularyURI",
          entry "primitive" "keywordVocabularyURI" uri)].

(** [def add_publications(self, publications, up=True)] *)
Definition add_publications (publications : list json) (up : bool) (md : json)
  : outcome (json * json) :=
  finish (JDict [("multiple", JBool true); ("typeClass", JStr "compound");
                 ("typeName", JStr "publication");
                 ("value", JList publications)]) up md.

(** [def add_publication(self, value, doi, url)] *)
Definition add_publication (value doi url : json) : json :=
  JDict [("publicationIDNumber",
          entry "primitive" "publicationIDNumber" value);
         ("publicationIDType",
          entry "controlledVocabulary" "publicationIDType" doi);
         ("publicationURL", entry "primitive" "publicationURL" url)].

(** The body of [for c in self.imetadata.contact]. *)
Definition contact_entry (c : dict) : outcome (option json) :=
  if decide (length c <> 0%nat) then
    first ← add (get c "firstName") (JStr " ");
    name ← add first (get c "lastName");
    Done (Some (add_contact name (get c "email") (get c "affiliation")))
  else Done None.

Fixpoint contact_entries (cs : list dict) (contacts : list json)
  : outcome (list json) :=
  match cs with
  | [] => Done contacts
  | c :: rest =>
      pub ← contact_entry c;
      contact_entries rest
        (match pub with Some p => contacts ++ [p] | None => contacts end)
  end.

(** [if self.imetadata.tissue: ... keywords.append(keyword)] and the two
    blocks after it. *)
Definition vocabulary_keyword (term : option dict) (keywords : list json)
  : list json :=
  match term with
  | Some (e :: es) =>
      let t := e :: es in
      keywords ++ [add_keyword (get t "name") (get t "vocabulary") (get t "uri")]
  | _ => keywords
  end.

(** The body of [for f in self.imetadata.articles]. *)
Definition publication_entry (f : string) : outcome json :=
  let info := split "/" f in
  a ← index info 3;
  b ← index info 4;
  host ← index info 2;
  Done (add_publication (JStr (a +:+ b)) (JStr (strip ".org" host)) (JStr f)).

Fixpoint publication_entries (fs : list string) (publications : list json)
  : outcome (list json) :=
  match fs with
  | [] => Done publications
  | f :: rest =>
      pub ← publication_entry f;
      publication_entries rest (publications ++ [pub])
  end.

(** [def read_metadata(self)], with the loaded template as an argument. *)
Definition read_metadata (template : json) (im : imetadata) : outcome json :=
  let dataset_json := template in
  md ← getitem dataset_json "datasetVersion";
  let pid := split "/" (pid im) in
  authority ← index pid 0;
  identifier ← index pid 1;
  md ← update_pid md authority identifier "hdl";
  '(_, md) ← add_author (creator im) true md;
  '(_, md) ← (match description im with
              | JNull => add_description (JStr "") true md
              | d => add_description d true md
              end);
  '(_, md) ← add_date (date im) true md;
  '(_, md) ← add_title (title im) true md;
  '(_, md) ← add_subject true md;
  let contacts := [add_contact_email (creator im)] in
  contacts ← contact_entries (contact im) contacts;
  '(_, md) ← add_contacts contacts true md;
  let keywords := vocabulary_keyword (tissue im) [] in
  let keywords := vocabulary_keyword (technology im) keywords in
  let keywords := vocabulary_keyword (organism im) keywords in
  let keywords :=
    keywords ++ ((fun f => add_keyword f (JStr "") (JStr "")) <$> factors im) in
  '(_, md) ← add_keywords keywords true md;
  publications ← publication_entries (articles im) [];
  '(_, md) ← add_publications publications true md;
  setitem dataset_json "datasetVersion" md.

(** The [typeName] of a field, and the fields of a dataset. *)
Definition type_name (field : json) : option json :=
  match field with JDict d => dict_get d "typeName" | _ => None end.

Definition md_fields (md : json) : outcome json :=
  blocks ← getitem md "metadataBlocks";
  citation ← getitem blocks "citation";
  getitem citation "fields".

Definition fields_of (dataset_json : json) : outcome json :=
  md ← getitem dataset_json "datasetVersion";
  md_fields md.

(** [sep.join(l)] *)
Fixpoint join (sep : ascii) (l : list string) : string :=
  match l with
  | [] => EmptyString
  | [s] => s
  | s :: rest => s +:+ String sep (join sep rest)
  end.

(** A contact that [read_metadata] can name: an empty dict, which is
    skipped, or one whose first and last names are strings. *)
Definition named (c : dict) : Prop :=
  c = [] \/ exists f l, get c "firstName" = JStr f /\ get c "lastName" = JStr l.

(** An article address with at least four slashes. *)
Definition addressed (f : string) : Prop :=
  (5 <= length (split "/" f))%nat.

End MetadataMapper.

(** * Properties *)

(** ** [bytes] and [UnseekableStream] *)

Section StreamFacts.
Context {A : Type} (size_of : A -> Z).

Lemma blen_app (b1 b2 : list A) :
  blen size_of (b1 ++ b2) = blen size_of b1 + blen size_of b2.
Proof. induction b1 as [|a b1 IH]; cbn; [|rewrite IH]; lia. Qed.

Lemma blen_nonneg (b : list A) :
  (forall a, 0 <= size_of a) -> 0 <= blen size_of b.
Proof.
  intros H. induction b as [|a b IH]; cbn; [lia|]. specialize (H a). lia.
Qed.

Lemma run_calls_app (cs1 cs2 : list (call A)) self :
  run_calls size_of (cs1 ++ cs2) self =
  let '(os1, self1) := run_calls size_of cs1 self in
  let '(os2, self2) := run_calls size_of cs2 self1 in
  (os1 ++ os2, self2).
Proof.
  revert self. induction cs1 as [|c cs1 IH]; intros self; cbn.
  - destruct (run_calls size_of cs2 self); reflexivity.
  - destruct (do_call size_of c self) as [o self1]. rewrite IH.
    destruct (run_calls size_of cs1 self1) as [os1 self2].
    destruct (run_calls size_of cs2 self2); reflexivity.
Qed.

(** On an open stream the calls leave the stream open, and the buffer holds
    what was written since the last [get]. *)
Lemma run_calls_state (cs : list (call A)) buf :
  (run_calls size_of cs (mkStream buf false)).2 =
  mkStream (pending buf cs) false.
Proof.
  revert buf. induction cs as [|c cs IH]; intros buf; cbn; [done|].
  destruct c as [b|]; cbn.
  - specialize (IH (buf ++ b)). destruct (run_calls size_of cs _); exact IH.
  - specialize (IH []). destruct (run_calls size_of cs _); exact IH.
Qed.

Lemma run_calls_conservation (cs : list (call A)) buf :
  delivered (run_calls size_of cs (mkStream buf false)).1
  ++ pending buf cs = buf ++ written cs.
Proof.
  revert buf. induction cs as [|c cs IH]; intros buf; cbn.
  - by rewrite app_nil_r.
  - destruct c as [b|]; cbn.
    + specialize (IH (buf ++ b)).
      destruct (run_calls size_of cs _) as [os self2]. cbn in *.
      unfold written in *. cbn. rewrite IH. by rewrite <- app_assoc.
    + specialize (IH []).
      destruct (run_calls size_of cs _) as [os self2]. cbn in *.
      unfold delivered in *. cbn. rewrite <- app_assoc. by rewrite IH.
Qed.

(** C10.  On an open stream [write] returns the length of its argument and
    appends it to the buffer; [get] returns the buffer and leaves it empty.
    For every sequence of writes and gets on a fresh stream: a write extends
    the outcomes by its length, a [get] by exactly what was written since the
    previous [get]; the chunks handed out so far followed by what is still
    buffered are the bytes written so far, so after a final [get] the chunks
    are exactly the bytes written, each once.  A write on a closed stream
    raises [ValueError]. *)
Theorem unseekable_stream_delivers_each_byte_once :
  (forall (b buf : list A),
      write size_of b (mkStream buf false)
      = Ok (blen size_of b, mkStream (buf ++ b) false))
  /\ (forall (buf : list A) c,
        get (mkStream buf c) = (buf, mkStream [] c))
  /\ (forall (cs : list (call A)) b,
        (run_calls size_of (cs ++ [CallWrite b]) stream_init).1
        = (run_calls size_of cs stream_init).1 ++ [Wrote (blen size_of b)])
  /\ (forall (cs : list (call A)),
        run_calls size_of (cs ++ [CallGet]) stream_init
        = ((run_calls size_of cs stream_init).1 ++ [Got (pending [] cs)],
           mkStream [] false))
  /\ (forall (cs : list (call A)),
        delivered (run_calls size_of cs stream_init).1
        ++ _buffer (run_calls size_of cs stream_init).2 = written cs)
  /\ (forall (cs : list (call A)),
        delivered (run_calls size_of (cs ++ [CallGet]) stream_init).1
        = written cs)
  /\ (forall (b buf : list A) c,
        write size_of b (close (mkStream buf c))
        = Raise (ValueError "Stream was closed!")).
Proof.
  assert (Hget : forall cs : list (call A),
             run_calls size_of (cs ++ [CallGet]) stream_init
             = ((run_calls size_of cs stream_init).1 ++ [Got (pending [] cs)],
                mkStream [] false)).
  { intros cs. rewrite run_calls_app. unfold stream_init.
    pose proof (run_calls_state cs []) as Hst.
    destruct (run_calls size_of cs (mkStream [] false)) as [os st].
    cbn in Hst. subst st. reflexivity. }
  repeat split.
  - intros cs b. rewrite run_calls_app. unfold stream_init.
    pose proof (run_calls_state cs []) as Hst.
    destruct (run_calls size_of cs (mkStream [] false)) as [os st].
    cbn in Hst. subst st. reflexivity.
  - exact Hget.
  - intros cs. unfold stream_init. rewrite run_calls_state. cbn.
    apply (run_calls_conservation cs []).
  - intros cs. rewrite Hget. cbn.
    pose proof (run_calls_conservation cs []) as Hc. cbn in Hc.
    unfold delivered in *. rewrite omap_app, concat_app. cbn.
    rewrite app_nil_r. exact Hc.
Qed.

End StreamFacts.

(** ** The pull reader *)

Section ReaderFacts.
Context {A : Type}.
Implicit Types (buf : CustomBytesIO A) (it : list (list A)).

Local Abbreviation nonempty := (fun c : list A => c <> []).

Lemma load_loop_preserves it : forall amt buf,
  consumed (IteratorAsBinaryFile.load_loop amt it buf).2 = consumed buf /\
  unread (IteratorAsBinaryFile.load_loop amt it buf).2
    ++ concat (IteratorAsBinaryFile.load_loop amt it buf).1
  = unread buf ++ concat it.
Proof.
  induction it as [|c it IH]; intros amt buf; cbn.
  - destruct (decide (amt > 0)); cbn; rewrite ?app_nil_r; done.
  - destruct (decide (amt > 0)); cbn; [|done].
    destruct c as [|a c]; cbn.
    + rewrite app_nil_r. done.
    + destruct (IH (amt - zlen (a :: c)) (mkBytesIO (consumed buf) (unread buf ++ a :: c)))
        as [H1 H2]. cbn in *. split; [exact H1|].
      rewrite H2. by rewrite <- app_assoc.
Qed.

Lemma load_loop_enough it : forall amt buf,
  Forall nonempty it ->
  (IteratorAsBinaryFile.load_loop amt it buf).1 = [] \/
  zlen (unread (IteratorAsBinaryFile.load_loop amt it buf).2)
  >= zlen (unread buf) + amt.
Proof.
  induction it as [|c it IH]; intros amt buf Hne; cbn.
  - destruct (decide (amt > 0)); cbn; [by left|]. right. lia.
  - destruct (decide (amt > 0)); cbn; [|right; lia].
    inversion Hne as [|? ? Hc Hit]; subst.
    destruct c as [|a c]; [done|].
    destruct (IH (amt - zlen (a :: c))
                 (mkBytesIO (consumed buf) (unread buf ++ a :: c)) Hit)
      as [H|H]; [by left|right].
    cbn in H. unfold zlen in *. rewrite length_app in H. cbn in *. lia.
Qed.

Lemma load_loop_nonempty it : forall amt buf,
  Forall nonempty it ->
  Forall nonempty (IteratorAsBinaryFile.load_loop amt it buf).1.
Proof.
  induction it as [|c it IH]; intros amt buf Hne; cbn.
  - destruct (decide (amt > 0)); cbn; constructor.
  - destruct (decide (amt > 0)); cbn; [|done].
    inversion Hne as [|? ? Hc Hit]; subst.
    destruct c as [|a c]; [done|]. by apply IH.
Qed.

Lemma super_len_le buf : super_len (smart_truncate buf) <= zlen (unread buf).
Proof.
  unfold smart_truncate, super_len, bytesio_len, tell, zlen.
  destruct (decide _); cbn; lia.
Qed.

Lemma smart_truncate_unread buf : unread (smart_truncate buf) = unread buf.
Proof. unfold smart_truncate. by destruct (decide _). Qed.

(** A pull of [N >= 0] bytes from a reader whose chunks are not empty hands
    out the first [N] bytes of what remains (all of it when there is less),
    feeds exactly those to the digest, and keeps [len] unless nothing came. *)
Lemma read_spec (r : IteratorAsBinaryFile.t A) (N : Z) :
  0 <= N ->
  Forall nonempty (IteratorAsBinaryFile.iterator r) ->
  let s := (IteratorAsBinaryFile.read N r).1 in
  let r' := (IteratorAsBinaryFile.read N r).2 in
  s = take (Z.to_nat N) (IteratorAsBinaryFile.remaining r) /\
  IteratorAsBinaryFile.remaining r'
    = drop (Z.to_nat N) (IteratorAsBinaryFile.remaining r) /\
  fed (IteratorAsBinaryFile.md5 r') = fed (IteratorAsBinaryFile.md5 r) ++ s /\
  IteratorAsBinaryFile.len r'
    = (match s with [] => 0 | _ :: _ => IteratorAsBinaryFile.len r end) /\
  IteratorAsBinaryFile.size r' = IteratorAsBinaryFile.size r /\
  Forall nonempty (IteratorAsBinaryFile.iterator r').
Proof.
  intros HN Hne. unfold IteratorAsBinaryFile.read.
  destruct (decide (N = -1)) as [|_]; [lia|].
  unfold IteratorAsBinaryFile._load_bytes, IteratorAsBinaryFile.remaining.
  set (buf := smart_truncate (IteratorAsBinaryFile._buffer r)).
  set (amt := N - super_len buf).
  pose proof (load_loop_preserves (IteratorAsBinaryFile.iterator r) amt buf) as [_ Hpres].
  pose proof (load_loop_enough (IteratorAsBinaryFile.iterator r) amt buf Hne) as Hen.
  pose proof (load_loop_nonempty (IteratorAsBinaryFile.iterator r) amt buf Hne) as Hne'.
  destruct (IteratorAsBinaryFile.load_loop amt (IteratorAsBinaryFile.iterator r) buf)
    as [it' buf'] eqn:Hl. cbn in *.
  unfold bytesio_read. destruct (decide (N < 0)) as [|_]; [lia|]. cbn.
  assert (Hub : unread buf = unread (IteratorAsBinaryFile._buffer r))
    by apply smart_truncate_unread.
  rewrite Hub in Hpres. rewrite <- Hpres.
  assert (Hcase : it' = [] \/ (Z.to_nat N <= length (unread buf'))%nat).
  { destruct Hen as [->|Hen]; [by left|right].
    pose proof (super_len_le (IteratorAsBinaryFile._buffer r)) as Hs.
    fold buf in Hs. unfold amt, zlen in *. rewrite Hub in Hen. lia. }
  assert (Htake : take (Z.to_nat N) (unread buf')
                  = take (Z.to_nat N) (unread buf' ++ concat it')).
  { destruct Hcase as [->|Hle]; [by rewrite app_nil_r|].
    by rewrite take_app_le. }
  assert (Hdrop : drop (Z.to_nat N) (unread buf') ++ concat it'
                  = drop (Z.to_nat N) (unread buf' ++ concat it')).
  { destruct Hcase as [->|Hle]; [by rewrite !app_nil_r|].
    by rewrite drop_app_le. }
  repeat split; try done.
Qed.

(** [read(-1)] hands out everything the iterator has left and returns
    before the digest and [len] are touched; buffered bytes stay behind. *)
Lemma read_all_spec (r : IteratorAsBinaryFile.t A) :
  (IteratorAsBinaryFile.read (-1) r).1 = concat (IteratorAsBinaryFile.iterator r) /\
  IteratorAsBinaryFile.md5 (IteratorAsBinaryFile.read (-1) r).2
    = IteratorAsBinaryFile.md5 r /\
  IteratorAsBinaryFile.len (IteratorAsBinaryFile.read (-1) r).2
    = IteratorAsBinaryFile.len r /\
  IteratorAsBinaryFile._buffer (IteratorAsBinaryFile.read (-1) r).2
    = IteratorAsBinaryFile._buffer r.
Proof. unfold IteratorAsBinaryFile.read. cbn. done. Qed.

(** A run of pulls with sizes [>= 0] hands out a prefix of what remains,
    as long as the sum of the sizes, and the digest has been fed exactly
    that prefix, whatever the individual sizes are. *)
Lemma reads_spec (sizes : list Z) : forall (r : IteratorAsBinaryFile.t A),
  Forall (fun n => 0 <= n) sizes ->
  Forall nonempty (IteratorAsBinaryFile.iterator r) ->
  let out := (IteratorAsBinaryFile.reads sizes r).1 in
  let r' := (IteratorAsBinaryFile.reads sizes r).2 in
  concat out = take (Z.to_nat (foldr Z.add 0 sizes))
                    (IteratorAsBinaryFile.remaining r) /\
  IteratorAsBinaryFile.remaining r'
    = drop (Z.to_nat (foldr Z.add 0 sizes)) (IteratorAsBinaryFile.remaining r) /\
  fed (IteratorAsBinaryFile.md5 r')
    = fed (IteratorAsBinaryFile.md5 r) ++ concat out.
Proof.
  induction sizes as [|n sizes IH]; intros r Hs Hne; cbn.
  - rewrite take_0, drop_0, app_nil_r. done.
  - inversion Hs as [|? ? Hn Hs']; subst.
    destruct (read_spec r n Hn Hne) as (Hs1 & Hrem & Hfed & _ & _ & Hne1).
    destruct (IteratorAsBinaryFile.read n r) as [s r1]. cbn in *.
    specialize (IH r1 Hs' Hne1).
    destruct (IteratorAsBinaryFile.reads sizes r1) as [ss r2]. cbn in *.
    destruct IH as (IH1 & IH2 & IH3).
    assert (Hsum : 0 <= foldr Z.add 0 sizes).
    { clear -Hs'. induction Hs'; cbn; lia. }
    rewrite Z2Nat.inj_add by lia.
    repeat split.
    + rewrite IH1, Hrem, Hs1. apply take_take_drop.
    + rewrite IH2, Hrem. apply drop_drop.
    + rewrite IH3, Hfed. by rewrite <- app_assoc.
Qed.

(** Read-granularity invariance for non-negative request sizes: two callers
    that both ask for at least as many bytes as the stream holds end with
    the digest fed the whole stream, in order, once. *)
Lemma digest_invariant_for_nonnegative_sizes (sizes1 sizes2 : list Z)
    (r : IteratorAsBinaryFile.t A) :
  Forall (fun n => 0 <= n) sizes1 -> Forall (fun n => 0 <= n) sizes2 ->
  Forall nonempty (IteratorAsBinaryFile.iterator r) ->
  zlen (IteratorAsBinaryFile.remaining r) <= foldr Z.add 0 sizes1 ->
  zlen (IteratorAsBinaryFile.remaining r) <= foldr Z.add 0 sizes2 ->
  fed (IteratorAsBinaryFile.md5 (IteratorAsBinaryFile.reads sizes1 r).2)
    = fed (IteratorAsBinaryFile.md5 r) ++ IteratorAsBinaryFile.remaining r /\
  fed (IteratorAsBinaryFile.md5 (IteratorAsBinaryFile.reads sizes2 r).2)
    = fed (IteratorAsBinaryFile.md5 (IteratorAsBinaryFile.reads sizes1 r).2).
Proof.
  intros H1 H2 Hne Hl1 Hl2.
  destruct (reads_spec sizes1 r H1 Hne) as (Ha & _ & Hb).
  destruct (reads_spec sizes2 r H2 Hne) as (Hc & _ & Hd).
  cbn in *. unfold zlen in *.
  rewrite take_ge in Ha by lia. rewrite take_ge in Hc by lia.
  rewrite Hb, Hd, Ha, Hc. done.
Qed.

(** C3, as amended.  For a request of [N >= 1] bytes on a reader whose
    chunks are not empty, [read] returns at most [N] bytes, and none exactly
    when neither the buffer nor the iterator has a byte left; [len] is left
    as it was by a read that returns bytes and set to zero by a read that
    returns none; the expected size is not changed. *)
Theorem pull_reader_contract (r : IteratorAsBinaryFile.t A) (N : Z) :
  1 <= N ->
  Forall nonempty (IteratorAsBinaryFile.iterator r) ->
  let s := (IteratorAsBinaryFile.read N r).1 in
  let r' := (IteratorAsBinaryFile.read N r).2 in
  zlen s <= N /\
  (s = [] <-> IteratorAsBinaryFile.remaining r = []) /\
  (s <> [] -> 1 <= zlen s /\ IteratorAsBinaryFile.len r' = IteratorAsBinaryFile.len r) /\
  (s = [] -> IteratorAsBinaryFile.len r' = 0) /\
  IteratorAsBinaryFile.size r' = IteratorAsBinaryFile.size r.
Proof.
  intros HN Hne.
  destruct (read_spec r N ltac:(lia) Hne) as (Hs & _ & _ & Hlen & Hsize & _).
  cbn in *. revert Hs Hlen Hsize.
  generalize (IteratorAsBinaryFile.read N r).1 as s.
  generalize (IteratorAsBinaryFile.read N r).2 as r'.
  intros r' s Hs Hlen Hsize. repeat split.
  - subst s. unfold zlen. rewrite length_take. lia.
  - intros ->. symmetry in Hs. apply take_nil_inv in Hs as [Hz| ->]; [lia|done].
  - intros Hr. rewrite Hr in Hs. by rewrite take_nil in Hs.
  - destruct s; [done|]. unfold zlen. cbn. lia.
  - destruct s; [done|]. exact Hlen.
  - intros ->. exact Hlen.
  - exact Hsize.
Qed.

End ReaderFacts.

(** The reader is built with the size it is given, and refuses a negative
    one. *)
Lemma reader_init_len {A} (size : Z) (it : list (list A)) (md5 : hash_object A) :
  IteratorAsBinaryFile.init size it md5 =
  if decide (size < 0)
  then Raise (ValueError "The size of the upload must be a positive integer")
  else Ok (IteratorAsBinaryFile.mk size md5 size it "utf-8" bytesio_new).
Proof. reflexivity. Qed.

Lemma pull_reader_contract_witness :
  let r := IteratorAsBinaryFile.mk 4 hash_new 4
             [[Byte.x61; Byte.x62; Byte.x63; Byte.x64]] "utf-8" bytesio_new in
  zlen (IteratorAsBinaryFile.read 2 r).1 <= 2 /\
  IteratorAsBinaryFile.len (IteratorAsBinaryFile.read 2 r).2 = 4.
Proof.
  intros r.
  assert (Hne : Forall (fun c : list Byte.byte => c <> [])
                       (IteratorAsBinaryFile.iterator r)).
  { repeat constructor. discriminate. }
  destruct (pull_reader_contract r 2 ltac:(lia) Hne) as (H1 & _ & H3 & _).
  split; [exact H1|]. apply H3. discriminate.
Defined.

(** C3, as stated, fails: a read that returns two bytes leaves [len] at the
    declared size instead of taking the two bytes off. *)
Lemma len_is_not_decremented :
  let r := IteratorAsBinaryFile.mk 4 hash_new 4
             [[Byte.x61; Byte.x62; Byte.x63; Byte.x64]] "utf-8" bytesio_new in
  (IteratorAsBinaryFile.read 2 r).1 = [Byte.x61; Byte.x62] /\
  IteratorAsBinaryFile.len r = 4 /\
  IteratorAsBinaryFile.len (IteratorAsBinaryFile.read 2 r).2 = 4 /\
  IteratorAsBinaryFile.len (IteratorAsBinaryFile.read 2 r).2
  <> IteratorAsBinaryFile.len r - zlen (IteratorAsBinaryFile.read 2 r).1.
Proof. vm_compute. repeat split; discriminate. Qed.

(** The sibling reader [MultiPurposeReader] does subtract what it returns
    from [len], and it may return more than it was asked for: a request of
    one byte is served with a read of [1024 * DEFAULT_BUFFER_SIZE] bytes. *)
Lemma multi_purpose_reader_decrements :
  let r := MultiPurposeReader.mk 3 [Byte.x61; Byte.x62; Byte.x63]
             hash_new hash_new in
  (MultiPurposeReader.read 1 r).1 = [Byte.x61; Byte.x62; Byte.x63]
  /\ MultiPurposeReader.len (MultiPurposeReader.read 1 r).2 = 0
  /\ fed (MultiPurposeReader.md5 (MultiPurposeReader.read 1 r).2)
     = [Byte.x61; Byte.x62; Byte.x63].
Proof. vm_compute. repeat split. Qed.

Lemma multi_purpose_reader_len {A} (chunk_size : Z) (r : MultiPurposeReader.t A) :
  (MultiPurposeReader.read chunk_size r).1 <> [] ->
  MultiPurposeReader.len (MultiPurposeReader.read chunk_size r).2
  = MultiPurposeReader.len r - zlen (MultiPurposeReader.read chunk_size r).1.
Proof.
  unfold MultiPurposeReader.read.
  destruct (decide _);
    destruct (MultiPurposeReader.raw_read _ _) as [chunk raw'];
    cbn; destruct chunk; done.
Qed.

(** C2 at the failing input.  On the chunk sequence [ab], [cd] a caller that
    pulls with [read(-1)] receives all four bytes while the digest has been
    fed none of them; a caller that pulls the same stream two bytes at a
    time ends with the digest fed [abcd]. *)
Theorem read_all_leaves_digest_unfed :
  let r := IteratorAsBinaryFile.mk 4 hash_new 4
             [[Byte.x61; Byte.x62]; [Byte.x63; Byte.x64]] "utf-8" bytesio_new in
  concat (IteratorAsBinaryFile.reads [-1] r).1
    = [Byte.x61; Byte.x62; Byte.x63; Byte.x64] /\
  fed (IteratorAsBinaryFile.md5 (IteratorAsBinaryFile.reads [-1] r).2) = [] /\
  concat (IteratorAsBinaryFile.reads [2; 2; 2] r).1
    = [Byte.x61; Byte.x62; Byte.x63; Byte.x64] /\
  fed (IteratorAsBinaryFile.md5 (IteratorAsBinaryFile.reads [2; 2; 2] r).2)
    = [Byte.x61; Byte.x62; Byte.x63; Byte.x64].
Proof. vm_compute. repeat split. Qed.

(** ** The archive writer *)

Section WriterFacts.
Import Zipfile IrodsUtils ArchiveSize.

Variable session : string -> remote_object.

Lemma len_nonneg (b : bytes) : Forall wf_piece b -> 0 <= len b.
Proof. induction 1 as [|p b Hp _ IH]; cbn; unfold wf_piece in *; lia. Qed.

Lemma emitted_length_snoc (em : list bytes) (b : bytes) :
  emitted_length (em ++ [b]) = emitted_length em + len b.
Proof.
  unfold emitted_length. rewrite concat_app, blen_app. cbn.
  rewrite app_nil_r. done.
Qed.

Lemma read_blocks_positive (n : Z) : Forall (fun c => 0 < c) (read_blocks n).
Proof.
  unfold read_blocks. destruct (decide (n <= 0)); [constructor|].
  apply Forall_app. split.
  - apply Forall_forall. intros c Hc. apply elem_of_replicate in Hc as [-> _].
    vm_compute. done.
  - destruct (decide _); [constructor|]. repeat constructor.
    assert (0 <= n mod BLOCK_SIZE) by (apply Z.mod_pos_bound; vm_compute; done).
    lia.
Qed.

Lemma read_blocks_total (n : Z) :
  blen piece_size (map Payload (read_blocks n)) = Z.max 0 n.
Proof.
  unfold read_blocks. destruct (decide (n <= 0)); [cbn; lia|].
  rewrite map_app, blen_app.
  assert (Hrep : forall k, blen piece_size (map Payload (replicate k BLOCK_SIZE))
                           = Z.of_nat k * BLOCK_SIZE).
  { induction k as [|k IH]; [done|]. cbn [replicate map blen piece_size].
    rewrite IH. lia. }
  rewrite Hrep. rewrite Z2Nat.id by (apply Z.div_pos; [lia|vm_compute; done]).
  assert (Hb : 0 < BLOCK_SIZE) by (vm_compute; done).
  pose proof (Z.div_mod n BLOCK_SIZE ltac:(lia)) as Hdm.
  destruct (decide (n mod BLOCK_SIZE = 0)); cbn; lia.
Qed.

Lemma step_state buf off sd fl wr us em :
  archive_generator_step (state buf off sd fl wr us em)
  = state [] off sd fl wr us (if decide (len buf > 0) then em ++ [buf] else em).
Proof.
  unfold archive_generator_step, state. cbn. destruct (decide _); reflexivity.
Qed.

Ltac rsimpl := cbn [mbind result_bind mret result_ret].

Ltac zproj :=
  repeat match goal with
  | |- context [filelist (zfile ?b ?o ?s ?l ?w)] =>
      change (filelist (zfile b o s l w)) with l
  | |- context [start_dir (zfile ?b ?o ?s ?l ?w)] =>
      change (start_dir (zfile b o s l w)) with s
  | |- context [Tellable.tell (fp (zfile ?b ?o ?s ?l ?w))] =>
      change (Tellable.tell (fp (zfile b o s l w))) with o
  | |- context [_allowZip64 (zfile ?b ?o ?s ?l ?w)] =>
      change (_allowZip64 (zfile b o s l w)) with true
  | |- context [_writing (zfile ?b ?o ?s ?l ?w)] =>
      change (_writing (zfile b o s l w)) with w
  | |- context [_comment (zfile ?b ?o ?s ?l ?w)] =>
      change (_comment (zfile b o s l w)) with (@nil piece)
  end.

Lemma encoded_wf (s : string) : wf_piece (Encoded s).
Proof.
  unfold wf_piece. cbn. destruct (all_ascii s); [unfold py_len; lia|].
  induction s as [|c s IH]; cbn; [lia|]. destruct (is_ascii c); lia.
Qed.

Lemma central_extra_data_wf (zinfo : ZipInfo) :
  extra zinfo = [] -> Forall wf_piece (central_extra_data zinfo).
Proof.
  intros He. unfold central_extra_data, central_extra. rewrite He.
  destruct (decide _), (decide _); cbn; repeat constructor;
    unfold wf_piece; vm_compute; discriminate.
Qed.

Lemma fp_write_zfile data buf off sd fl wr :
  fp_write data (zfile buf off sd fl wr)
  = Ok (zfile (buf ++ data) (off + len data) sd fl wr).
Proof. reflexivity. Qed.

Lemma write_central_zfile zinfo buf off sd fl wr :
  extra zinfo = [] -> comment zinfo = [] -> Forall wf_piece buf ->
  exists buf',
    write_central zinfo (zfile buf off sd fl wr)
    = Ok (zfile buf' (off + central_size zinfo) sd fl wr)
    /\ len buf' = len buf + central_size zinfo
    /\ Forall wf_piece buf'.
Proof.
  intros He Hc Hwf. unfold write_central.
  assert (Hn : (_encodeFilenameFlags zinfo).1 = [Encoded (filename zinfo)]).
  { unfold _encodeFilenameFlags. by destruct (all_ascii _). }
  destruct (_encodeFilenameFlags zinfo) as [fn fl']. cbn in Hn. subst fn.
  rewrite fp_write_zfile. rsimpl.
  rewrite fp_write_zfile. rsimpl.
  rewrite fp_write_zfile. rsimpl.
  rewrite fp_write_zfile.
  eexists. split; [|split].
  - f_equal. unfold zfile. f_equal. f_equal. unfold central_size, sizeCentralDir.
    rewrite Hc. cbn [blen piece_size]. lia.
  - rewrite !blen_app. unfold central_size, sizeCentralDir. rewrite Hc.
    cbn [blen piece_size]. lia.
  - rewrite Hc. repeat (apply Forall_app; split); try done.
    + repeat constructor. unfold wf_piece. vm_compute. discriminate.
    + repeat constructor. apply encoded_wf.
    + by apply central_extra_data_wf.
Qed.

Lemma write_centrals_zfile zinfos : forall buf off sd fl wr,
  Forall (fun zinfo => extra zinfo = [] /\ comment zinfo = []) zinfos ->
  Forall wf_piece buf ->
  exists buf',
    write_centrals zinfos (zfile buf off sd fl wr)
    = Ok (zfile buf' (off + directory_size zinfos) sd fl wr)
    /\ len buf' = len buf + directory_size zinfos
    /\ Forall wf_piece buf'.
Proof.
  induction zinfos as [|zinfo zinfos IH]; intros buf off sd fl wr Hz Hwf.
  - exists buf. cbn. rewrite !Z.add_0_r. done.
  - inversion Hz as [|? ? [He Hc] Hz']; subst.
    destruct (write_central_zfile zinfo buf off sd fl wr He Hc Hwf)
      as (buf1 & Hw & Hl & Hwf1).
    destruct (IH buf1 (off + central_size zinfo) sd fl wr Hz' Hwf1)
      as (buf2 & Hw2 & Hl2 & Hwf2).
    exists buf2. cbn [write_centrals]. rewrite Hw. rsimpl.
    rewrite Hw2. cbn [directory_size foldr]. fold (directory_size zinfos).
    split; [|split; [lia|done]].
    f_equal. unfold zfile. do 2 f_equal. lia.
Qed.

Local Abbreviation chunky := (Forall (fun c : bytes => len c > 0)).

Lemma with_zip_state b o s f w b0 o0 s0 f0 w0 us em :
  with_zip (zfile b o s f w) (state b0 o0 s0 f0 w0 us em) = state b o s f w us em.
Proof. reflexivity. Qed.

Lemma step_accounting buf em :
  Forall wf_piece buf ->
  emitted_length (if decide (len buf > 0) then em ++ [buf] else em)
  = emitted_length em + len buf.
Proof.
  intros Hwf. pose proof (len_nonneg buf Hwf).
  destruct (decide _); [apply emitted_length_snoc|lia].
Qed.

Lemma step_chunky buf em :
  chunky em -> chunky (if decide (len buf > 0) then em ++ [buf] else em).
Proof.
  intros H. destruct (decide _); [|done].
  apply Forall_app. split; [done|]. by repeat constructor.
Qed.

Lemma write_chunks_state chunks : forall dest buf off sd fl us em,
  Forall (fun c => 0 < c) chunks -> Forall wf_piece buf ->
  exists buf' em',
    write_chunks archive_generator_step chunks dest (state buf off sd fl true us em)
    = Ok (mkZipWriteFile (_zinfo dest) (_zip64 dest)
            (_file_size dest + blen piece_size (map Payload chunks))
            (_compress_size dest),
          state buf' (off + blen piece_size (map Payload chunks)) sd fl true us em')
    /\ emitted_length em' + len buf'
       = emitted_length em + len buf + blen piece_size (map Payload chunks)
    /\ Forall wf_piece buf'
    /\ (chunky em -> chunky em').
Proof.
  induction chunks as [|c chunks IH]; intros dest buf off sd fl us em Hc Hwf.
  - exists buf, em. cbn. rewrite !Z.add_0_r. destruct dest. done.
  - inversion Hc as [|? ? Hc0 Hc']; subst.
    cbn [write_chunks]. unfold member_write.
    change (zip_buffer (state buf off sd fl true us em))
      with (zfile buf off sd fl true).
    rewrite fp_write_zfile. rsimpl.
    rewrite with_zip_state, step_state.
    assert (Hwf1 : Forall wf_piece (buf ++ [Payload c])).
    { apply Forall_app. split; [done|]. repeat constructor.
      unfold wf_piece. cbn. lia. }
    edestruct (IH (mkZipWriteFile (_zinfo dest) (_zip64 dest)
                     (_file_size dest + len [Payload c]) (_compress_size dest))
                  [] (off + len [Payload c]) sd fl us) as (buf' & em' & Hw & Hacc & Hwf' & Hch);
      [exact Hc'|constructor|].
    exists buf', em'. rewrite Hw. cbn [_zinfo _zip64 _file_size _compress_size].
    split; [|split; [|split]].
    + cbn [map blen piece_size]. do 2 f_equal; [f_equal; lia|].
      unfold state, zfile. do 3 f_equal. lia.
    + rewrite Hacc, step_accounting by done. rewrite blen_app.
      cbn [map blen piece_size]. lia.
    + done.
    + intros H. apply Hch. by apply step_chunky.
Qed.

Lemma open_to_write_zfile f buf off sd fl :
  _open_to_write
    {| orig_filename := orig_filename (ZipInfo_init (path f));
       filename := filename (ZipInfo_init (path f));
       extra := extra (ZipInfo_init (path f));
       comment := comment (ZipInfo_init (path f));
       flag_bits := flag_bits (ZipInfo_init (path f));
       compress_size := compress_size (ZipInfo_init (path f));
       file_size := size f;
       header_offset := header_offset (ZipInfo_init (path f)) |}
    true (zfile buf off sd fl false)
  = Ok (mkZipWriteFile (opened_info f off) true 0 0,
        zfile (buf ++ local_header f) (off + len (local_header f)) sd fl true).
Proof.
  unfold _open_to_write. cbn [_allowZip64 _writing zfile negb andb orb].
  cbn [ZipInfo_init orig_filename filename extra comment flag_bits
       compress_size file_size header_offset fp Tellable.tell Tellable.offset].
  unfold _writecheck. cbn [_allowZip64]. rsimpl.
  unfold FileHeader, _encodeFilenameFlags.
  cbn [flag_bits filename extra compress_size file_size].
  replace (has_flag (Z.lor 0 _MASK_USE_DATA_DESCRIPTOR) _MASK_USE_DATA_DESCRIPTOR)
    with true by reflexivity.
  destruct (decide (0 > ZIP64_LIMIT \/ 0 > ZIP64_LIMIT)) as [[H|H]|_];
    [vm_compute in H; discriminate..|].
  destruct (all_ascii (until_null (path f))); rsimpl;
    rewrite fp_write_zfile; rsimpl; reflexivity.
Qed.

Lemma member_close_zfile f off0 fs cs buf off sd fl :
  member_close (mkZipWriteFile (opened_info f off0) true fs cs)
               (zfile buf off sd fl true)
  = Ok (zfile (buf ++ [Packed "<LLQQ"]) (off + len [Packed "<LLQQ"])
              (off + len [Packed "<LLQQ"])
              (fl ++ [ {| orig_filename := path f; filename := until_null (path f);
                          extra := []; comment := [];
                          flag_bits := Z.lor 0 _MASK_USE_DATA_DESCRIPTOR;
                          compress_size := fs; file_size := fs;
                          header_offset := off0 |} ])
              false).
Proof. reflexivity. Qed.

Lemma local_header_wf f : Forall wf_piece (local_header f).
Proof.
  repeat constructor; try apply encoded_wf; unfold wf_piece; vm_compute; discriminate.
Qed.

Lemma local_size_eq f :
  local_size session f
  = len (local_header f) + stored_bytes session f + len [Packed "<LLQQ"].
Proof.
  unfold local_size, local_header, name_size, sizeFileHeader.
  cbn [blen]. change (piece_size (Packed "<HHQQ")) with 20.
  change (piece_size (Packed "<LLQQ")) with 24.
  change (piece_size (Packed structFileHeader)) with (calcsize structFileHeader).
  lia.
Qed.

Lemma zip_member_state f buf off sd fl us em :
  Forall wf_piece buf ->
  exists buf' em' us',
    zip_member archive_generator_step session f (state buf off sd fl false us em)
    = Ok (state buf' (off + local_size session f) (off + local_size session f)
                (fl ++ [member_info session f off]) false us' em')
    /\ emitted_length em' + len buf'
       = emitted_length em + len buf + local_size session f
    /\ Forall wf_piece buf'
    /\ (chunky em -> chunky em').
Proof.
  intros Hwf. unfold zip_member.
  change (zip_buffer (state buf off sd fl false us em))
    with (zfile buf off sd fl false).
  rewrite open_to_write_zfile. rsimpl. rewrite with_zip_state.
  assert (Hwf1 : Forall wf_piece (buf ++ local_header f)).
  { apply Forall_app. split; [done|apply local_header_wf]. }
  destruct (write_chunks_state (read_blocks (stored_size (session (path f))))
              (mkZipWriteFile (opened_info f off) true 0 0)
              (buf ++ local_header f) (off + len (local_header f)) sd fl us em
              (read_blocks_positive _) Hwf1)
    as (buf1 & em1 & Hw & Hacc & Hwf2 & Hch).
  rewrite Hw. rsimpl.
  cbn [_zinfo _zip64 _file_size _compress_size].
  change (zip_buffer (state ?b ?o ?s ?l ?w ?u ?e)) with (zfile b o s l w).
  rewrite member_close_zfile. rsimpl.
  cbn [upload_success emitted state].
  eexists (buf1 ++ [Packed "<LLQQ"]), em1, _.
  split; [|split; [|split]].
  - f_equal. unfold state, zfile, member_info, stored_bytes.
    rewrite local_size_eq. unfold stored_bytes.
    rewrite !Z.add_0_l. f_equal. f_equal; [f_equal; lia|lia].
  - rewrite blen_app, local_size_eq. unfold stored_bytes.
    rewrite blen_app in Hacc. lia.
  - apply Forall_app. split; [done|]. repeat constructor.
    unfold wf_piece. vm_compute. discriminate.
  - exact Hch.
Qed.

Lemma zip_members_state data : forall buf off fl us em,
  Forall wf_piece buf ->
  exists buf' em' us',
    zip_members archive_generator_step session data (state buf off off fl false us em)
    = Ok (state buf' (members_end session data off) (members_end session data off)
                (fl ++ members_infos session data off) false us' em')
    /\ emitted_length em' + len buf'
       = emitted_length em + len buf + (members_end session data off - off)
    /\ Forall wf_piece buf'
    /\ (chunky em -> chunky em').
Proof.
  induction data as [|f data IH]; intros buf off fl us em Hwf.
  - exists buf, em, us. cbn. rewrite app_nil_r. repeat split; [lia|done..].
  - destruct (zip_member_state f buf off off fl us em Hwf)
      as (buf1 & em1 & us1 & Hm & Hacc1 & Hwf1 & Hch1).
    destruct (IH buf1 (off + local_size session f)
                 (fl ++ [member_info session f off]) us1 em1 Hwf1)
      as (buf2 & em2 & us2 & Hms & Hacc2 & Hwf2 & Hch2).
    exists buf2, em2, us2. cbn [zip_members]. rewrite Hm. rsimpl. rewrite Hms.
    cbn [members_end members_infos]. rewrite <- app_assoc. cbn [app].
    repeat split; [lia|done|]. intros H. by apply Hch2, Hch1.
Qed.

Lemma members_infos_plain data : forall off,
  Forall (fun zinfo => extra zinfo = [] /\ comment zinfo = [])
         (members_infos session data off).
Proof.
  induction data as [|f data IH]; intros off; cbn; constructor; [done|apply IH].
Qed.

Lemma members_infos_length data : forall off,
  length (members_infos session data off) = length data.
Proof. induction data as [|f data IH]; intros off; cbn; [done|by rewrite IH]. Qed.

Lemma close_zfile buf off fl :
  Forall (fun zinfo => extra zinfo = [] /\ comment zinfo = []) fl ->
  Forall wf_piece buf ->
  exists buf',
    ZipFile_close (zfile buf off off fl false)
    = Ok (zfile buf'
            (off + tail_size (Z.of_nat (length fl)) off (directory_size fl))
            off fl false)
    /\ len buf'
       = len buf + tail_size (Z.of_nat (length fl)) off (directory_size fl)
    /\ Forall wf_piece buf'.
Proof.
  intros Hfl Hwf. unfold ZipFile_close. zproj.
  unfold _write_end_record.
  destruct (write_centrals_zfile fl buf off off fl false Hfl Hwf)
    as (buf1 & Hw & Hl & Hwf1).
  change (filelist (zfile buf off off fl false)) with fl.
  rewrite Hw. rsimpl. zproj.
  replace (off + directory_size fl - off) with (directory_size fl) by lia.
  unfold tail_size, needs_zip64_end.
  set (z64 := bool_decide _ || bool_decide _ || bool_decide _).
  destruct z64.
  - rewrite fp_write_zfile. rsimpl. rewrite fp_write_zfile. rsimpl.
    rewrite fp_write_zfile. rsimpl. zproj. rewrite fp_write_zfile.
    eexists. split; [|split].
    + f_equal. unfold zfile. do 2 f_equal.
      unfold sizeEndCentDir64, sizeEndCentDir64Locator, sizeEndCentDir.
      cbn [blen piece_size]. lia.
    + rewrite !blen_app.
      unfold sizeEndCentDir64, sizeEndCentDir64Locator, sizeEndCentDir.
      cbn [blen piece_size]. lia.
    + repeat (apply Forall_app; split); try done;
        repeat constructor; unfold wf_piece; vm_compute; discriminate.
  - rsimpl. rewrite fp_write_zfile. rsimpl. zproj. rewrite fp_write_zfile.
    eexists. split; [|split].
    + f_equal. unfold zfile. do 2 f_equal. unfold sizeEndCentDir.
      cbn [blen piece_size]. lia.
    + rewrite !blen_app. unfold sizeEndCentDir. cbn [blen piece_size]. lia.
    + repeat (apply Forall_app; split); try done;
        repeat constructor; unfold wf_piece; vm_compute; discriminate.
Qed.

(** The archive generator never raises; the chunks it yields are not empty
    and together have the length of the closed form, for every plan and
    every remote source. *)
Lemma archive_length_correct (data : list data_object) (us : gmap string entry) :
  exists chunks us',
    archive_generator data stream_init session us = Ok (chunks, us')
    /\ emitted_length chunks = archive_length session data
    /\ chunky chunks.
Proof.
  unfold archive_generator, zip_collection.
  change (mkPipeline (ZipFile_init stream_init) us []) with (state [] 0 0 [] false us []).
  rewrite step_state.
  destruct (decide (len [] > 0)) as [H|_]; [cbn in H; lia|].
  destruct (zip_members_state data [] 0 [] us [] ltac:(constructor))
    as (buf1 & em1 & us1 & Hm & Hacc & Hwf1 & Hch).
  rewrite Hm. rsimpl. cbn [app] in *.
  change (zip_buffer (state ?b ?o ?s ?l ?w ?u ?e)) with (zfile b o s l w).
  destruct (close_zfile buf1 (members_end session data 0)
              (members_infos session data 0) (members_infos_plain data 0) Hwf1)
    as (buf2 & Hc & Hl & Hwf2).
  rewrite Hc. rsimpl. rewrite with_zip_state, step_state.
  cbn [emitted upload_success state].
  eexists _, _. split; [reflexivity|]. split.
  - rewrite step_accounting by done. rewrite Hl.
    rewrite members_infos_length. unfold archive_length, tail_size.
    cbn in Hacc. lia.
  - apply step_chunky, Hch. constructor.
Qed.

End WriterFacts.

(** ** Size prediction against the archive *)

Section SizeLaw.
Import Zipfile IrodsUtils ArchiveSize.

Lemma prep_total_monotone rulemanager (data : list data_object) : forall st,
  Forall (fun f => 0 <= size f) data ->
  total st <= total (foldl (prep_step rulemanager) st (plan_of data)).
Proof.
  induction data as [|f data IH]; intros st Hnn; cbn; [lia|].
  inversion Hnn as [|? ? Hf Hnn']; subst.
  etransitivity; [|apply IH; exact Hnn'].
  cbn. unfold calc_zip_block, py_len.
  destruct (decide _), (zip64 st); lia.
Qed.

Lemma directory_size_cons zinfo zinfos :
  directory_size (zinfo :: zinfos) = central_size zinfo + directory_size zinfos.
Proof. reflexivity. Qed.

Lemma calc_zip_block_at_least fs p z : fs <= calc_zip_block fs p z.
Proof.
  unfold calc_zip_block, py_len. destruct (decide _), z; lia.
Qed.

Lemma members_infos_dirsize_nonneg session data : forall off,
  0 <= directory_size (members_infos session data off).
Proof.
  induction data as [|f data IH]; intros off; [cbn; lia|].
  specialize (IH (off + local_size session f)).
  cbn [members_infos]. rewrite directory_size_cons.
  unfold central_size at 1. cbn [filename comment member_info blen].
  pose proof (encoded_wf (until_null (path f))) as Hn.
  pose proof (len_nonneg _ (central_extra_data_wf
                              (member_info session f off) eq_refl)) as He.
  unfold wf_piece in Hn. change sizeCentralDir with 46. lia.
Qed.

Lemma small_plan_sizes session rulemanager (data : list data_object) :
  forall T off dir d0 us0,
  honours session data ->
  Forall (fun f => 0 <= size f /\ plain_name (path f)) data ->
  T = off + dir -> 0 <= off -> 0 <= dir ->
  total (foldl (prep_step rulemanager) (mkPrep d0 T false us0) (plan_of data))
    < ZIP64_LIMIT ->
  zip64 (foldl (prep_step rulemanager) (mkPrep d0 T false us0) (plan_of data))
    = false
  /\ members_end session data off
     + (dir + directory_size (members_infos session data off))
     = total (foldl (prep_step rulemanager) (mkPrep d0 T false us0) (plan_of data))
  /\ off <= members_end session data off.
Proof.
  induction data as [|f data IH]; intros T off dir d0 us0 Hh Hp HT Hoff Hdir Hlt.
  - cbn in *. repeat split; lia.
  - inversion Hh as [|? ? Hhf Hh']; subst.
    inversion Hp as [|? ? [Hsz [Hascii Hnull]] Hp']; subst.
    change (plan_of (f :: data)) with ((size f, f) :: plan_of data) in *.
    cbn [foldl] in *.
    remember (prep_step rulemanager (mkPrep d0 (off + dir) false us0) (size f, f))
      as st1 eqn:Est1.
    assert (Ht1 : total st1
                  = off + dir + calc_zip_block (size f) (path f) false)
      by (subst st1; reflexivity).
    assert (Hmono : total st1
                    <= total (foldl (prep_step rulemanager) st1 (plan_of data))).
    { apply prep_total_monotone. eapply Forall_impl; [exact Hp'|]. by intros ? [? _]. }
    assert (Hsmall : size f < ZIP64_LIMIT).
    { pose proof (calc_zip_block_at_least (size f) (path f) false). lia. }
    assert (Hstored : stored_bytes session f = size f).
    { unfold stored_bytes. rewrite read_blocks_total, Hhf. lia. }
    assert (Hname : name_size (path f) = py_len (path f)).
    { unfold name_size. cbn. by rewrite Hnull, Hascii. }
    assert (Hlocal : local_size session f
                     = 30 + py_len (path f) + 20 + size f + 24).
    { unfold local_size. rewrite Hstored, Hname. reflexivity. }
    assert (Hblock : calc_zip_block (size f) (path f) false
                     = local_size session f + (46 + py_len (path f))).
    { unfold calc_zip_block. destruct (decide _); [lia|]. rewrite Hlocal. lia. }
    assert (Hst1 : st1 = mkPrep (d0 ++ [f])
                           ((off + local_size session f)
                            + (dir + (46 + py_len (path f))))
                           false
                           (<[path f := Digest (rulemanager (path f))]> us0)).
    { rewrite Est1. cbn. rewrite Hblock.
      destruct (decide _) as [Hge|_].
      - exfalso. rewrite Hblock in Ht1. lia.
      - f_equal. lia. }
    clear Est1. subst st1. cbn [total] in Hmono.
    assert (0 <= py_len (path f)) by (unfold py_len; lia).
    destruct (IH _ (off + local_size session f) (dir + (46 + py_len (path f)))
                 (d0 ++ [f]) (<[path f := Digest (rulemanager (path f))]> us0)
                 Hh' Hp' eq_refl ltac:(lia) ltac:(lia) Hlt)
      as (Hz & Hsum & Hle).
    split; [exact Hz|]. cbn [members_end members_infos].
    rewrite directory_size_cons.
    assert (Hcentral : central_size (member_info session f off)
                       = 46 + py_len (path f)).
    { unfold central_size, central_extra_data, central_extra.
      cbn [member_info file_size compress_size header_offset extra comment filename].
      rewrite Hstored.
      pose proof (members_infos_dirsize_nonneg session data
                    (off + local_size session f)).
      destruct (decide (size f > ZIP64_LIMIT \/ size f > ZIP64_LIMIT)) as [[?|?]|_];
        [lia..|].
      destruct (decide (off > ZIP64_LIMIT)) as [?|_]; [lia|].
      cbn [app blen]. fold (name_size (path f)). rewrite Hname.
      change sizeCentralDir with 46. lia. }
    rewrite Hcentral. split; lia.
Qed.

(** The size law where it holds by the argument above: a plan of at most
    65535 files with plain names and non-negative sizes, read from a remote
    source that holds the declared sizes, whose predicted size does not
    exceed [ZIP64_LIMIT], is emitted in exactly the predicted number of
    bytes. *)
Lemma size_law_below_the_limit session rulemanager us (data : list data_object) :
  honours session data ->
  Forall (fun f => 0 <= size f /\ plain_name (path f)) data ->
  Z.of_nat (length data) <= ZIP_FILECOUNT_LIMIT ->
  prep_finish (prep_loop rulemanager us (plan_of data)) <= ZIP64_LIMIT ->
  exists chunks us',
    archive_generator data stream_init session us = Ok (chunks, us')
    /\ emitted_length chunks
       = prep_finish (prep_loop rulemanager us (plan_of data)).
Proof.
  intros Hh Hp Hcount Hfin.
  destruct (archive_length_correct session data us) as (chunks & us' & Hgen & Hlen & _).
  exists chunks, us'. split; [exact Hgen|]. rewrite Hlen.
  unfold prep_finish, prep_loop in *.
  set (st := foldl (prep_step rulemanager) (mkPrep [] 0 false us) (plan_of data)) in *.
  assert (Hlt : total st < ZIP64_LIMIT).
  { destruct (zip64 st); lia. }
  destruct (small_plan_sizes session rulemanager data 0 0 0 [] us
              Hh Hp eq_refl ltac:(lia) ltac:(lia) Hlt) as (Hz & Hsum & Hle).
  fold st in Hz, Hsum. rewrite Hz. unfold archive_length.
  pose proof (members_infos_dirsize_nonneg session data 0) as Hd.
  assert (Hno : needs_zip64_end (Z.of_nat (length data))
                  (members_end session data 0)
                  (directory_size (members_infos session data 0)) = false).
  { unfold needs_zip64_end.
    rewrite !bool_decide_eq_false_2 by lia. reflexivity. }
  rewrite Hno. change sizeEndCentDir with 22. lia.
Qed.

(** C7.  For the empty plan the archive generator yields one chunk, the
    end-of-central-directory record alone, which is 22 bytes long, and the
    size predictor returns 22. *)
Theorem empty_plan_is_the_end_record
    (session : string -> remote_object) (rulemanager : string -> string)
    (upload_success : gmap string entry) :
  archive_generator [] stream_init session upload_success
    = Ok ([[Packed structEndArchive]], upload_success)
  /\ emitted_length [[Packed structEndArchive]] = 22
  /\ sizeEndCentDir = 22
  /\ collection_zip_preparation [] rulemanager upload_success
     = ([], 22, upload_success).
Proof. repeat split. Qed.

(** C1 at the failing input.  For the collection that holds one file named
    [a] of 2147483647 bytes (the value of [ZIP64_LIMIT]) the predictor
    returns 2147483887 while the archive generator emits 2147483867 bytes:
    the predictor adds the 20-byte ZIP64 field of the directory record for a
    size that is equal to the limit, the writer only for a size above it. *)
Theorem predicted_size_differs_at_the_limit :
  let f := mkObject "a" "a" 2147483647 in
  let session := fun _ : string => mkRemote 2147483647 "h" in
  let prepared :=
    collection_zip_preparation [("c", [], [f])] (fun _ => "h") ∅ in
  prepared.1.1 = [f]
  /\ prepared.1.2 = 2147483887
  /\ exists chunks us',
       archive_generator prepared.1.1 stream_init session prepared.2
       = Ok (chunks, us')
       /\ emitted_length chunks = 2147483867.
Proof.
  split; [vm_compute; reflexivity|]. split; [vm_compute; reflexivity|].
  eexists _, _. split; vm_compute; reflexivity.
Qed.

(** Two more plans on which the predicted size is not the emitted size.  A
    name with a character above U+007F is counted by [len(file_path)] and
    written in UTF-8; and the predictor's running total, which includes the
    directory records, can reach the limit while the offsets the writer
    compares with it have not. *)
Lemma predicted_size_differs_for_a_non_ascii_name :
  let f := mkObject (String "233" "") "e" 1 in
  let session := fun _ : string => mkRemote 1 "h" in
  (collection_zip_preparation [("c", [], [f])] (fun _ => "h") ∅).1.2 = 145
  /\ archive_length session [f] = 147.
Proof. split; vm_compute; reflexivity. Qed.

Lemma predicted_size_differs_when_only_the_prediction_crosses :
  let f := mkObject "a" "a" 2147483547 in
  let g := mkObject "b" "b" 1 in
  let session := fun p : string =>
    if String.eqb p "a" then mkRemote 2147483547 "h" else mkRemote 1 "h" in
  (collection_zip_preparation [("c", [], [f; g])] (fun _ => "h") ∅).1
  = ([f; g], 2147483902)
  /\ archive_length session [f; g] = 2147483890.
Proof. split; vm_compute; reflexivity. Qed.

End SizeLaw.

(** ** The extended-addressing flag *)

Section Zip64Flag.
Import Zipfile IrodsUtils.

Variable rulemanager : string -> string.
Variable upload_success : gmap string entry.

Lemma prep_loop_snoc items x :
  prep_loop rulemanager upload_success (items ++ [x])
  = prep_step rulemanager (prep_loop rulemanager upload_success items) x.
Proof. unfold prep_loop. by rewrite foldl_app. Qed.

Lemma running_S items k x :
  items !! k = Some x ->
  running rulemanager upload_success items (S k)
  = prep_step rulemanager (running rulemanager upload_success items k) x.
Proof.
  intros H. unfold running. erewrite take_S_r by exact H. apply prep_loop_snoc.
Qed.

Lemma running_past items k :
  (length items <= k)%nat ->
  running rulemanager upload_success items k
  = prep_loop rulemanager upload_success items.
Proof. intros H. unfold running. by rewrite take_ge. Qed.

Lemma prep_step_total st fs f :
  total (prep_step rulemanager st (fs, f))
  = total st + calc_zip_block fs (path f) (zip64 st).
Proof. reflexivity. Qed.

Lemma prep_step_zip64 st x :
  zip64 (prep_step rulemanager st x) = true
  <-> zip64 st = true \/ total (prep_step rulemanager st x) >= ZIP64_LIMIT.
Proof.
  destruct x as [fs f]. cbn. destruct (decide _) as [H|H].
  - split; [by right|done].
  - split; [by left|]. intros [?|?]; [done|lia].
Qed.

Lemma running_total_nonneg items :
  Forall (fun it : Z * data_object => 0 <= it.1) items ->
  forall k, 0 <= total (running rulemanager upload_success items k).
Proof.
  intros Hnn k. induction k as [|k IH]; [unfold running; rewrite take_0; cbn; lia|].
  destruct (items !! k) as [[fs f]|] eqn:Hk.
  - rewrite (running_S _ _ _ Hk), prep_step_total.
    pose proof (calc_zip_block_at_least fs (path f)
                  (zip64 (running rulemanager upload_success items k))).
    assert (0 <= fs).
    { eapply Forall_lookup_1 in Hnn; [|exact Hk]. exact Hnn. }
    lia.
  - apply lookup_ge_None in Hk.
    rewrite running_past by lia. rewrite running_past in IH by lia. exact IH.
Qed.

Lemma running_zip64 items k :
  zip64 (running rulemanager upload_success items k) = true
  <-> exists j, (1 <= j <= k)%nat /\ (j <= length items)%nat
        /\ total (running rulemanager upload_success items j) >= ZIP64_LIMIT.
Proof.
  induction k as [|k IH].
  - unfold running at 1. rewrite take_0. cbn. split; [done|]. intros (j & ? & _). lia.
  - destruct (items !! k) as [x|] eqn:Hk.
    + pose proof (lookup_lt_Some _ _ _ Hk) as Hlt.
      rewrite (running_S _ _ _ Hk), prep_step_zip64, IH.
      rewrite <- (running_S _ _ _ Hk). split.
      * intros [(j & ? & ? & ?)|H]; [exists j|exists (S k)];
          repeat split; try lia; done.
      * intros (j & Hj & Hl & Ht).
        destruct (decide (j = S k)) as [->|]; [by right|].
        left. exists j. repeat split; try lia; done.
    + apply lookup_ge_None in Hk.
      rewrite running_past by lia. rewrite running_past in IH by lia.
      rewrite IH. split; intros (j & ? & ? & ?); exists j;
        repeat split; try lia; done.
Qed.


End Zip64Flag.

Section Zip64FlagExamples.
Import Zipfile IrodsUtils.



End Zip64FlagExamples.

(** ** The plan *)

Section Plan.
Import Zipfile IrodsUtils.

#[local] Instance size_desc_total : Total size_desc.
Proof. intros x y. unfold size_desc. lia. Qed.

#[local] Instance size_desc_trans : Transitive size_desc.
Proof. intros x y z. unfold size_desc. lia. Qed.

Lemma sort_dict_walked collection :
  sort_dict collection = foldl sort_update ∅ (walked_files collection).
Proof.
  unfold sort_dict, walked_files. generalize (∅ : gmap Z data_object).
  induction collection as [|[[coll sub] files] collection IH]; intros m; cbn.
  - done.
  - rewrite foldl_app. apply IH.
Qed.

Lemma sort_update_lookup files : forall (m : gmap Z data_object) k f,
  foldl sort_update m files !! k = Some f ->
  m !! k = Some f \/ (f ∈ files /\ size f = k).
Proof.
  induction files as [|g files IH]; intros m k f H; cbn in *; [by left|].
  apply IH in H as [H|[H1 H2]].
  - unfold sort_update in H. apply lookup_insert_Some in H as [[<- <-]|[_ H]].
    + right. split; [by left|done].
    + by left.
  - right. split; [by right|done].
Qed.

Lemma sort_update_covers files : forall (m : gmap Z data_object) k,
  is_Some (m !! k) \/ (exists g, g ∈ files /\ size g = k) ->
  is_Some (foldl sort_update m files !! k).
Proof.
  induction files as [|g files IH]; intros m k H; cbn.
  - destruct H as [H|(g & Hg & _)]; [done|]. by apply elem_of_nil in Hg.
  - apply IH. destruct H as [H|(h & Hh & Hk)].
    + left. unfold sort_update. rewrite lookup_insert_is_Some.
      destruct (decide (size g = k)); [by left|by right].
    + apply elem_of_cons in Hh as [->|Hh].
      * left. unfold sort_update. rewrite <- Hk. rewrite lookup_insert_eq. by eexists.
      * right. by exists h.
Qed.

(** With pairwise different sizes nothing is overwritten in the dict. *)
Lemma sort_update_distinct files : forall (m : gmap Z data_object),
  NoDup (size <$> files) ->
  (forall f, f ∈ files -> m !! size f = None) ->
  map_to_list (foldl sort_update m files)
  ≡ₚ map_to_list m ++ ((fun f => (size f, f)) <$> files).
Proof.
  induction files as [|g files IH]; intros m Hnd Hfresh.
  - cbn. by rewrite app_nil_r.
  - rewrite fmap_cons in Hnd. apply NoDup_cons in Hnd as [Hg Hnd].
    cbn [foldl]. rewrite fmap_cons. rewrite IH; [| done |].
    + unfold sort_update. rewrite map_to_list_insert by (apply Hfresh; by left).
      cbn [app]. apply Permutation_middle.
    + intros f Hf. unfold sort_update. rewrite lookup_insert_ne.
      * apply Hfresh. by right.
      * intros Heq. apply Hg. rewrite Heq. apply list_elem_of_fmap. by exists f.
Qed.

(** The plan is ordered by size, strictly descending. *)
Lemma plan_strictly_descending collection :
  StronglySorted (fun a b : Z * data_object => b.1 < a.1)
                 (sort_path_by_size collection).
Proof.
  unfold sort_path_by_size.
  set (l := map_to_list (sort_dict collection)).
  assert (Hs : StronglySorted size_desc (merge_sort size_desc l))
    by apply (StronglySorted_merge_sort _).
  assert (Hnd : NoDup (merge_sort size_desc l).*1).
  { rewrite merge_sort_Permutation. apply NoDup_fst_map_to_list. }
  induction Hs as [|a l' Hl IH Ha]; [constructor|].
  cbn in Hnd. apply NoDup_cons in Hnd as [Hna Hnd].
  constructor; [by apply IH|].
  apply Forall_forall. intros b Hb.
  eapply Forall_forall in Ha; [|exact Hb]. unfold size_desc in Ha.
  assert (b.1 <> a.1).
  { intros Heq. apply Hna. rewrite <- Heq. apply list_elem_of_fmap. by exists b. }
  lia.
Qed.

(** Every entry of the plan is a walked file under its own size, and every
    size that occurs in the walk has an entry. *)
Lemma plan_entries_are_walked_files collection k f :
  (k, f) ∈ sort_path_by_size collection ->
  k = size f /\ f ∈ walked_files collection.
Proof.
  unfold sort_path_by_size. rewrite merge_sort_Permutation.
  rewrite elem_of_map_to_list, sort_dict_walked. intros H.
  apply sort_update_lookup in H as [H|[H1 H2]]; [by rewrite lookup_empty in H|done].
Qed.

Lemma every_size_is_planned collection f :
  f ∈ walked_files collection ->
  exists g, (size f, g) ∈ sort_path_by_size collection.
Proof.
  intros Hf.
  destruct (sort_update_covers (walked_files collection) ∅ (size f)) as [g Hg].
  { right. by exists f. }
  exists g. unfold sort_path_by_size. rewrite merge_sort_Permutation.
  rewrite elem_of_map_to_list, sort_dict_walked. exact Hg.
Qed.

(** When no two walked files have the same size, the plan holds exactly the
    walked files, each once. *)
Lemma plan_of_distinct_sizes collection :
  NoDup (size <$> walked_files collection) ->
  (sort_path_by_size collection).*2 ≡ₚ walked_files collection.
Proof.
  intros Hnd. unfold sort_path_by_size.
  rewrite merge_sort_Permutation, sort_dict_walked.
  rewrite sort_update_distinct; [|done|intros; apply lookup_empty].
  rewrite map_to_list_empty. cbn. rewrite <- list_fmap_compose.
  by rewrite list_fmap_id.
Qed.

(** [data] is the plan without the keys, whatever the dict held before. *)
Lemma prep_loop_data rulemanager us items :
  data (prep_loop rulemanager us items) = items.*2.
Proof.
  unfold prep_loop.
  assert (H : forall st, data (foldl (prep_step rulemanager) st items)
                         = data st ++ items.*2).
  { induction items as [|[k f] items IH]; intros st; cbn.
    - by rewrite app_nil_r.
    - rewrite IH. cbn. by rewrite <- app_assoc. }
  by rewrite H.
Qed.

(** C5 at the failing input.  For a collection whose walk yields the files
    [a] and [b], both of 5 bytes, and [c] of 7 bytes, the dict keyed by size
    keeps one file per size: the plan is [c], [b], and [a] is in neither the
    plan nor the data list that is zipped. *)
Theorem files_of_equal_size_collapse :
  let a := mkObject "/zone/a" "a" 5 in
  let b := mkObject "/zone/b" "b" 5 in
  let c := mkObject "/zone/c" "c" 7 in
  let collection : list walk_item := [("/zone", [], [a; b; c])] in
  walked_files collection = [a; b; c]
  /\ sort_path_by_size collection = [(7, c); (5, b)]
  /\ (collection_zip_preparation collection (fun _ => "h") ∅).1.1 = [c; b]
  /\ a ∉ (collection_zip_preparation collection (fun _ => "h") ∅).1.1.
Proof.
  intros a b c collection.
  assert (H : (collection_zip_preparation collection (fun _ => "h") ∅).1.1 = [c; b])
    by (vm_compute; reflexivity).
  split; [reflexivity|]. split; [vm_compute; reflexivity|]. split; [exact H|].
  rewrite H. intros Hin. apply elem_of_cons in Hin as [Heq|Hin]; [discriminate|].
  apply elem_of_cons in Hin as [Heq|Hin]; [discriminate|].
  by apply elem_of_nil in Hin.
Qed.

End Plan.

(** ** The export attempt *)

Section ClientFacts.
Import IrodsUtils DataverseClient.

Variable rule_checksum : string -> string.
Variable md5_of : list Byte.byte -> string.

Local Abbreviation queried := (foldl (fun got p => <[p := rule_checksum p]> got)).

Lemma worker_steps_spec n : forall url us h q got del tr,
  worker_steps rule_checksum n (mk url us h (Some (mkWorker q got)) del tr)
  = mk url us h (Some (mkWorker (drop n q) (queried got (take n q)))) del
       (tr ++ (WorkerQueried <$> take n q)).
Proof.
  induction n as [|n IH]; intros url us h q got del tr.
  - cbn. by rewrite drop_0, app_nil_r.
  - destruct q as [|p q]; cbn [worker_steps].
    + unfold worker_step. cbn. rewrite IH. by rewrite take_nil, drop_nil.
    + unfold worker_step, log, with_pool. cbn [pool trace dataset_deposit_url
        DataverseClient.upload_success irods_md5 deletion].
      rewrite IH. cbn. by rewrite <- app_assoc.
Qed.

Lemma check_keys_trace chksums keys : forall count self,
  exists cs,
    trace (check_keys chksums keys count self).2 = trace self ++ cs
    /\ Forall is_validation cs.
Proof.
  induction keys as [|k keys IH]; intros count self; cbn [check_keys].
  - exists []. by rewrite app_nil_r.
  - unfold check_key.
    destruct (DataverseClient.upload_success self !! k) as [v|];
      [|exists []; cbn; by rewrite app_nil_r].
    destruct (chksums !! k) as [c|]; [|exists []; cbn; by rewrite app_nil_r].
    destruct (entry_equals v c).
    + destruct (IH (count + 1)
                  (with_upload_success
                     (<[k:=PyTrue]> (DataverseClient.upload_success
                                       (log (Compared k true) self)))
                     (log (Compared k true) self))) as (cs & Hcs & Hv).
      exists (Compared k true :: cs). rewrite Hcs. cbn.
      rewrite <- app_assoc. split; [done|]. by constructor.
    + destruct (IH count (log (Compared k false) self)) as (cs & Hcs & Hv).
      exists (Compared k false :: cs). rewrite Hcs. cbn.
      rewrite <- app_assoc. split; [done|]. by constructor.
Qed.

Lemma validate_upload_trace resp self :
  exists cs,
    trace (_validate_upload md5_of resp self).2 = trace self ++ cs
    /\ Forall is_validation cs.
Proof.
  unfold _validate_upload.
  destruct (decide _); [destruct (reported_md5 resp); [destruct (decide _)|]|];
    cbn; rewrite <- ?app_assoc; eexists; (split; [reflexivity|]);
    repeat constructor.
Qed.

Ltac client_step :=
  cbv beta iota zeta delta
    [_prepare_zip _upload_zip_collection update_metadata_status log with_pool
     with_upload_success with_md5 pool_join pool_result_get pending_queries
     dataset_deposit_url DataverseClient.upload_success irods_md5 pool
     deletion trace todo fetched fst snd].

Lemma prepare_zip_mk a url us h q got del tr :
  _prepare_zip rule_checksum a (mk url us h (Some (mkWorker q got)) del tr)
  = mk url (after_prepare a us) h
       (Some (mkWorker (drop (during_prepare a) q)
                       (queried got (take (during_prepare a) q)))) del
       (tr ++ [StatusUpdate PREPARE_COLLECTION ZIP_COLLECTION; PrepareZip]
           ++ (WorkerQueried <$> take (during_prepare a) q)).
Proof.
  client_step. rewrite worker_steps_spec. f_equal.
  rewrite <- !app_assoc. reflexivity.
Qed.

Lemma upload_zip_mk a url us h q got del tr :
  _upload_zip_collection rule_checksum a
    (mk url us h (Some (mkWorker q got)) del tr)
  = (resp a,
     mk url (after_upload a us) (uploaded_md5 a)
        (Some (mkWorker (drop (during_upload a) q)
                        (queried got (take (during_upload a) q)))) del
        (tr ++ [StatusUpdate ZIP_COLLECTION UPLOAD_ZIPPED_COLLECTION; RequestIssued]
            ++ (WorkerQueried <$> take (during_upload a) q)
            ++ [ResponseReceived])).
Proof.
  client_step. rewrite worker_steps_spec. client_step. do 2 f_equal.
  rewrite <- !app_assoc. reflexivity.
Qed.

(** [_validate_checksum] up to its loop: the pool is closed and joined, the
    worker has run all its queries, and the loop starts from the mapping the
    worker has completed. *)
Lemma validate_checksum_mk url us h q got del tr :
  _validate_checksum rule_checksum (mk url us h (Some (mkWorker q got)) del tr)
  = match check_keys (queried got q) (map_to_list us).*1 0
            (mk url us h (Some (mkWorker [] (queried got q))) del
                (tr ++ [StatusUpdate UPLOAD_ZIPPED_COLLECTION VALIDATE_CHECKSUM;
                        PoolClosed]
                    ++ (WorkerQueried <$> q)
                    ++ [PoolJoined; ResultRead (queried got q)])) with
    | (Raise e, self) => (Raise e, self)
    | (Ok count, self) =>
        if decide (count = Z.of_nat
                             (base.size (DataverseClient.upload_success self)))
        then (Ok true, self)
        else (Ok false,
              update_metadata_status VALIDATE_UPLOAD UPLOAD_CORRUPTED self)
    end.
Proof.
  unfold _validate_checksum. client_step.
  rewrite worker_steps_spec. client_step.
  rewrite take_ge, drop_ge by done.
  change (length (@nil string)) with 0%nat.
  rewrite worker_steps_spec. client_step.
  rewrite take_0, drop_0. cbn [foldl fmap list_fmap].
  rewrite app_nil_r, <- !app_assoc. reflexivity.
Qed.


(** The loop of [_validate_checksum] over distinct keys that both dicts
    hold: it counts the keys whose entry equals the fetched digest, sets
    exactly those entries to [True] and leaves every other entry alone. *)
Lemma check_keys_spec chksums keys : forall count self,
  NoDup keys ->
  (forall k, k ∈ keys ->
     is_Some (DataverseClient.upload_success self !! k) /\ is_Some (chksums !! k)) ->
  exists m self',
    check_keys chksums keys count self = (Ok (count + Z.of_nat m), self')
    /\ (m <= length keys)%nat
    /\ (m = length keys
        <-> forall k, k ∈ keys ->
              agrees (DataverseClient.upload_success self) chksums k = true)
    /\ (forall k,
          DataverseClient.upload_success self' !! k
          = if decide (k ∈ keys /\
                       agrees (DataverseClient.upload_success self) chksums k = true)
            then Some PyTrue
            else DataverseClient.upload_success self !! k)
    /\ base.size (DataverseClient.upload_success self')
       = base.size (DataverseClient.upload_success self)
    /\ irods_md5 self' = irods_md5 self.
Proof.
  induction keys as [|k keys IH]; intros count self Hnd Hin.
  - exists 0%nat, self. cbn. rewrite Z.add_0_r. repeat split; try done.
    all: try (intros _ k Hk; by apply elem_of_nil in Hk).
    all: intros k; destruct (decide _) as [[Hk _]|_];
      [by apply elem_of_nil in Hk|done].
  - apply NoDup_cons in Hnd as [Hk Hnd].
    destruct (Hin k ltac:(by left)) as [[v Hv] [c Hc]].
    cbn [check_keys]. unfold check_key. rewrite Hv, Hc.
    assert (Hag : agrees (DataverseClient.upload_success self) chksums k
                  = entry_equals v c) by (unfold agrees; by rewrite Hv, Hc).
    destruct (entry_equals v c) eqn:He.
    + set (self1 := with_upload_success _ _).
      assert (Hus1 : DataverseClient.upload_success self1
                     = <[k := PyTrue]> (DataverseClient.upload_success self))
        by reflexivity.
      assert (Hother : forall k', k' ∈ keys ->
                agrees (DataverseClient.upload_success self1) chksums k'
                = agrees (DataverseClient.upload_success self) chksums k').
      { intros k' Hk'. unfold agrees. rewrite Hus1, lookup_insert_ne; [done|].
        intros ->. done. }
      destruct (IH (count + 1) self1 Hnd) as (m & self' & Hck & Hm & Hall & Hlk & Hsz & Hmd).
      { intros k' Hk'. split; [|apply Hin; by right].
        rewrite Hus1, lookup_insert_is_Some.
        destruct (decide (k = k')); [by left|right].
        split; [done|]. apply Hin. by right. }
      exists (S m), self'. rewrite Hck. split; [f_equal; f_equal; lia|].
      split; [cbn; lia|]. split; [|split; [|split]].
      * cbn [length]. split.
        -- intros Heq k' Hk'. apply elem_of_cons in Hk' as [->|Hk']; [by rewrite Hag|].
           rewrite <- Hother by done. apply Hall; [lia|done].
        -- intros Ha. f_equal. apply Hall. intros k' Hk'.
           rewrite Hother by done. apply Ha. by right.
      * intros k'. rewrite Hlk, Hus1.
        destruct (decide (k' = k)) as [->|Hne].
        -- rewrite lookup_insert_eq.
           destruct (decide (k ∈ keys /\ _)) as [[? _]|_]; [done|].
           destruct (decide (k ∈ k :: keys /\ _)) as [_|Hn]; [done|].
           exfalso. apply Hn. split; [by left|by rewrite Hag].
        -- rewrite lookup_insert_ne by done.
           destruct (decide (k' ∈ keys /\ _)) as [[Hk' Ha]|Hn];
             destruct (decide (k' ∈ k :: keys /\ _)) as [[Hk2 Ha2]|Hn2]; try done.
           ++ exfalso. apply Hn2. split; [by right|]. by rewrite <- Hother.
           ++ exfalso. apply Hn. apply elem_of_cons in Hk2 as [?|Hk2]; [done|].
              split; [done|]. by rewrite Hother.
      * rewrite Hsz, Hus1. apply map_size_insert_Some. by eexists.
      * by rewrite Hmd.
    + set (self1 := log _ self).
      destruct (IH count self1 Hnd) as (m & self' & Hck & Hm & Hall & Hlk & Hsz & Hmd).
      { intros k' Hk'. apply Hin. by right. }
      exists m, self'. rewrite Hck. split; [done|].
      split; [cbn; lia|]. split; [|split; [|split]].
      * cbn [length]. split; [lia|].
        intros Ha. specialize (Ha k ltac:(by left)). congruence.
      * intros k'. rewrite Hlk. cbn [DataverseClient.upload_success self1 log].
        destruct (decide (k' ∈ keys /\ _)) as [[Hk' Ha]|Hn];
          destruct (decide (k' ∈ k :: keys /\ _)) as [[Hk2 Ha2]|Hn2]; try done.
        -- exfalso. apply Hn2. split; [by right|done].
        -- exfalso. apply elem_of_cons in Hk2 as [->|Hk2]; [congruence|].
           apply Hn. done.
      * exact Hsz.
      * exact Hmd.
Qed.

(** [_validate_checksum] on a client whose pool holds the checksum job and
    whose entries all have a fetched digest: it does not raise; it answers
    true exactly when every entry equals the digest fetched for its path;
    the entries that agree are set to [True] and the others are left as they
    were, each on its own. *)
Lemma validate_checksum_compares_entries url us h q got del tr :
  (forall k, is_Some (us !! k) -> is_Some (queried got q !! k)) ->
  exists validated self',
    _validate_checksum rule_checksum (mk url us h (Some (mkWorker q got)) del tr)
    = (Ok validated, self')
    /\ (validated = true
        <-> forall k v, us !! k = Some v ->
              exists c, queried got q !! k = Some c /\ entry_equals v c = true)
    /\ (forall k,
          DataverseClient.upload_success self' !! k
          = if decide (agrees us (queried got q) k = true)
            then Some PyTrue else us !! k).
Proof.
  intros Hcov. rewrite validate_checksum_mk.
  set (keys := (map_to_list us).*1).
  assert (Hkeys : forall k, k ∈ keys <-> is_Some (us !! k)).
  { intros k. unfold keys. rewrite list_elem_of_fmap. split.
    - intros ([k' v] & -> & Hkv). apply elem_of_map_to_list in Hkv. by eexists.
    - intros [v Hv]. exists (k, v). split; [done|]. by apply elem_of_map_to_list. }
  edestruct (check_keys_spec (queried got q) keys 0
               (mk url us h (Some (mkWorker [] (queried got q))) del
                   (tr ++ [StatusUpdate UPLOAD_ZIPPED_COLLECTION VALIDATE_CHECKSUM;
                           PoolClosed]
                       ++ (WorkerQueried <$> q)
                       ++ [PoolJoined; ResultRead (queried got q)])))
    as (m & self' & Hck & Hm & Hall & Hlk & Hsz & _).
  { apply NoDup_fst_map_to_list. }
  { intros k Hk. apply Hkeys in Hk. split; [exact Hk|by apply Hcov]. }
  rewrite Hck. cbn [DataverseClient.upload_success] in *.
  assert (Hlen : length keys = base.size us).
  { unfold keys. by rewrite length_fmap, length_map_to_list. }
  assert (Hiff : m = length keys
                 <-> forall k v, us !! k = Some v ->
                       exists c, queried got q !! k = Some c
                                 /\ entry_equals v c = true).
  { rewrite Hall. split.
    - intros Ha k v Hv. specialize (Ha k ltac:(apply Hkeys; by eexists)).
      unfold agrees in Ha. rewrite Hv in Ha.
      destruct (queried got q !! k) as [c|]; [by exists c|done].
    - intros Ha k Hk. apply Hkeys in Hk as [v Hv].
      destruct (Ha k v Hv) as (c & Hc & He). unfold agrees. by rewrite Hv, Hc. }
  assert (Hlk' : forall k,
             DataverseClient.upload_success self' !! k
             = if decide (agrees us (queried got q) k = true)
               then Some PyTrue else us !! k).
  { intros k. rewrite Hlk.
    destruct (decide (k ∈ keys /\ _)) as [[_ Ha]|Hn];
      destruct (decide (agrees _ _ _ = true)) as [Ha2|Hn2]; try done.
    exfalso. apply Hn. split; [|done]. apply Hkeys.
    unfold agrees in Ha2. destruct (us !! k); [by eexists|done]. }
  rewrite Hsz. destruct (decide (0 + Z.of_nat m = Z.of_nat (base.size us))) as [Heq|Hne].
  - exists true, self'. split; [done|]. split; [|exact Hlk'].
    split; [intros _; apply Hiff; lia|done].
  - eexists false, _. split; [reflexivity|]. split; [|exact Hlk'].
    split; [done|]. intros Ha. exfalso. apply Hne. apply Hiff in Ha. lia.
Qed.

(** C8, as amended.  [_validate_upload] returns true exactly when the
    response status is 200 and the digest the service reports equals the
    local whole-stream digest.  Its answer depends on the response and on
    the whole-stream digest only: it leaves the per-file entries and the
    pool as they are, and it is computed without the answer of
    [_validate_checksum].  After the transition to [VALIDATE_UPLOAD] it
    records [FINALIZE] on success, [UPLOAD_FAILED] for a response that is
    not 200, and [UPLOAD_CORRUPTED] for a digest that differs.  When the
    status is 200 and the body has no digest entry, the lookup raises. *)
Theorem validate_upload_law (response : DataverseClient.response) (self : t) :
  let md5_hexdigest := hexdigest md5_of (irods_md5 self) in
  let after := (_validate_upload md5_of response self).2 in
  DataverseClient.upload_success after = DataverseClient.upload_success self
  /\ pool after = pool self
  /\ irods_md5 after = irods_md5 self
  /\ match (_validate_upload md5_of response self).1 with
     | Ok validated =>
         (validated = true
          <-> status_code response = HTTP_OK
              /\ reported_md5 response = Some md5_hexdigest)
         /\ trace after
            = trace self
              ++ [StatusUpdate VALIDATE_CHECKSUM VALIDATE_UPLOAD;
                  StatusUpdate VALIDATE_UPLOAD
                    (if validated then FINALIZE
                     else if decide (status_code response = HTTP_OK)
                          then UPLOAD_CORRUPTED else UPLOAD_FAILED)]
     | Raise _ =>
         status_code response = HTTP_OK /\ reported_md5 response = None
         /\ trace after
            = trace self ++ [StatusUpdate VALIDATE_CHECKSUM VALIDATE_UPLOAD]
     end.
Proof.
  unfold _validate_upload. destruct (decide (status_code response = HTTP_OK)) as [Hs|Hs].
  - destruct (reported_md5 response) as [reported|] eqn:Hr.
    + destruct (decide (reported = _)) as [->|Hne]; cbn;
        rewrite <- ?app_assoc; repeat split; try done.
      * intros (_ & Heq). exfalso. apply Hne. by injection Heq.
    + cbn. done.
  - cbn. rewrite <- ?app_assoc. repeat split; try done. intros [? _]. done.
Qed.

End ClientFacts.

Section ClientExamples.
Import IrodsUtils DataverseClient.


(** C8, as stated, fails on the status: a per-file mismatch found by
    [_validate_checksum] and a whole-stream mismatch found by
    [_validate_upload] record the same status, [UPLOAD_CORRUPTED]. *)
Lemma both_mismatches_record_the_same_status :
  let self :=
    mk (Some "url") {["/zone/f" := Digest "x"]} hash_new
       (Some (mkWorker ["/zone/f"] ∅)) false [] in
  let per_file := _validate_checksum (fun _ => "h") self in
  let whole := _validate_upload (fun _ => "d") (mkResponse 200 (Some "e")) self in
  per_file.1 = Ok false
  /\ whole.1 = Ok false
  /\ last (trace per_file.2) = Some (StatusUpdate VALIDATE_UPLOAD UPLOAD_CORRUPTED)
  /\ last (trace whole.2) = Some (StatusUpdate VALIDATE_UPLOAD UPLOAD_CORRUPTED).
Proof. vm_compute. repeat split. Qed.


End ClientExamples.

(** * Further properties *)

(** ** The pull reader, continued *)

Section ReaderMore.
Context {A : Type}.

Local Abbreviation nonempty_chunk := (fun c : list A => c <> []).

Lemma read_conserves (r : IteratorAsBinaryFile.t A) (N : Z) :
  N <> -1 ->
  (IteratorAsBinaryFile.read N r).1
    ++ IteratorAsBinaryFile.remaining (IteratorAsBinaryFile.read N r).2
  = IteratorAsBinaryFile.remaining r
  /\ fed (IteratorAsBinaryFile.md5 (IteratorAsBinaryFile.read N r).2)
     = fed (IteratorAsBinaryFile.md5 r) ++ (IteratorAsBinaryFile.read N r).1.
Proof.
  intros HN. unfold IteratorAsBinaryFile.read.
  destruct (decide (N = -1)) as [|_]; [done|].
  unfold IteratorAsBinaryFile._load_bytes, IteratorAsBinaryFile.remaining.
  set (buf := smart_truncate (IteratorAsBinaryFile._buffer r)).
  set (amt := N - super_len buf).
  pose proof (load_loop_preserves (IteratorAsBinaryFile.iterator r) amt buf)
    as [_ Hpres].
  destruct (IteratorAsBinaryFile.load_loop amt (IteratorAsBinaryFile.iterator r) buf)
    as [it' buf'].
  cbn in *. unfold buf in Hpres. rewrite smart_truncate_unread in Hpres.
  rewrite <- Hpres. unfold bytesio_read.
  destruct (decide (N < 0)); cbn; split; try done.
  by rewrite app_assoc, take_drop.
Qed.

(** X1.  Whatever sizes other than -1 a caller asks for, in whatever order:
    the bytes handed out so far, followed by what the reader still holds
    (its buffer and the chunks to come), are the stream it started with, and
    the digest has been fed exactly the bytes handed out, in order. *)
Theorem reads_hand_out_the_stream_in_order (sizes : list Z) :
  forall r : IteratorAsBinaryFile.t A,
  Forall (fun n => n <> -1) sizes ->
  concat (IteratorAsBinaryFile.reads sizes r).1
    ++ IteratorAsBinaryFile.remaining (IteratorAsBinaryFile.reads sizes r).2
  = IteratorAsBinaryFile.remaining r
  /\ fed (IteratorAsBinaryFile.md5 (IteratorAsBinaryFile.reads sizes r).2)
     = fed (IteratorAsBinaryFile.md5 r)
       ++ concat (IteratorAsBinaryFile.reads sizes r).1.
Proof.
  induction sizes as [|n sizes IH]; intros r Hs; cbn.
  - by rewrite app_nil_r.
  - inversion Hs as [|? ? Hn Hs']; subst.
    destruct (read_conserves r n Hn) as [Hc Hf].
    destruct (IteratorAsBinaryFile.read n r) as [s r1]. cbn in *.
    destruct (IH r1 Hs') as [IHc IHf].
    destruct (IteratorAsBinaryFile.reads sizes r1) as [ss r2]. cbn in *.
    split.
    + by rewrite <- app_assoc, IHc.
    + by rewrite IHf, Hf, <- app_assoc.
Qed.

(** X2.  With chunks that are not empty, a run of reads with sizes [>= 0]
    hands out exactly the first [sum sizes] bytes of the stream (all of it
    when the stream is shorter): a read is never short unless the stream
    has ended. *)
Theorem reads_fill_every_request (sizes : list Z) (r : IteratorAsBinaryFile.t A) :
  Forall (fun n => 0 <= n) sizes ->
  Forall nonempty_chunk (IteratorAsBinaryFile.iterator r) ->
  concat (IteratorAsBinaryFile.reads sizes r).1
  = take (Z.to_nat (foldr Z.add 0 sizes)) (IteratorAsBinaryFile.remaining r)
  /\ Forall2 (fun n s => zlen s <= n) sizes (IteratorAsBinaryFile.reads sizes r).1.
Proof.
  intros Hs Hne. split; [apply (reads_spec sizes r Hs Hne)|].
  revert r Hne. induction Hs as [|n sizes Hn Hs IH]; intros r Hne; cbn.
  - constructor.
  - destruct (read_spec r n Hn Hne) as (Hs1 & _ & _ & _ & _ & Hne1).
    destruct (IteratorAsBinaryFile.read n r) as [s r1]. cbn in *.
    specialize (IH r1 Hne1).
    destruct (IteratorAsBinaryFile.reads sizes r1) as [ss r2]. cbn in *.
    constructor; [|exact IH]. subst s. unfold zlen. rewrite length_take. lia.
Qed.

(** X3.  Two callers that read the same stream of non-empty chunks with any
    sizes [>= 0] adding up to at least the length of the stream end with the
    same digest input, the whole stream. *)
Theorem digest_does_not_depend_on_read_sizes (sizes1 sizes2 : list Z)
    (r : IteratorAsBinaryFile.t A) :
  Forall (fun n => 0 <= n) sizes1 -> Forall (fun n => 0 <= n) sizes2 ->
  Forall nonempty_chunk (IteratorAsBinaryFile.iterator r) ->
  zlen (IteratorAsBinaryFile.remaining r) <= foldr Z.add 0 sizes1 ->
  zlen (IteratorAsBinaryFile.remaining r) <= foldr Z.add 0 sizes2 ->
  fed (IteratorAsBinaryFile.md5 (IteratorAsBinaryFile.reads sizes1 r).2)
    = fed (IteratorAsBinaryFile.md5 r) ++ IteratorAsBinaryFile.remaining r
  /\ fed (IteratorAsBinaryFile.md5 (IteratorAsBinaryFile.reads sizes2 r).2)
     = fed (IteratorAsBinaryFile.md5 (IteratorAsBinaryFile.reads sizes1 r).2).
Proof. apply digest_invariant_for_nonnegative_sizes. Qed.

Lemma load_loop_idle (amt : Z) (it : list (list A)) (buf : CustomBytesIO A) :
  amt <= 0 -> IteratorAsBinaryFile.load_loop amt it buf = (it, buf).
Proof. intros H. destruct it; cbn; destruct (decide _); done || lia. Qed.

(** X4.  A read of zero bytes returns nothing and sets [len] to zero even
    when bytes remain; the bytes are not lost, and the digest is fed
    nothing. *)
Theorem zero_size_read_zeroes_len (r : IteratorAsBinaryFile.t A) :
  (IteratorAsBinaryFile.read 0 r).1 = []
  /\ IteratorAsBinaryFile.len (IteratorAsBinaryFile.read 0 r).2 = 0
  /\ IteratorAsBinaryFile.remaining (IteratorAsBinaryFile.read 0 r).2
     = IteratorAsBinaryFile.remaining r
  /\ IteratorAsBinaryFile.iterator (IteratorAsBinaryFile.read 0 r).2
     = IteratorAsBinaryFile.iterator r
  /\ fed (IteratorAsBinaryFile.md5 (IteratorAsBinaryFile.read 0 r).2)
     = fed (IteratorAsBinaryFile.md5 r).
Proof.
  unfold IteratorAsBinaryFile.read, IteratorAsBinaryFile._load_bytes,
    IteratorAsBinaryFile.remaining.
  destruct (decide (0 = -1)) as [|_]; [lia|].
  rewrite load_loop_idle by (unfold super_len; lia).
  unfold bytesio_read. destruct (decide (0 < 0)) as [|_]; [lia|].
  cbn. rewrite smart_truncate_unread, app_nil_r. done.
Qed.

(** X5.  [read(-1)] after another read skips what that read left in the
    buffer: the caller receives the rest of the iterator, while the buffered
    bytes, which come before it in the stream, stay in the buffer. *)
Theorem read_all_skips_the_buffer (r : IteratorAsBinaryFile.t A) (N : Z) :
  N <> -1 ->
  let r1 := (IteratorAsBinaryFile.read N r).2 in
  let r2 := (IteratorAsBinaryFile.read (-1) r1).2 in
  (IteratorAsBinaryFile.read N r).1
    ++ unread (IteratorAsBinaryFile._buffer r1)
    ++ (IteratorAsBinaryFile.read (-1) r1).1
  = IteratorAsBinaryFile.remaining r
  /\ unread (IteratorAsBinaryFile._buffer r2)
     = unread (IteratorAsBinaryFile._buffer r1)
  /\ IteratorAsBinaryFile.iterator r2 = []
  /\ IteratorAsBinaryFile.md5 r2 = IteratorAsBinaryFile.md5 r1.
Proof.
  intros HN r1 r2. destruct (read_conserves r N HN) as [Hc _].
  fold r1 in Hc. unfold IteratorAsBinaryFile.remaining in Hc at 1.
  repeat split; done.
Qed.

(** X6.  An empty chunk ends the loading like the end of the iterator does:
    with nothing buffered and an empty chunk next, a read of [N >= 1] bytes
    returns nothing and sets [len] to zero, although the chunks after the
    empty one are still to come. *)
Theorem empty_chunk_reads_as_exhaustion (r : IteratorAsBinaryFile.t A)
    (rest : list (list A)) (N : Z) :
  1 <= N ->
  unread (IteratorAsBinaryFile._buffer r) = [] ->
  IteratorAsBinaryFile.iterator r = [] :: rest ->
  (IteratorAsBinaryFile.read N r).1 = []
  /\ IteratorAsBinaryFile.len (IteratorAsBinaryFile.read N r).2 = 0
  /\ IteratorAsBinaryFile.iterator (IteratorAsBinaryFile.read N r).2 = rest.
Proof.
  intros HN Hbuf Hit. unfold IteratorAsBinaryFile.read.
  destruct (decide (N = -1)) as [|_]; [lia|].
  unfold IteratorAsBinaryFile._load_bytes. rewrite Hit.
  assert (Hsl : super_len (smart_truncate (IteratorAsBinaryFile._buffer r)) = 0).
  { unfold super_len, bytesio_len. rewrite smart_truncate_unread, Hbuf.
    change (zlen (@nil A)) with 0. unfold tell, zlen. lia. }
  rewrite Hsl. cbn [IteratorAsBinaryFile.load_loop].
  destruct (decide (N - 0 > 0)) as [_|Hn]; [|lia].
  cbn. rewrite smart_truncate_unread, Hbuf. cbn.
  unfold bytesio_read. destruct (decide (N < 0)); [lia|]. cbn.
  rewrite take_nil. cbn. destruct (decide (N < 0)); [lia|]. done.
Qed.

End ReaderMore.

Section ReaderMoreWitnesses.

Lemma reads_hand_out_the_stream_in_order_witness :
  let r := IteratorAsBinaryFile.mk 3 hash_new 3
             [[Byte.x61; Byte.x62]; [Byte.x63]] "utf-8" bytesio_new in
  concat (IteratorAsBinaryFile.reads [1; -2; 5] r).1
    ++ IteratorAsBinaryFile.remaining (IteratorAsBinaryFile.reads [1; -2; 5] r).2
  = [Byte.x61; Byte.x62; Byte.x63].
Proof.
  intros r.
  exact (proj1 (reads_hand_out_the_stream_in_order [1; -2; 5] r
                  ltac:(repeat constructor; lia))).
Defined.

Lemma reads_fill_every_request_witness :
  let r := IteratorAsBinaryFile.mk 3 hash_new 3
             [[Byte.x61; Byte.x62]; [Byte.x63]] "utf-8" bytesio_new in
  concat (IteratorAsBinaryFile.reads [1; 1; 5] r).1
  = take (Z.to_nat (foldr Z.add 0 [1; 1; 5])) (IteratorAsBinaryFile.remaining r).
Proof.
  intros r.
  exact (proj1 (reads_fill_every_request [1; 1; 5] r
                  ltac:(repeat constructor; lia)
                  ltac:(repeat constructor; discriminate))).
Defined.

Lemma digest_does_not_depend_on_read_sizes_witness :
  let r := IteratorAsBinaryFile.mk 3 hash_new 3
             [[Byte.x61; Byte.x62]; [Byte.x63]] "utf-8" bytesio_new in
  fed (IteratorAsBinaryFile.md5 (IteratorAsBinaryFile.reads [1; 1; 1; 1] r).2)
  = fed (IteratorAsBinaryFile.md5 (IteratorAsBinaryFile.reads [17] r).2).
Proof.
  intros r.
  exact (proj2 (digest_does_not_depend_on_read_sizes [17] [1; 1; 1; 1] r
                  ltac:(repeat constructor; lia)
                  ltac:(repeat constructor; lia)
                  ltac:(repeat constructor; discriminate)
                  ltac:(vm_compute; discriminate)
                  ltac:(vm_compute; discriminate))).
Defined.

Lemma read_all_skips_the_buffer_witness :
  let r := IteratorAsBinaryFile.mk 6 hash_new 6
             [[Byte.x61; Byte.x62; Byte.x63; Byte.x64]; [Byte.x65; Byte.x66]]
             "utf-8" bytesio_new in
  (IteratorAsBinaryFile.read 2 r).1
    ++ unread (IteratorAsBinaryFile._buffer (IteratorAsBinaryFile.read 2 r).2)
    ++ (IteratorAsBinaryFile.read (-1) (IteratorAsBinaryFile.read 2 r).2).1
  = IteratorAsBinaryFile.remaining r.
Proof.
  intros r. exact (proj1 (read_all_skips_the_buffer r 2 ltac:(lia))).
Defined.

Lemma empty_chunk_reads_as_exhaustion_witness :
  let r := IteratorAsBinaryFile.mk 1 hash_new 1 [[]; [Byte.x61]] "utf-8"
             bytesio_new in
  (IteratorAsBinaryFile.read 4 r).1 = []
  /\ IteratorAsBinaryFile.len (IteratorAsBinaryFile.read 4 r).2 = 0
  /\ IteratorAsBinaryFile.iterator (IteratorAsBinaryFile.read 4 r).2
     = [[Byte.x61]].
Proof.
  intros r.
  exact (empty_chunk_reads_as_exhaustion r [[Byte.x61]] 4 ltac:(lia)
           eq_refl eq_refl).
Defined.

End ReaderMoreWitnesses.

(** ** [MultiPurposeReader] *)

Section MultiPurposeReaderFacts.
Context {A : Type}.

Lemma multi_purpose_read_step (n : Z) (r : MultiPurposeReader.t A) :
  n <> 0 ->
  MultiPurposeReader.len r = zlen (MultiPurposeReader._raw r) ->
  (MultiPurposeReader.read n r).1 ++ MultiPurposeReader._raw (MultiPurposeReader.read n r).2
    = MultiPurposeReader._raw r
  /\ MultiPurposeReader.len (MultiPurposeReader.read n r).2
     = zlen (MultiPurposeReader._raw (MultiPurposeReader.read n r).2)
  /\ fed (MultiPurposeReader.md5 (MultiPurposeReader.read n r).2)
     = fed (MultiPurposeReader.md5 r) ++ (MultiPurposeReader.read n r).1
  /\ fed (MultiPurposeReader.sha (MultiPurposeReader.read n r).2)
     = fed (MultiPurposeReader.sha r) ++ (MultiPurposeReader.read n r).1.
Proof.
  intros Hn Hlen. unfold MultiPurposeReader.read.
  set (force := 1024 * MultiPurposeReader.DEFAULT_BUFFER_SIZE).
  assert (Hforce : 0 < force) by (vm_compute; done).
  assert (Hraw : forall k, k <> 0 ->
            let c := (MultiPurposeReader.raw_read k (MultiPurposeReader._raw r)) in
            c.1 ++ c.2 = MultiPurposeReader._raw r
            /\ (c.1 = [] -> c.2 = [])).
  { intros k Hk. unfold MultiPurposeReader.raw_read.
    destruct (decide (k < 0)); cbn.
    - split; [by rewrite app_nil_r|done].
    - split; [apply take_drop|]. intros Ht.
      apply take_nil_inv in Ht as [Hz| ->]; [lia|by rewrite drop_nil]. }
  destruct (decide _) as [Hc|Hc].
  - destruct (Hraw n Hn) as [Happ Hemp].
    destruct (MultiPurposeReader.raw_read n _) as [chunk raw']. cbn in *.
    repeat split; try done.
    destruct chunk as [|a chunk]; [by rewrite Hemp|].
    rewrite Hlen, <- Happ. unfold zlen. rewrite length_app. lia.
  - destruct (Hraw force ltac:(lia)) as [Happ Hemp].
    destruct (MultiPurposeReader.raw_read force _) as [chunk raw']. cbn in *.
    repeat split; try done.
    destruct chunk as [|a chunk]; [by rewrite Hemp|].
    rewrite Hlen, <- Happ. unfold zlen. rewrite length_app. lia.
Qed.

(** X7.  Started with [len] equal to the number of bytes of the wrapped
    file, and read with chunk sizes other than zero: after any run of reads
    [len] is the number of bytes still to come, the chunks returned followed
    by what is left are the file, and both digests have been fed exactly
    the chunks returned, in order. *)
Theorem multi_purpose_reader_tracks_remaining (sizes : list Z) :
  forall r : MultiPurposeReader.t A,
  Forall (fun n => n <> 0) sizes ->
  MultiPurposeReader.len r = zlen (MultiPurposeReader._raw r) ->
  let out := (multi_purpose_reads sizes r).1 in
  let r' := (multi_purpose_reads sizes r).2 in
  concat out ++ MultiPurposeReader._raw r' = MultiPurposeReader._raw r
  /\ MultiPurposeReader.len r' = zlen (MultiPurposeReader._raw r')
  /\ fed (MultiPurposeReader.md5 r') = fed (MultiPurposeReader.md5 r) ++ concat out
  /\ fed (MultiPurposeReader.sha r') = fed (MultiPurposeReader.sha r) ++ concat out.
Proof.
  induction sizes as [|n sizes IH]; intros r Hs Hlen; cbn.
  - rewrite !app_nil_r. done.
  - inversion Hs as [|? ? Hn Hs']; subst.
    destruct (multi_purpose_read_step n r Hn Hlen) as (H1 & H2 & H3 & H4).
    destruct (MultiPurposeReader.read n r) as [chunk r1]. cbn in *.
    destruct (IH r1 Hs' H2) as (I1 & I2 & I3 & I4).
    destruct (multi_purpose_reads sizes r1) as [chunks r2]. cbn in *.
    repeat split.
    + by rewrite <- app_assoc, I1.
    + done.
    + by rewrite I3, H3, <- app_assoc.
    + by rewrite I4, H4, <- app_assoc.
Qed.

(** X8.  A request for a number of bytes between 1 and
    [1024 * DEFAULT_BUFFER_SIZE] is served with a read of
    [1024 * DEFAULT_BUFFER_SIZE] bytes: the caller gets the whole file when
    it is not longer than that, however few bytes it asked for; and a
    request for zero bytes sets [len] to zero with the file untouched. *)
Theorem multi_purpose_reader_forces_the_read_size (n : Z)
    (r : MultiPurposeReader.t A) :
  1 <= n <= 1024 * MultiPurposeReader.DEFAULT_BUFFER_SIZE ->
  zlen (MultiPurposeReader._raw r) <= 1024 * MultiPurposeReader.DEFAULT_BUFFER_SIZE ->
  (MultiPurposeReader.read n r).1 = MultiPurposeReader._raw r
  /\ MultiPurposeReader._raw (MultiPurposeReader.read n r).2 = []
  /\ (MultiPurposeReader.read 0 r).1 = []
  /\ MultiPurposeReader.len (MultiPurposeReader.read 0 r).2 = 0
  /\ MultiPurposeReader._raw (MultiPurposeReader.read 0 r).2
     = MultiPurposeReader._raw r.
Proof.
  intros Hn Hlen. unfold MultiPurposeReader.read.
  set (force := 1024 * MultiPurposeReader.DEFAULT_BUFFER_SIZE) in *.
  assert (Hforce : 0 < force) by (vm_compute; done).
  destruct (decide (n = -1 \/ n = 0 \/ n > force)) as [[?|[?|?]]|_]; [lia..|].
  destruct (decide (0 = -1 \/ 0 = 0 \/ 0 > force)) as [_|Hno]; [|exfalso; apply Hno; lia].
  unfold MultiPurposeReader.raw_read.
  destruct (decide (force < 0)); [lia|]. destruct (decide (0 < 0)); [lia|].
  cbn. unfold zlen in Hlen.
  rewrite take_ge, drop_ge by lia. rewrite drop_0. done.
Qed.

End MultiPurposeReaderFacts.

Section MultiPurposeReaderWitnesses.

Lemma multi_purpose_reader_tracks_remaining_witness :
  let r := MultiPurposeReader.mk 3 [Byte.x61; Byte.x62; Byte.x63]
             hash_new hash_new in
  MultiPurposeReader.len (multi_purpose_reads [2; -1] r).2
  = zlen (MultiPurposeReader._raw (multi_purpose_reads [2; -1] r).2).
Proof.
  intros r.
  exact (proj1 (proj2 (multi_purpose_reader_tracks_remaining [2; -1] r
                         ltac:(repeat constructor; lia) eq_refl))).
Defined.

Lemma multi_purpose_reader_forces_the_read_size_witness :
  let r := MultiPurposeReader.mk 3 [Byte.x61; Byte.x62; Byte.x63]
             hash_new hash_new in
  (MultiPurposeReader.read 1 r).1 = [Byte.x61; Byte.x62; Byte.x63].
Proof.
  intros r.
  exact (proj1 (multi_purpose_reader_forces_the_read_size 1 r
                  ltac:(vm_compute; split; discriminate)
                  ltac:(vm_compute; discriminate))).
Defined.

End MultiPurposeReaderWitnesses.

(** ** The plan, continued *)

Section PlanMore.
Import Zipfile IrodsUtils.

Lemma sort_update_untouched files : forall (m : gmap Z data_object) k,
  Forall (fun g => size g <> k) files ->
  foldl sort_update m files !! k = m !! k.
Proof.
  induction files as [|g files IH]; intros m k Hk; cbn; [done|].
  inversion Hk as [|? ? Hg Hk']; subst.
  rewrite IH by done. unfold sort_update. by rewrite lookup_insert_ne.
Qed.

Lemma sort_update_last files : forall (m : gmap Z data_object) k f,
  foldl sort_update m files !! k = Some f ->
  (m !! k = Some f /\ Forall (fun g => size g <> k) files)
  \/ exists l1 l2, files = l1 ++ f :: l2 /\ size f = k
                   /\ Forall (fun g => size g <> k) l2.
Proof.
  induction files as [|g files IH] using rev_ind; intros m k f H.
  - left. done.
  - rewrite foldl_app in H. cbn in H. unfold sort_update in H.
    apply lookup_insert_Some in H as [[<- <-]|[Hne H]].
    + right. exists files, []. done.
    + apply IH in H as [[Hm Hall]|(l1 & l2 & -> & Hs & Hall)].
      * left. split; [done|]. apply Forall_app. split; [done|].
        by repeat constructor.
      * right. exists l1, (l2 ++ [g]). rewrite <- app_assoc. cbn.
        repeat split; [done|]. apply Forall_app. split; [done|].
        by repeat constructor.
Qed.

(** X9.  The plan is ordered by size, strictly descending, so it has at
    most one entry per size; every entry is a file of the walk filed under
    its own size, and every size that occurs in the walk has an entry. *)
Theorem plan_is_strictly_descending_by_size (collection : list walk_item) :
  StronglySorted (fun a b : Z * data_object => b.1 < a.1)
                 (sort_path_by_size collection)
  /\ (forall k f, (k, f) ∈ sort_path_by_size collection ->
        k = size f /\ f ∈ walked_files collection)
  /\ (forall f, f ∈ walked_files collection ->
        exists g, (size f, g) ∈ sort_path_by_size collection).
Proof.
  split; [apply plan_strictly_descending|]. split.
  - intros k f. apply plan_entries_are_walked_files.
  - intros f. apply every_size_is_planned.
Qed.

(** X10.  Of the walked files that have the same size, the one walked last
    is the one in the plan: [(k, f)] is an entry exactly when [f] has size
    [k] and no file walked after [f] has size [k]. *)
Theorem plan_keeps_the_last_file_of_each_size (collection : list walk_item)
    (k : Z) (f : data_object) :
  (k, f) ∈ sort_path_by_size collection
  <-> exists l1 l2, walked_files collection = l1 ++ f :: l2 /\ size f = k
                    /\ Forall (fun g => size g <> k) l2.
Proof.
  unfold sort_path_by_size. rewrite merge_sort_Permutation.
  rewrite elem_of_map_to_list, sort_dict_walked. split.
  - intros H. apply sort_update_last in H as [[H _]|H]; [|done].
    by rewrite lookup_empty in H.
  - intros (l1 & l2 & -> & Hs & Hall). rewrite foldl_app. cbn [foldl].
    rewrite sort_update_untouched by done.
    unfold sort_update. rewrite Hs. apply lookup_insert_eq.
Qed.

(** X11.  When no two walked files have the same size, the list of files
    that is sized and zipped holds exactly the walked files, each once, in
    the order of the plan. *)
Theorem distinct_sizes_keep_every_file (collection : list walk_item)
    (rulemanager : string -> string) (upload_success : gmap string entry) :
  NoDup (size <$> walked_files collection) ->
  (collection_zip_preparation collection rulemanager upload_success).1.1
    ≡ₚ walked_files collection
  /\ (collection_zip_preparation collection rulemanager upload_success).1.1
     = (sort_path_by_size collection).*2.
Proof.
  intros Hnd. unfold collection_zip_preparation. cbn [fst].
  rewrite prep_loop_data. split; [by apply plan_of_distinct_sizes|done].
Qed.

Lemma prep_loop_seeded rulemanager items : forall st p,
  seeded (foldl (prep_step rulemanager) st items) !! p
  = if decide (p ∈ path <$> items.*2)
    then Some (Digest (rulemanager p))
    else seeded st !! p.
Proof.
  induction items as [|[k f] items IH] using rev_ind; intros st p.
  - cbn. destruct (decide _) as [H|_]; [by apply elem_of_nil in H|done].
  - rewrite foldl_app. cbn [foldl prep_step seeded].
    rewrite !fmap_app. cbn [fmap list_fmap snd].
    destruct (decide (p = path f)) as [->|Hne].
    + rewrite lookup_insert_eq.
      destruct (decide _) as [_|Hn]; [done|].
      exfalso. apply Hn. apply elem_of_app. right. by left.
    + rewrite lookup_insert_ne by done. rewrite IH.
      destruct (decide (p ∈ path <$> items.*2)) as [Hin|Hn];
        destruct (decide (p ∈ _ ++ _)) as [Hin2|Hn2]; try done.
      * exfalso. apply Hn2. apply elem_of_app. by left.
      * exfalso. apply elem_of_app in Hin2 as [?|Hin2]; [done|].
        apply elem_of_cons in Hin2 as [?|Hin2]; [done|].
        by apply elem_of_nil in Hin2.
Qed.

(** X12.  After the preparation the [upload_success] dict holds, for the
    path of every file that is going to be zipped, the digest the remote
    source gave for that path, whatever the dict held for it before; every
    other key is as it was. *)
Theorem preparation_seeds_the_remote_digests (collection : list walk_item)
    (rulemanager : string -> string) (upload_success : gmap string entry)
    (p : string) :
  let r := collection_zip_preparation collection rulemanager upload_success in
  r.2 !! p
  = if decide (p ∈ path <$> r.1.1)
    then Some (Digest (rulemanager p))
    else upload_success !! p.
Proof.
  cbn. unfold prep_loop. rewrite prep_loop_seeded.
  fold (prep_loop rulemanager upload_success (sort_path_by_size collection)).
  rewrite prep_loop_data. done.
Qed.

End PlanMore.

Section PlanMoreWitnesses.
Import Zipfile IrodsUtils.

Lemma distinct_sizes_keep_every_file_witness :
  let a := mkObject "/zone/a" "a" 5 in
  let c := mkObject "/zone/c" "c" 7 in
  (collection_zip_preparation [("/zone", [], [a; c])] (fun _ => "h") ∅).1.1
  ≡ₚ [a; c].
Proof.
  intros a c.
  refine (proj1 (distinct_sizes_keep_every_file [("/zone", [], [a; c])]
                   (fun _ => "h") ∅ _)).
  apply (bool_decide_unpack _). vm_compute. exact I.
Defined.

End PlanMoreWitnesses.

(** ** Size prediction and the archive generator, continued *)

Section SizeLawMore.
Import Zipfile IrodsUtils ArchiveSize.

Variable session : string -> remote_object.
Variable rulemanager : string -> string.


Lemma central_size_cases (f : data_object) (off : Z) :
  plain_name (path f) ->
  central_size (member_info session f off)
  = 46 + py_len (path f)
    + (if decide (stored_bytes session f > ZIP64_LIMIT)
       then (if decide (off > ZIP64_LIMIT) then 28 else 20)
       else (if decide (off > ZIP64_LIMIT) then 12 else 0)).
Proof.
  intros [Hascii Hnull].
  unfold central_size, central_extra_data, central_extra.
  cbn [member_info file_size compress_size header_offset extra comment filename].
  assert (Hn : piece_size (Encoded (until_null (path f))) = py_len (path f)).
  { cbn. by rewrite Hnull, Hascii. }
  rewrite Hn. change sizeCentralDir with 46.
  destruct (decide (stored_bytes session f > ZIP64_LIMIT \/ _)) as [Hb|Hb];
    destruct (decide (stored_bytes session f > ZIP64_LIMIT)) as [Hb'|Hb'];
    try (exfalso; tauto);
    destruct (decide (off > ZIP64_LIMIT));
    repeat match goal with
           | |- context [blen piece_size ?l] =>
               let v := eval vm_compute in (blen piece_size l) in
               change (blen piece_size l) with v
           end; lia.
Qed.

Lemma plan_sizes_bounded (data : list data_object) :
  forall T z off dir d0 us0,
  honours session data ->
  Forall (fun f => 0 <= size f /\ plain_name (path f)) data ->
  off + dir <= T -> 0 <= off -> 0 <= dir ->
  (z = false -> T < ZIP64_LIMIT) ->
  let st := foldl (prep_step rulemanager) (mkPrep d0 T z us0) (plan_of data) in
  members_end session data off
  + (dir + directory_size (members_infos session data off)) <= total st
  /\ (zip64 st = false -> total st < ZIP64_LIMIT)
  /\ off <= members_end session data off.
Proof.
  induction data as [|f data IH]; intros T z off dir d0 us0 Hh Hp HT Hoff Hdir Hz.
  - cbn. repeat split; try lia. exact Hz.
  - inversion Hh as [|? ? Hhf Hh']; subst.
    inversion Hp as [|? ? [Hsz Hplain] Hp']; subst.
    change (plan_of (f :: data)) with ((size f, f) :: plan_of data).
    cbn [foldl].
    assert (Hstored : stored_bytes session f = size f).
    { unfold stored_bytes. rewrite read_blocks_total, Hhf. lia. }
    assert (Hname : name_size (path f) = py_len (path f)).
    { destruct Hplain as [Ha Hn]. unfold name_size. cbn. by rewrite Hn, Ha. }
    assert (Hlocal : local_size session f
                     = 30 + py_len (path f) + 20 + size f + 24).
    { unfold local_size. rewrite Hstored, Hname. reflexivity. }
    assert (0 <= py_len (path f)) by (unfold py_len; lia).
    pose proof (central_size_cases f off Hplain) as Hcentral.
    rewrite Hstored in Hcentral.
    set (T1 := T + calc_zip_block (size f) (path f) z).
    set (z1 := if decide (T1 >= ZIP64_LIMIT) then true else z).
    assert (Hstep : prep_step rulemanager (mkPrep d0 T z us0) (size f, f)
                    = mkPrep (d0 ++ [f]) T1 z1
                        (<[path f := Digest (rulemanager (path f))]> us0))
      by reflexivity.
    rewrite Hstep.
    assert (Hle : (off + local_size session f)
                  + (dir + central_size (member_info session f off)) <= T1).
    { unfold T1, calc_zip_block. rewrite Hcentral, Hlocal.
      destruct (decide (size f >= ZIP64_LIMIT));
        destruct (decide (size f > ZIP64_LIMIT));
        destruct (decide (off > ZIP64_LIMIT));
        destruct z; try lia;
        specialize (Hz eq_refl); lia. }
    assert (Hz1 : z1 = false -> T1 < ZIP64_LIMIT).
    { unfold z1. destruct (decide (T1 >= ZIP64_LIMIT)); [discriminate|lia]. }
    assert (Hc0 : 0 <= central_size (member_info session f off)).
    { rewrite Hcentral. repeat case_decide; lia. }
    destruct (IH T1 z1 (off + local_size session f)
                 (dir + central_size (member_info session f off))
                 (d0 ++ [f]) (<[path f := Digest (rulemanager (path f))]> us0)
                 Hh' Hp' Hle ltac:(lia) ltac:(lia) Hz1) as (Hsum & Hflag & Hend).
    cbn [members_end members_infos]. rewrite directory_size_cons.
    repeat split; [lia|exact Hflag|lia].
Qed.


Lemma step_upload_success (st : pipeline) :
  upload_success (archive_generator_step st) = upload_success st.
Proof.
  unfold archive_generator_step. destruct (get (stream_of st)) as [s stream'].
  destruct (decide _); reflexivity.
Qed.

Lemma write_chunks_upload_success chunks : forall dest st dest' st',
  write_chunks archive_generator_step chunks dest st = Ok (dest', st') ->
  upload_success st' = upload_success st.
Proof.
  induction chunks as [|c chunks IH]; intros dest st dest' st' H;
    cbn [write_chunks] in H.
  - by inversion H.
  - destruct (member_write [Payload c] dest (zip_buffer st))
      as [[[n dest1] zf1]|e] eqn:Hm;
      cbn [mbind result_bind mret result_ret] in H; [|discriminate].
    apply IH in H. rewrite H, step_upload_success. reflexivity.
Qed.

Lemma zip_member_upload_success f st st' :
  zip_member archive_generator_step session f st = Ok st' ->
  upload_success st' = mark_match session (upload_success st) f.
Proof.
  unfold zip_member. intros H.
  destruct (_open_to_write _ true (zip_buffer st)) as [[dest zf1]|e] eqn:Ho;
    cbn [mbind result_bind mret result_ret] in H; [|discriminate].
  destruct (write_chunks archive_generator_step _ dest (with_zip zf1 st))
    as [[dest1 st1]|e] eqn:Hw;
    cbn [mbind result_bind mret result_ret] in H; [|discriminate].
  destruct (member_close dest1 (zip_buffer st1)) as [zf2|e] eqn:Hc;
    cbn [mbind result_bind mret result_ret] in H; [|discriminate].
  apply write_chunks_upload_success in Hw.
  change (upload_success (with_zip zf1 st)) with (upload_success st) in Hw.
  inversion H; subst. cbn [upload_success]. rewrite Hw. reflexivity.
Qed.

Lemma zip_members_upload_success data : forall st st',
  zip_members archive_generator_step session data st = Ok st' ->
  upload_success st' = foldl (mark_match session) (upload_success st) data.
Proof.
  induction data as [|f data IH]; intros st st' H; cbn [zip_members] in H.
  - by inversion H.
  - destruct (zip_member archive_generator_step session f st) as [st1|e] eqn:Hm;
      cbn [mbind result_bind mret result_ret] in H; [|discriminate].
    apply IH in H. apply zip_member_upload_success in Hm.
    rewrite H, Hm. reflexivity.
Qed.

Lemma mark_match_lookup data : forall (us : gmap string entry) k,
  foldl (mark_match session) us data !! k
  = if decide (k ∈ path <$> data
               /\ us !! k = Some (Digest (stored_sha256 (session k))))
    then Some PyTrue else us !! k.
Proof.
  induction data as [|f data IH]; intros us k.
  - cbn. destruct (decide _) as [[H _]|_]; [by apply elem_of_nil in H|done].
  - cbn [foldl]. rewrite IH. rewrite fmap_cons. unfold mark_match.
    destruct (decide (k = path f)) as [->|Hne].
    + destruct (decide (us !! path f = _)) as [Heq|Hneq].
      * rewrite lookup_insert_eq.
        destruct (decide (_ /\ Some PyTrue = _)) as [[_ ?]|_]; [done|].
        destruct (decide (path f ∈ path f :: _ /\ _)) as [_|Hn]; [done|].
        exfalso. apply Hn. split; [by left|done].
      * destruct (decide (path f ∈ path <$> data /\ _)) as [[_ ?]|_]; [done|].
        destruct (decide (path f ∈ path f :: _ /\ _)) as [[_ ?]|_]; done.
    + assert (Hsame : (if decide (us !! path f
                                  = Some (Digest (stored_sha256 (session (path f)))))
                       then <[path f := PyTrue]> us else us) !! k = us !! k).
      { destruct (decide _); [by rewrite lookup_insert_ne|done]. }
      rewrite Hsame.
      destruct (decide (k ∈ path <$> data /\ _)) as [[Hin Hd]|Hn];
        destruct (decide (k ∈ path f :: _ /\ _)) as [[Hin2 Hd2]|Hn2]; try done.
      * exfalso. apply Hn2. split; [by right|done].
      * exfalso. apply Hn. apply elem_of_cons in Hin2 as [?|Hin2]; done.
Qed.




End SizeLawMore.

Section SizeLawMoreWitnesses.
Import Zipfile IrodsUtils ArchiveSize.




End SizeLawMoreWitnesses.

(** ** The client, continued *)

Section ClientMore.
Import IrodsUtils DataverseClient.

Variable rule_checksum : string -> string.
Variable md5_of : list Byte.byte -> string.

Local Abbreviation queried := (foldl (fun got p => <[p := rule_checksum p]> got)).
Local Abbreviation quiet := (Forall (fun e => ~ is_final_action e)).

(** The loop of [_validate_checksum] touches the entries and the log only,
    adds no key, and takes no final action. *)
Lemma check_keys_frame chksums keys : forall count self,
  deletion (check_keys chksums keys count self).2 = deletion self
  /\ irods_md5 (check_keys chksums keys count self).2 = irods_md5 self
  /\ (forall k,
        is_Some (DataverseClient.upload_success
                   (check_keys chksums keys count self).2 !! k)
        <-> is_Some (DataverseClient.upload_success self !! k))
  /\ exists cs,
       trace (check_keys chksums keys count self).2 = trace self ++ cs
       /\ quiet cs.
Proof.
  induction keys as [|k keys IH]; intros count [url us h p del tr].
  - cbn. repeat split; try done. exists []. by rewrite app_nil_r.
  - cbn [check_keys]. unfold check_key.
    cbn [DataverseClient.upload_success].
    destruct (us !! k) as [v|] eqn:Hus.
    2:{ cbn. repeat split; try done. exists []. by rewrite app_nil_r. }
    destruct (chksums !! k) as [c|] eqn:Hc.
    2:{ cbn. repeat split; try done. exists []. by rewrite app_nil_r. }
    destruct (entry_equals v c) eqn:He.
    + match goal with
      | |- context [check_keys chksums keys ?n ?s] =>
          destruct (IH n s) as (Hd & Hm & Hk & cs & Hcs & Hq)
      end.
      rewrite Hd, Hm, Hcs. cbn.
      repeat split; try done.
      * intros H. apply Hk in H. cbn in H.
        by apply lookup_insert_is_Some' in H as [->|H].
      * intros H. apply Hk. cbn. apply lookup_insert_is_Some'. by right.
      * exists (Compared k true :: cs). split; [|constructor; [by intros []|done]].
        rewrite <- app_assoc. reflexivity.
    + match goal with
      | |- context [check_keys chksums keys ?n ?s] =>
          destruct (IH n s) as (Hd & Hm & Hk & cs & Hcs & Hq)
      end.
      rewrite Hd, Hm, Hcs. cbn.
      repeat split; try done; try apply Hk.
      exists (Compared k false :: cs). split; [|constructor; [by intros []|done]].
      rewrite <- app_assoc. reflexivity.
Qed.

(** The loop raises as soon as it meets a key the fetched mapping lacks. *)
Lemma check_keys_raises chksums keys : forall count self,
  (forall k, k ∈ keys -> is_Some (DataverseClient.upload_success self !! k)) ->
  (exists k, k ∈ keys /\ chksums !! k = None) ->
  exists k, (check_keys chksums keys count self).1 = Raise (KeyError k)
            /\ k ∈ keys /\ chksums !! k = None.
Proof.
  induction keys as [|k0 keys IH]; intros count [url us h p del tr] Hin [k [Hk Hnone]].
  - by apply elem_of_nil in Hk.
  - cbn [check_keys]. unfold check_key. cbn [DataverseClient.upload_success] in *.
    destruct (Hin k0) as [v Hv]; [by left|]. rewrite Hv.
    destruct (chksums !! k0) as [c|] eqn:Hc.
    2:{ exists k0. repeat split; [by left|done]. }
    assert (Hrest : exists k, k ∈ keys /\ chksums !! k = None).
    { exists k. split; [|done]. apply elem_of_cons in Hk as [->|Hk]; [congruence|done]. }
    assert (Hin' : forall k, k ∈ keys -> is_Some (us !! k)).
    { intros k' Hk'. apply Hin. by right. }
    destruct (entry_equals v c).
    + match goal with
      | |- context [check_keys chksums keys ?n ?s] =>
          destruct (IH n s) as (k1 & Hr & Hk1 & Hn1);
            [|exact Hrest|exists k1; repeat split; [exact Hr|by right|done]]
      end.
      cbn. intros k' Hk'. apply lookup_insert_is_Some'. right. by apply Hin'.
    + match goal with
      | |- context [check_keys chksums keys ?n ?s] =>
          destruct (IH n s) as (k1 & Hr & Hk1 & Hn1);
            [exact Hin'|exact Hrest|exists k1; repeat split; [exact Hr|by right|done]]
      end.
Qed.

(** [_validate_checksum] leaves the deletion flag and the whole-stream
    digest alone and takes no final action, whether it returns or raises. *)
Lemma validate_checksum_frame url us h q got del tr :
  let out := _validate_checksum rule_checksum
               (mk url us h (Some (mkWorker q got)) del tr) in
  deletion out.2 = del
  /\ irods_md5 out.2 = h
  /\ exists cs, trace out.2 = tr ++ cs /\ quiet cs.
Proof.
  cbn zeta. rewrite validate_checksum_mk.
  set (pre := [StatusUpdate UPLOAD_ZIPPED_COLLECTION VALIDATE_CHECKSUM; PoolClosed]
              ++ (WorkerQueried <$> q)
              ++ [PoolJoined; ResultRead (queried got q)]).
  assert (Hpre : quiet pre).
  { unfold pre. repeat (apply Forall_app; split); repeat constructor;
      try (by intros []).
    apply Forall_fmap, Forall_forall. by intros ? _ []. }
  clearbody pre.
  match goal with
  | |- context [check_keys ?c ?k ?n ?s] =>
      destruct (check_keys_frame c k n s) as (Hd & Hm & _ & cs & Hcs & Hq);
      destruct (check_keys c k n s) as [[count|e] self1]
  end; cbn [snd deletion irods_md5 trace] in Hd, Hm, Hcs.
  - destruct (decide _); cbn [snd].
    + repeat split; try done. exists (pre ++ cs).
      split; [by rewrite Hcs, app_assoc|by apply Forall_app].
    + destruct self1 as [url1 us1 h1 p1 del1 tr1].
      cbn [deletion irods_md5 trace] in Hd, Hm, Hcs. subst.
      cbn [update_metadata_status log deletion irods_md5 trace
           dataset_deposit_url DataverseClient.upload_success pool].
      repeat split.
      exists (pre ++ cs ++ [StatusUpdate VALIDATE_UPLOAD UPLOAD_CORRUPTED]).
      split; [by rewrite <- !app_assoc|].
      repeat (apply Forall_app; split); try done.
      repeat constructor. by intros [].
  - cbn [snd]. repeat split; try done. exists (pre ++ cs).
    split; [by rewrite Hcs, app_assoc|by apply Forall_app].
Qed.

(** Whether [_validate_checksum] returns or raises, and what it answers. *)
Lemma validate_checksum_outcome url us h q got del tr :
  match (_validate_checksum rule_checksum
           (mk url us h (Some (mkWorker q got)) del tr)).1 with
  | Ok validated =>
      (forall k, is_Some (us !! k) -> is_Some (queried got q !! k))
      /\ (validated = true
          <-> forall k v, us !! k = Some v ->
                exists c, queried got q !! k = Some c /\ entry_equals v c = true)
  | Raise e =>
      exists k, e = KeyError k /\ is_Some (us !! k) /\ queried got q !! k = None
  end.
Proof.
  set (chk := queried got q).
  destruct (decide (Forall (fun k => is_Some (chk !! k)) (map_to_list us).*1))
    as [Hall|Hsome].
  - assert (Hf : forall k, is_Some (us !! k) -> is_Some (chk !! k)).
    { intros k [v Hv]. eapply Forall_forall in Hall; [exact Hall|].
      apply list_elem_of_fmap. exists (k, v). split; [done|].
      by apply elem_of_map_to_list. }
    destruct (validate_checksum_compares_entries rule_checksum url us h q got del tr Hf)
      as (validated & self' & Heq & Hiff & _).
    rewrite Heq. cbn [fst]. split; [exact Hf|exact Hiff].
  - apply not_Forall_Exists in Hsome; [|apply _].
    apply Exists_exists in Hsome as (k & Hk & Hnone).
    assert (Hn : chk !! k = None) by (by apply eq_None_not_Some).
    rewrite validate_checksum_mk.
    match goal with
    | |- context [check_keys ?c ?ks ?n ?s] =>
        destruct (check_keys_raises c ks n s) as (k1 & Hr & Hk1 & Hn1)
    end.
    + cbn. intros k' Hk'. apply list_elem_of_fmap in Hk' as ([k'' v] & -> & Hk').
      apply elem_of_map_to_list in Hk'. by exists v.
    + by exists k.
    + match goal with
      | |- context [check_keys ?c ?ks ?n ?s] =>
          destruct (check_keys c ks n s) as [[count|e] self1]
      end; cbn [fst] in Hr; [discriminate|].
      injection Hr as ->. cbn [fst]. exists k1. repeat split; [|done].
      apply list_elem_of_fmap in Hk1 as ([k'' v] & -> & Hk1).
      apply elem_of_map_to_list in Hk1. by exists v.
Qed.

(** X18.  [_validate_checksum] on a client whose pool holds the checksum
    job, for every state of the entries: it raises [KeyError] when the
    fetched mapping lacks a key of [upload_success], and only then; when it
    returns, it answers true exactly if every entry equals the digest
    fetched for its path, so that a single entry that is already [True]
    makes it answer false. *)
Theorem validate_checksum_outcomes
    (url : option string) (us : gmap string entry) (h : hash_object Byte.byte)
    (q : list string) (got : gmap string string) (del : bool)
    (tr : list event) :
  let chksums := foldl (fun got p => <[p := rule_checksum p]> got) got q in
  match (_validate_checksum rule_checksum
           (mk url us h (Some (mkWorker q got)) del tr)).1 with
  | Ok validated =>
      (forall k, is_Some (us !! k) -> is_Some (chksums !! k))
      /\ (validated = true
          <-> forall k v, us !! k = Some v ->
                exists c, chksums !! k = Some c /\ entry_equals v c = true)
      /\ (forall k, us !! k = Some PyTrue -> validated = false)
  | Raise e =>
      exists k, e = KeyError k /\ is_Some (us !! k) /\ chksums !! k = None
  end.
Proof.
  cbn zeta.
  pose proof (validate_checksum_outcome url us h q got del tr) as H.
  destruct (_validate_checksum _ _).1 as [validated|e]; [|exact H].
  destruct H as [Hf Hiff]. repeat split; try apply Hiff; try exact Hf.
  intros k Hk. destruct validated; [|done].
  destruct (proj1 Hiff eq_refl k PyTrue Hk) as (c & _ & Hc). discriminate.
Qed.

End ClientMore.


Section ImportFiles.
Import IrodsUtils DataverseClient.

Variable rule_checksum : string -> string.
Variable md5_of : list Byte.byte -> string.

Local Abbreviation queried := (foldl (fun got p => <[p := rule_checksum p]> got)).
Local Abbreviation quiet := (Forall (fun e => ~ is_final_action e)).

(** [_validate_upload] leaves the deletion flag alone, takes no final
    action, and answers true for a 200 response that reports the local
    whole-stream digest, and for no other. *)
Lemma validate_upload_outcome (response : DataverseClient.response) (self : t) :
  deletion (_validate_upload md5_of response self).2 = deletion self
  /\ (exists cs, trace (_validate_upload md5_of response self).2 = trace self ++ cs
                 /\ quiet cs)
  /\ ((_validate_upload md5_of response self).1 = Ok true
      <-> status_code response = HTTP_OK
          /\ reported_md5 response = Some (hexdigest md5_of (irods_md5 self))).
Proof.
  destruct self as [url us h p del tr]. unfold _validate_upload.
  cbn [update_metadata_status log irods_md5 dataset_deposit_url
       DataverseClient.upload_success pool deletion trace].
  destruct (decide (status_code response = HTTP_OK)) as [Hs|Hs].
  - destruct (reported_md5 response) as [m|] eqn:Hm.
    + destruct (decide (m = hexdigest md5_of h)) as [->|Hne]; cbn.
      * repeat split; try done.
        eexists. split; [rewrite <- app_assoc; reflexivity|].
        repeat constructor; by intros [].
      * repeat split; try done.
        -- eexists. split; [rewrite <- app_assoc; reflexivity|].
           repeat constructor; by intros [].
        -- intros [_ Heq]. exfalso. apply Hne. by injection Heq.
    + cbn. repeat split; try done.
      * eexists. split; [reflexivity|]. repeat constructor; by intros [].
      * by intros [_ ?].
  - cbn. repeat split; try done.
    + eexists. split; [rewrite <- app_assoc; reflexivity|].
      repeat constructor; by intros [].
    + by intros [? _].
Qed.


End ImportFiles.


(** ** The archive generator and the per-file validation together *)

Section IntactFile.
Import Zipfile IrodsUtils ArchiveSize DataverseClient.

Variable session : string -> remote_object.
Variable rulemanager : string -> string.

Lemma archive_generator_upload_success data us chunks us' :
  archive_generator data stream_init session us = Ok (chunks, us') ->
  us' = foldl (mark_match session) us data.
Proof.
  intros Hgen. unfold archive_generator, zip_collection in Hgen.
  destruct (zip_members archive_generator_step session data _)
    as [st1|e] eqn:Hm;
    cbn [mbind result_bind mret result_ret] in Hgen; [|discriminate].
  destruct (ZipFile_close (zip_buffer st1)) as [zf|e] eqn:Hc;
    cbn [mbind result_bind mret result_ret] in Hgen; [|discriminate].
  apply zip_members_upload_success in Hm.
  rewrite step_upload_success in Hm. cbn [IrodsUtils.upload_success] in Hm.
  inversion Hgen; subst. rewrite step_upload_success.
  change (IrodsUtils.upload_success (with_zip zf st1))
    with (IrodsUtils.upload_success st1).
  exact Hm.
Qed.

Lemma get_zip_generator_upload_success collection us irods_md5 :
  Forall (fun f => 0 <= size f) (walked_files collection) ->
  exists reader,
    get_zip_generator collection session us rulemanager irods_md5
    = Ok (reader,
          foldl (mark_match session)
                (collection_zip_preparation collection rulemanager us).2
                (collection_zip_preparation collection rulemanager us).1.1).
Proof.
  intros Hnn. unfold get_zip_generator, collection_zip_preparation.
  cbn [fst snd].
  set (st := prep_loop rulemanager us (sort_path_by_size collection)).
  destruct (archive_length_correct session (IrodsUtils.data st) (seeded st))
    as (chunks & us' & Hgen & Hlen & Hch).
  rewrite Hgen. cbn [mbind result_bind mret result_ret].
  apply archive_generator_upload_success in Hgen. subst us'.
  assert (Hitems : Forall (fun it : Z * data_object => 0 <= it.1)
                          (sort_path_by_size collection)).
  { apply Forall_forall. intros [k f] Hin.
    apply plan_entries_are_walked_files in Hin as [-> Hin].
    eapply Forall_forall in Hnn; [|exact Hin]. exact Hnn. }
  assert (Htot : 0 <= total st).
  { pose proof (running_total_nonneg rulemanager us _ Hitems
                  (length (sort_path_by_size collection))) as H.
    rewrite running_past in H by lia. exact H. }
  assert (Hfin : ~ prep_finish st < 0).
  { unfold prep_finish. destruct (zip64 st); lia. }
  unfold IteratorAsBinaryFile.init.
  destruct (decide (prep_finish st < 0)); [done|].
  cbn [mbind result_bind mret result_ret].
  eexists. reflexivity.
Qed.


End IntactFile.

Section IntactFileWitness.
Import Zipfile IrodsUtils ArchiveSize DataverseClient.


End IntactFileWitness.


(** ** The tar block size *)

Section TarBlock.

(** X21.  [calc_tar_block] returns a number for every integer: the implicit
    [None] after the [elif] is never reached.  The number is at least 512
    and at least [nb], and it is a multiple of 512 only when [nb] is below
    512 or is one itself: from 512 on it is [nb] rounded up to the next
    multiple of 512, plus the remainder of [nb]. *)
Theorem calc_tar_block_is_total_and_not_a_rounding (nb : Z) :
  exists v,
    calc_tar_block nb = Some v
    /\ 512 <= v /\ nb <= v
    /\ (v `mod` 512 = 0 <-> nb < 512 \/ nb `mod` 512 = 0)
    /\ v = if decide (nb < 512) then 512
           else 512 * ((nb + 511) `div` 512) + nb `mod` 512.
Proof.
  unfold calc_tar_block.
  pose proof (Z.mod_pos_bound nb 512 ltac:(lia)) as Hr.
  pose proof (Z.div_mod nb 512 ltac:(lia)) as Hdm.
  destruct (decide (nb < 512)) as [Hlt|Hge].
  - exists 512. split; [reflexivity|]. split; [lia|]. split; [lia|].
    split; [|reflexivity]. split; [by left|reflexivity].
  - destruct (decide (nb `mod` 512 = 0)) as [H0|Hn0].
    + exists nb. split; [reflexivity|]. split; [lia|]. split; [lia|].
      split; [split; [by right|done]|].
      rewrite H0, Z.add_0_r in *.
      assert (Hq : (nb + 511) `div` 512 = nb `div` 512).
      { replace (nb + 511) with (511 + nb `div` 512 * 512) by lia.
        rewrite Z.div_add by lia. reflexivity. }
      rewrite Hq. lia.
    + destruct (decide (nb `mod` 512 > 0)) as [_|Hneg]; [|lia].
      exists (nb + 512). split; [reflexivity|]. split; [lia|]. split; [lia|].
      assert (Hm : (nb + 512) `mod` 512 = nb `mod` 512).
      { replace (nb + 512) with (nb + 1 * 512) by lia.
        by rewrite Z.mod_add by lia. }
      split; [rewrite Hm; split; [intros ?; by right|intros [?|?]; lia]|].
      assert (Hq : (nb + 511) `div` 512 = nb `div` 512 + 1).
      { replace (nb + 511)
          with ((nb `mod` 512 - 1) + (nb `div` 512 + 1) * 512) by lia.
        rewrite Z.div_add by lia.
        rewrite Z.div_small by lia. lia. }
      rewrite Hq. lia.
Qed.

End TarBlock.


(** ** The metadata mapper *)

Section MapperFacts.
Import MetadataMapper.

Ltac osimpl := cbn [mbind outcome_bind mret outcome_ret].

Lemma dict_get_set_eq d k v : dict_get (dict_set d k v) k = Some v.
Proof.
  induction d as [|[k' v'] d IH]; cbn.
  - by rewrite decide_True.
  - destruct (decide (k' = k)) as [->|Hne]; cbn.
    + by rewrite decide_True.
    + by rewrite decide_False.
Qed.

Lemma dict_get_set_ne d k k' v :
  k <> k' -> dict_get (dict_set d k v) k' = dict_get d k'.
Proof.
  intros Hne. induction d as [|[k0 v0] d IH]; cbn.
  - by rewrite decide_False.
  - destruct (decide (k0 = k)) as [->|Hne0]; cbn.
    + by rewrite !decide_False.
    + destruct (decide (k0 = k')); [done|exact IH].
Qed.

Lemma split_cons sep s : exists seg segs, split sep s = seg :: segs.
Proof.
  induction s as [|c s (seg & segs & IH)]; cbn; [by eauto|].
  destruct (Ascii.eqb c sep); [by eauto|]. rewrite IH. by eauto.
Qed.

(** Joining the segments gives the string back. *)
Lemma join_split sep s : join sep (split sep s) = s.
Proof.
  induction s as [|c s IH]; [done|]. cbn [split].
  destruct (Ascii.eqb c sep) eqn:Hc.
  - apply Ascii.eqb_eq in Hc as ->.
    destruct (split_cons sep s) as (seg & segs & Hs).
    rewrite Hs in *. rewrite <- IH. reflexivity.
  - destruct (split_cons sep s) as (seg & segs & Hs).
    rewrite Hs in *. rewrite <- IH.
    destruct segs as [|seg' segs]; reflexivity.
Qed.

(** No segment holds the separator. *)
Lemma split_segments sep s :
  Forall (fun seg => occurs sep seg = false) (split sep s).
Proof.
  induction s as [|c s IH]; cbn [split]; [by repeat constructor|].
  destruct (Ascii.eqb c sep) eqn:Hc.
  - by constructor.
  - destruct (split_cons sep s) as (seg & segs & Hs). rewrite Hs in *.
    inversion IH; subst. constructor; [|done]. cbn. by rewrite Hc.
Qed.

(** A string with a separator has at least two segments, and only such
    a string. *)
Lemma split_two sep s :
  occurs sep s = true <-> exists a b rest, split sep s = a :: b :: rest.
Proof.
  induction s as [|c s IH]; cbn [split occurs].
  - split; [done|]. by intros (a & b & rest & ?).
  - destruct (Ascii.eqb c sep) eqn:Hc; cbn [orb].
    + split; [intros _|done].
      destruct (split_cons sep s) as (seg & segs & Hs). rewrite Hs. by eauto.
    + destruct (split_cons sep s) as (seg & segs & Hs). rewrite Hs in *.
      rewrite IH. split.
      * intros (a & b & rest & Heq). injection Heq as -> ->. by eauto.
      * intros (a & b & rest & Heq). injection Heq as _ ->. by eauto.
Qed.

Lemma finish_fields new md l :
  md_fields md = Done (JList l) ->
  exists md',
    finish new true md = Done (new, md')
    /\ md_fields md' = Done (JList (l ++ [new]))
    /\ forall k, k <> "metadataBlocks" -> getitem md' k = getitem md k.
Proof.
  unfold md_fields, finish, update_fields. intros H.
  destruct (getitem md "metadataBlocks") as [blocks|] eqn:Hb; [|done].
  osimpl. cbn [mbind outcome_bind mret outcome_ret] in H.
  destruct (getitem blocks "citation") as [citation|] eqn:Hc; [|done].
  osimpl. cbn [mbind outcome_bind mret outcome_ret] in H. rewrite H. osimpl.
  destruct md as [| | | | |m]; try done.
  destruct blocks as [| | | | |b]; try done.
  destruct citation as [| | | | |c]; try done.
  eexists. split; [reflexivity|]. split.
  - cbn [getitem]. rewrite dict_get_set_eq. osimpl.
    cbn [getitem]. rewrite dict_get_set_eq. osimpl.
    cbn [getitem]. by rewrite dict_get_set_eq.
  - intros k Hk. cbn [getitem]. by rewrite dict_get_set_ne.
Qed.

Lemma update_pid_fields md l a i h :
  md_fields md = Done (JList l) ->
  exists md',
    update_pid md a i h = Done md'
    /\ md_fields md' = Done (JList l)
    /\ getitem md' "protocol" = Done (JStr h)
    /\ getitem md' "authority" = Done (JStr a)
    /\ getitem md' "identifier" = Done (JStr i).
Proof.
  intros H. destruct md as [| | | | |m]; try done.
  unfold update_pid. cbn [setitem]. osimpl.
  eexists. split; [reflexivity|].
  unfold md_fields in *. cbn [getitem] in *.
  rewrite !dict_get_set_eq.
  rewrite !(dict_get_set_ne _ "identifier") by done.
  rewrite !dict_get_set_eq.
  rewrite !(dict_get_set_ne _ "authority") by done.
  rewrite !dict_get_set_eq.
  rewrite !(dict_get_set_ne _ "protocol") by done.
  done.
Qed.

Lemma contact_entries_ok cs : forall acc,
  Forall named cs ->
  exists out, contact_entries cs acc = Done (acc ++ out)
              /\ length out = length (filter (fun c => c <> []) cs).
Proof.
  induction cs as [|c cs IH]; intros acc Hn; cbn [contact_entries].
  - exists []. by rewrite app_nil_r.
  - inversion Hn as [|? ? Hc Hcs]; subst.
    unfold contact_entry.
    destruct Hc as [->|(f & l & Hf & Hl)].
    + destruct (decide _) as [Hl|_]; [done|]. osimpl.
      destruct (IH acc Hcs) as (out & -> & Hlen). exists out.
      split; [done|]. by rewrite filter_cons_False by (intros H; by apply H).
    + destruct (decide (length c <> 0%nat)) as [Hlen|Hlen].
      * rewrite Hf, Hl. cbn [add mbind outcome_bind mret outcome_ret].
        match goal with
        | |- context [contact_entries cs (acc ++ [?p])] =>
            destruct (IH (acc ++ [p]) Hcs) as (out & -> & Hout);
              exists (p :: out)
        end.
        split; [by rewrite <- app_assoc|].
        rewrite filter_cons_True by (by destruct c). cbn. by rewrite Hout.
      * osimpl. destruct c; [|exfalso; apply Hlen; done].
        destruct (IH acc Hcs) as (out & -> & Hout). exists out.
        split; [done|]. by rewrite filter_cons_False by (intros H; by apply H).
Qed.

Lemma publication_entries_ok fs : forall acc,
  Forall addressed fs ->
  exists out, publication_entries fs acc = Done (acc ++ out)
              /\ length out = length fs.
Proof.
  induction fs as [|f fs IH]; intros acc Ha; cbn [publication_entries].
  - exists []. by rewrite app_nil_r.
  - inversion Ha as [|? ? Hf Hfs]; subst.
    unfold publication_entry, addressed in *.
    destruct (split "/" f) as [|s0 [|s1 [|s2 [|s3 [|s4 rest]]]]]; cbn in Hf; try lia.
    cbn [index lookup list_lookup]. osimpl.
    match goal with
    | |- context [publication_entries fs (acc ++ [?p])] =>
        destruct (IH (acc ++ [p]) Hfs) as (out & -> & Hout); exists (p :: out)
    end.
    split; [by rewrite <- app_assoc|]. cbn. by rewrite Hout.
Qed.

(** X22.  [read_metadata] on a template that has the list of citation
    fields, for a pid with a slash, contacts that are empty or have string
    first and last names, and article addresses with at least four slashes:
    it returns the dataset; the template's fields are kept, in their order,
    and exactly eight fields are appended after them, in this order:
    author, description, production date, title, subject, contacts,
    keywords, publications. *)
Theorem read_metadata_appends_eight_fields
    (template : json) (im : imetadata) (l : list json) :
  fields_of template = Done (JList l) ->
  occurs "/" (pid im) = true ->
  Forall named (contact im) ->
  Forall addressed (articles im) ->
  exists out fields,
    read_metadata template im = Done out
    /\ fields_of out = Done (JList (l ++ fields))
    /\ type_name <$> fields
       = (fun n => Some (JStr n))
         <$> ["author"; "dsDescription"; "productionDate"; "title"; "subject";
              "datasetContact"; "keyword"; "publication"].
Proof.
  intros Ht Hpid Hcontacts Harticles.
  unfold fields_of in Ht. unfold read_metadata.
  destruct (getitem template "datasetVersion") as [md0|] eqn:Hmd0; [|done].
  osimpl. cbn [mbind outcome_bind mret outcome_ret] in Ht.
  apply split_two in Hpid as (a & i & rest & ->).
  cbn [index lookup list_lookup]. osimpl.
  destruct (update_pid_fields md0 l a i "hdl" Ht) as (md1 & -> & Hf1 & _). osimpl.
  unfold add_author, add_description, add_date, add_title, add_subject,
    add_contacts, add_keywords, add_publications.
  match goal with |- context [finish ?n true md1] =>
    destruct (finish_fields n md1 _ Hf1) as (md2 & -> & Hf2 & _) end. osimpl.
  assert (Hd : exists d md3,
             match description im with
             | JNull =>
                 finish (JDict [("typeName", JStr "dsDescription");
                                ("multiple", JBool true);
                                ("value", JList [JDict [("dsDescriptionValue",
                                   primitive "dsDescriptionValue" (JStr ""))]]);
                                ("typeClass", JStr "compound")]) true md2
             | d =>
                 finish (JDict [("typeName", JStr "dsDescription");
                                ("multiple", JBool true);
                                ("value", JList [JDict [("dsDescriptionValue",
                                   primitive "dsDescriptionValue" d)]]);
                                ("typeClass", JStr "compound")]) true md2
             end = Done (d, md3)
             /\ type_name d = Some (JStr "dsDescription")
             /\ md_fields md3 = Done (JList ((l ++ [
                  JDict [("typeName", JStr "author"); ("multiple", JBool true);
                         ("value", JList [JDict [("authorName",
                                    primitive "authorName" (creator im))]]);
                         ("typeClass", JStr "compound")]]) ++ [d]))).
  { destruct (description im);
      match goal with |- context [finish ?n true md2] =>
        destruct (finish_fields n md2 _ Hf2) as (md3 & -> & Hf3 & _);
          exists n, md3; done end. }
  destruct Hd as (d & md3 & -> & Hdn & Hf3). osimpl.
  match goal with |- context [finish ?n true md3] =>
    destruct (finish_fields n md3 _ Hf3) as (md4 & -> & Hf4 & _) end. osimpl.
  match goal with |- context [finish ?n true md4] =>
    destruct (finish_fields n md4 _ Hf4) as (md5 & -> & Hf5 & _) end. osimpl.
  match goal with |- context [finish ?n true md5] =>
    destruct (finish_fields n md5 _ Hf5) as (md6 & -> & Hf6 & _) end. osimpl.
  destruct (contact_entries_ok (contact im) [add_contact_email (creator im)]
              Hcontacts) as (cs & -> & _). osimpl.
  match goal with |- context [finish ?n true md6] =>
    destruct (finish_fields n md6 _ Hf6) as (md7 & -> & Hf7 & _) end. osimpl.
  match goal with |- context [finish ?n true md7] =>
    destruct (finish_fields n md7 _ Hf7) as (md8 & -> & Hf8 & _) end. osimpl.
  destruct (publication_entries_ok (articles im) [] Harticles) as (ps & -> & _).
  osimpl.
  match goal with |- context [finish ?n true md8] =>
    destruct (finish_fields n md8 _ Hf8) as (md9 & -> & Hf9 & _) end. osimpl.
  destruct template as [| | | | |t]; try done.
  cbn [setitem]. eexists _, _. split; [reflexivity|]. split.
  - unfold fields_of. cbn [getitem]. rewrite dict_get_set_eq. osimpl.
    rewrite Hf9. rewrite <- !app_assoc. cbn [app]. reflexivity.
  - cbn [fmap list_fmap]. rewrite Hdn. reflexivity.
Qed.

End MapperFacts.


Section MapperOutcomes.
Import MetadataMapper.

Ltac osimpl := cbn [mbind outcome_bind mret outcome_ret].

Lemma contact_entries_outcome cs : forall acc,
  match contact_entries cs acc with
  | Done _ => Forall named cs
  | Fails TypeError => ~ Forall named cs
  | Fails _ => False
  end.
Proof.
  induction cs as [|c cs IH]; intros acc; cbn [contact_entries].
  - constructor.
  - unfold contact_entry.
    destruct (decide (length c <> 0%nat)) as [Hlen|Hlen].
    + assert (Hc : c <> []) by (by destruct c).
      destruct (get c "firstName") as [| | |f| |] eqn:Hf; cbn [add]; osimpl;
        try (intros Hn; inversion Hn as [|? ? [?|(f' & l' & Hf' & _)] ?];
             subst; [done|congruence]).
      destruct (get c "lastName") as [| | |l| |] eqn:Hl; cbn [add]; osimpl;
        try (intros Hn; inversion Hn as [|? ? [?|(f' & l' & _ & Hl')] ?];
             subst; [done|congruence]).
      match goal with
      | |- context [contact_entries cs ?acc1] => specialize (IH acc1)
      end.
      destruct (contact_entries cs _) as [out|[]]; try done.
      * constructor; [|done]. right. by eauto.
      * intros Hn. apply IH. by inversion Hn.
    + osimpl. specialize (IH acc).
      assert (Hc : c = []) by (destruct c; [done|exfalso; by apply Hlen]).
      destruct (contact_entries cs acc) as [out|[]]; try done.
      * constructor; [by left|done].
      * intros Hn. apply IH. by inversion Hn.
Qed.

Lemma publication_entries_outcome fs : forall acc,
  match publication_entries fs acc with
  | Done _ => Forall addressed fs
  | Fails IndexError => ~ Forall addressed fs
  | Fails _ => False
  end.
Proof.
  induction fs as [|f fs IH]; intros acc; cbn [publication_entries].
  - constructor.
  - unfold publication_entry.
    assert (Hshort : (length (split "/" f) < 5)%nat -> ~ Forall addressed (f :: fs)).
    { intros Hlt Hn. inversion Hn as [|? ? Hf ?]; subst. unfold addressed in Hf. lia. }
    destruct (split "/" f) as [|s0 [|s1 [|s2 [|s3 [|s4 rest]]]]] eqn:Hs;
      cbn [index lookup list_lookup]; osimpl;
      try (apply Hshort; cbn; lia).
    match goal with
    | |- context [publication_entries fs ?acc1] => specialize (IH acc1)
    end.
    destruct (publication_entries fs _) as [out|[]]; try done.
    + constructor; [|done]. unfold addressed. rewrite Hs. cbn. lia.
    + intros Hn. apply IH. by inversion Hn.
Qed.

(** X23.  [read_metadata] on a template that has the list of citation
    fields either returns, or raises [IndexError] or [TypeError], and the
    inputs decide which: [IndexError] for a pid without a slash; otherwise
    [TypeError] when some contact is not empty and has a first or last name
    that is not a string; otherwise [IndexError] when some article address
    has fewer than four slashes; and a result in every other case. *)
Theorem read_metadata_outcomes
    (template : json) (im : imetadata) (l : list json) :
  fields_of template = Done (JList l) ->
  match read_metadata template im with
  | Done _ =>
      occurs "/" (pid im) = true
      /\ Forall named (contact im) /\ Forall addressed (articles im)
  | Fails IndexError =>
      occurs "/" (pid im) = false
      \/ (Forall named (contact im) /\ ~ Forall addressed (articles im))
  | Fails TypeError =>
      occurs "/" (pid im) = true /\ ~ Forall named (contact im)
  | Fails _ => False
  end.
Proof.
  intros Ht. unfold fields_of in Ht. unfold read_metadata.
  destruct (getitem template "datasetVersion") as [md0|] eqn:Hmd0; [|done].
  osimpl. cbn [mbind outcome_bind mret outcome_ret] in Ht.
  destruct (occurs "/" (pid im)) eqn:Hpid.
  2:{ destruct (split_cons "/" (pid im)) as (a & segs & Hs).
      destruct segs as [|i rest].
      - rewrite Hs. cbn [index lookup list_lookup]. osimpl. by left.
      - assert (occurs "/" (pid im) = true) by (apply split_two; eauto).
        congruence. }
  apply split_two in Hpid as (a & i & rest & ->).
  cbn [index lookup list_lookup]. osimpl.
  destruct (update_pid_fields md0 l a i "hdl" Ht) as (md1 & -> & Hf1 & _). osimpl.
  unfold add_author, add_description, add_date, add_title, add_subject,
    add_contacts, add_keywords, add_publications.
  match goal with |- context [finish ?n true md1] =>
    destruct (finish_fields n md1 _ Hf1) as (md2 & -> & Hf2 & _) end. osimpl.
  assert (Hd : exists d md3 l3,
             match description im with
             | JNull =>
                 finish (JDict [("typeName", JStr "dsDescription");
                                ("multiple", JBool true);
                                ("value", JList [JDict [("dsDescriptionValue",
                                   primitive "dsDescriptionValue" (JStr ""))]]);
                                ("typeClass", JStr "compound")]) true md2
             | d =>
                 finish (JDict [("typeName", JStr "dsDescription");
                                ("multiple", JBool true);
                                ("value", JList [JDict [("dsDescriptionValue",
                                   primitive "dsDescriptionValue" d)]]);
                                ("typeClass", JStr "compound")]) true md2
             end = Done (d, md3)
             /\ md_fields md3 = Done (JList l3)).
  { destruct (description im);
      match goal with |- context [finish ?n true md2] =>
        destruct (finish_fields n md2 _ Hf2) as (md3 & -> & Hf3 & _);
          exists n, md3; eexists; split; [reflexivity|exact Hf3] end. }
  destruct Hd as (d & md3 & l3 & -> & Hf3). osimpl.
  match goal with |- context [finish ?n true md3] =>
    destruct (finish_fields n md3 _ Hf3) as (md4 & -> & Hf4 & _) end. osimpl.
  match goal with |- context [finish ?n true md4] =>
    destruct (finish_fields n md4 _ Hf4) as (md5 & -> & Hf5 & _) end. osimpl.
  match goal with |- context [finish ?n true md5] =>
    destruct (finish_fields n md5 _ Hf5) as (md6 & -> & Hf6 & _) end. osimpl.
  pose proof (contact_entries_outcome (contact im)
                [add_contact_email (creator im)]) as Hcs.
  destruct (contact_entries (contact im) _) as [cs|e]; osimpl.
  2:{ destruct e; try done. }
  match goal with |- context [finish ?n true md6] =>
    destruct (finish_fields n md6 _ Hf6) as (md7 & -> & Hf7 & _) end. osimpl.
  match goal with |- context [finish ?n true md7] =>
    destruct (finish_fields n md7 _ Hf7) as (md8 & -> & Hf8 & _) end. osimpl.
  pose proof (publication_entries_outcome (articles im) []) as Hps.
  destruct (publication_entries (articles im) []) as [ps|e]; osimpl.
  2:{ destruct e; try done. by right. }
  match goal with |- context [finish ?n true md8] =>
    destruct (finish_fields n md8 _ Hf8) as (md9 & -> & Hf9 & _) end. osimpl.
  destruct template as [| | | | |t]; try done.
Qed.

Lemma finish_frame new md r md' :
  finish new true md = Done (r, md') ->
  forall k, k <> "metadataBlocks" -> getitem md' k = getitem md k.
Proof.
  unfold finish, update_fields. intros H k Hk.
  destruct (getitem md "metadataBlocks") as [blocks|] eqn:Hb;
    cbn [mbind outcome_bind mret outcome_ret] in H; [|done].
  destruct (getitem blocks "citation") as [citation|] eqn:Hc;
    cbn [mbind outcome_bind mret outcome_ret] in H; [|done].
  destruct (getitem citation "fields") as [fields|] eqn:Hfl;
    cbn [mbind outcome_bind mret outcome_ret] in H; [|done].
  destruct fields as [| | | |l|]; try done.
  destruct md as [| | | | |m]; try done.
  destruct blocks as [| | | | |b]; try done.
  destruct citation as [| | | | |c]; try done.
  cbn [mbind outcome_bind mret outcome_ret] in H. injection H as _ <-.
  cbn [getitem]. by rewrite dict_get_set_ne.
Qed.

(** X24.  When [read_metadata] returns, the dataset has the protocol
    [hdl], and its authority and identifier are the first and the second
    segment of the pid: the pid is the authority, a slash, the identifier
    and, when it has more slashes, a rest that is dropped; neither of the
    two holds a slash. *)
Theorem pid_is_cut_at_the_second_slash
    (template : json) (im : imetadata) (out : json) :
  read_metadata template im = Done out ->
  exists authority identifier rest md,
    pid im = join "/" (authority :: identifier :: rest)
    /\ occurs "/" authority = false /\ occurs "/" identifier = false
    /\ getitem out "datasetVersion" = Done md
    /\ getitem md "protocol" = Done (JStr "hdl")
    /\ getitem md "authority" = Done (JStr authority)
    /\ getitem md "identifier" = Done (JStr identifier).
Proof.
  unfold read_metadata. intros H.
  destruct (getitem template "datasetVersion") as [md0|] eqn:Hmd0;
    cbn [mbind outcome_bind mret outcome_ret] in H; [|done].
  pose proof (join_split "/" (pid im)) as Hjoin.
  pose proof (split_segments "/" (pid im)) as Hsegs.
  destruct (split "/" (pid im)) as [|a [|i rest]];
    cbn [index lookup list_lookup mbind outcome_bind mret outcome_ret] in H;
    try done.
  inversion Hsegs as [|? ? Ha Hsegs']; subst.
  inversion Hsegs' as [|? ? Hi _]; subst.
  exists a, i, rest.
  destruct (update_pid md0 a i "hdl") as [md1|] eqn:Hmd1;
    cbn [mbind outcome_bind mret outcome_ret] in H; [|done].
  assert (Hkeys : getitem md1 "protocol" = Done (JStr "hdl")
                  /\ getitem md1 "authority" = Done (JStr a)
                  /\ getitem md1 "identifier" = Done (JStr i)).
  { destruct md0 as [| | | | |m]; try done.
    unfold update_pid in Hmd1. cbn in Hmd1. injection Hmd1 as <-.
    cbn [getitem].
    rewrite !dict_get_set_eq.
    rewrite !(dict_get_set_ne _ "identifier") by done.
    rewrite !dict_get_set_eq.
    rewrite !(dict_get_set_ne _ "authority") by done.
    rewrite !dict_get_set_eq. done. }
  unfold add_author, add_description, add_date, add_title, add_subject,
    add_contacts, add_keywords, add_publications in H.
  repeat match type of H with
  | (contact_entries ?c ?a ≫= _) = Done _ =>
      destruct (contact_entries c a) as [?|];
        cbn [mbind outcome_bind mret outcome_ret] in H; [|done]
  | (publication_entries ?c ?a ≫= _) = Done _ =>
      destruct (publication_entries c a) as [?|];
        cbn [mbind outcome_bind mret outcome_ret] in H; [|done]
  | (?stage ≫= _) = Done _ =>
      let E := fresh "E" in
      let r := fresh "r" in
      let md' := fresh "md" in
      destruct stage as [[r md']|] eqn:E;
        cbn [mbind outcome_bind mret outcome_ret] in H; [|done];
        lazymatch type of E with
        | context [finish _ true ?m] =>
            assert (forall k, k <> "metadataBlocks"
                              -> getitem md' k = getitem m k)
              by (first [exact (finish_frame _ _ _ _ E)
                        |destruct (description im);
                         exact (finish_frame _ _ _ _ E)])
        end
  end.
  destruct template as [| | | | |t]; try done.
  cbn [setitem] in H. injection H as <-.
  eexists. split; [done|]. split; [done|]. split; [done|].
  split; [cbn [getitem]; by rewrite dict_get_set_eq|].
  destruct Hkeys as (Hp & Hau & Hid).
  repeat match goal with
  | Hfr : forall k, k <> "metadataBlocks" -> getitem ?m k = getitem _ k
    |- context [getitem ?m _] => rewrite !Hfr by done; clear Hfr
  end.
  done.
Qed.

End MapperOutcomes.


Section MapperAddresses.
Import MetadataMapper.

Lemma occurs_app c s t : occurs c (s +:+ t) = occurs c s || occurs c t.
Proof.
  induction s as [|c' s IH]; [done|].
  change (String c' s +:+ t) with (String c' (s +:+ t)).
  cbn [occurs]. rewrite IH. by rewrite orb_assoc.
Qed.

Lemma split_app_sep sep x y :
  occurs sep x = false ->
  split sep (x +:+ String sep y) = x :: split sep y.
Proof.
  induction x as [|c x IH]; cbn [occurs]; intros Hx.
  - change ("" +:+ String sep y) with (String sep y).
    cbn [split]. by rewrite Ascii.eqb_refl.
  - apply orb_false_iff in Hx as [Hc Hx].
    change (String c x +:+ String sep y) with (String c (x +:+ String sep y)).
    cbn [split]. rewrite Hc, (IH Hx). reflexivity.
Qed.

Lemma split_whole sep x : occurs sep x = false -> split sep x = [x].
Proof.
  induction x as [|c x IH]; cbn [occurs split]; intros Hx; [done|].
  apply orb_false_iff in Hx as [Hc Hx]. by rewrite Hc, (IH Hx).
Qed.

(** Splitting what was joined gives the segments back. *)
Lemma split_join sep segs :
  segs <> [] ->
  Forall (fun seg => occurs sep seg = false) segs ->
  split sep (join sep segs) = segs.
Proof.
  induction segs as [|s segs IH]; [done|]. intros _ Hs.
  inversion Hs as [|? ? Hs0 Hs']; subst.
  destruct segs as [|s' segs].
  - cbn [join]. by apply split_whole.
  - change (join sep (s :: s' :: segs))
      with (s +:+ String sep (join sep (s' :: segs))).
    rewrite split_app_sep by done. by rewrite IH.
Qed.

Lemma lstrip_app chars s t :
  lstrip chars (s +:+ t)
  = match lstrip chars s with
    | EmptyString => lstrip chars t
    | kept => kept +:+ t
    end.
Proof.
  induction s as [|c s IH]; [done|].
  change (String c s +:+ t) with (String c (s +:+ t)). cbn [lstrip].
  destruct (occurs c chars); [exact IH|reflexivity].
Qed.

Lemma rstrip_app chars s t :
  rstrip chars t = EmptyString ->
  rstrip chars (s +:+ t) = rstrip chars s.
Proof.
  intros Ht. induction s as [|c s IH]; [exact Ht|].
  change (String c s +:+ t) with (String c (s +:+ t)). cbn [rstrip].
  by rewrite IH.
Qed.

(** Stripping does not stop at a suffix made of the characters to strip. *)
Lemma strip_app chars s t :
  lstrip chars t = EmptyString -> rstrip chars t = EmptyString ->
  strip chars (s +:+ t) = strip chars s.
Proof.
  intros Hl Hr. unfold strip. rewrite lstrip_app.
  destruct (lstrip chars s) as [|c kept] eqn:Hs.
  - by rewrite Hl.
  - by rewrite rstrip_app.
Qed.

(** X25.  The entry [read_metadata] makes for an article address of the
    form scheme//name.org/a/b, with or without further segments: the
    publication number is a followed by b, without the slash between them
    and without anything that comes after b; the publication type is name
    with every leading and trailing character among [.], [o], [r] and [g]
    removed, which is less than name when name starts or ends with one of
    them; the URL is the address. *)
Theorem publication_entry_of_an_address
    (scheme name a b : string) (rest : list string) :
  Forall (fun seg => occurs "/" seg = false) (scheme :: name :: a :: b :: rest) ->
  let f := join "/" (scheme :: "" :: (name +:+ ".org") :: a :: b :: rest) in
  publication_entry f
  = Done (add_publication (JStr (a +:+ b)) (JStr (strip ".org" name)) (JStr f)).
Proof.
  intros Hs f. unfold publication_entry.
  inversion Hs as [|? ? Hscheme Hs1]; subst.
  inversion Hs1 as [|? ? Hname Hs2]; subst.
  assert (Hsplit : split "/" f
                   = scheme :: "" :: (name +:+ ".org") :: a :: b :: rest).
  { apply split_join; [done|].
    constructor; [done|]. constructor; [done|]. constructor; [|done].
    rewrite occurs_app, Hname. reflexivity. }
  rewrite Hsplit. cbn [index lookup list_lookup mbind outcome_bind].
  rewrite strip_app by reflexivity. reflexivity.
Qed.

End MapperAddresses.

Section MapperWitnesses.
Import MetadataMapper.

Lemma read_metadata_appends_eight_fields_witness :
  let template :=
    JDict [("datasetVersion",
            JDict [("metadataBlocks",
                    JDict [("citation", JDict [("fields", JList [])])])])] in
  let im :=
    mkMetadata "21.T12996/P01" (JStr "a@b.nl") JNull (JStr "2020") (JStr "T")
               [[("firstName", JStr "A"); ("lastName", JStr "B")]; []]
               None None None [JStr "k"] ["https://doi.org/10.1/x"] in
  exists out fields,
    read_metadata template im = Done out
    /\ fields_of out = Done (JList ([] ++ fields))
    /\ type_name <$> fields
       = (fun n => Some (JStr n))
         <$> ["author"; "dsDescription"; "productionDate"; "title"; "subject";
              "datasetContact"; "keyword"; "publication"].
Proof.
  intros template im.
  apply (read_metadata_appends_eight_fields template im []).
  - reflexivity.
  - reflexivity.
  - constructor; [right; by exists "A", "B"|]. constructor; [by left|constructor].
  - constructor; [|constructor]. unfold addressed. cbn. lia.
Defined.

Lemma read_metadata_outcomes_witness :
  let template :=
    JDict [("datasetVersion",
            JDict [("metadataBlocks",
                    JDict [("citation", JDict [("fields", JList [])])])])] in
  let im :=
    mkMetadata "21.T12996" (JStr "a@b.nl") JNull (JStr "2020") (JStr "T")
               [] None None None [] [] in
  match read_metadata template im with
  | Done _ =>
      occurs "/" (pid im) = true
      /\ Forall named (contact im) /\ Forall addressed (articles im)
  | Fails IndexError =>
      occurs "/" (pid im) = false
      \/ (Forall named (contact im) /\ ~ Forall addressed (articles im))
  | Fails TypeError =>
      occurs "/" (pid im) = true /\ ~ Forall named (contact im)
  | Fails _ => False
  end.
Proof.
  intros template im.
  apply (read_metadata_outcomes template im []). reflexivity.
Defined.

Lemma pid_is_cut_at_the_second_slash_witness :
  let im :=
    mkMetadata "21.T12996/P01/v2" (JStr "a@b.nl") JNull (JStr "2020") (JStr "T")
               [] None None None [] [] in
  exists authority identifier rest md,
    pid im = join "/" (authority :: identifier :: rest)
    /\ occurs "/" authority = false /\ occurs "/" identifier = false
    /\ getitem
         (JDict [("datasetVersion",
            JDict [("metadataBlocks",
                    JDict [("citation",
                            JDict [("fields",
                              JList
                                [JDict [("typeName", JStr "author");
                                        ("multiple", JBool true);
                                        ("value",
                                         JList [JDict [("authorName",
                                           primitive "authorName"
                                             (JStr "a@b.nl"))]]);
                                        ("typeClass", JStr "compound")];
                                 JDict [("typeName", JStr "dsDescription");
                                        ("multiple", JBool true);
                                        ("value",
                                         JList [JDict [("dsDescriptionValue",
                                           primitive "dsDescriptionValue"
                                             (JStr ""))]]);
                                        ("typeClass", JStr "compound")];
                                 primitive "productionDate" (JStr "2020");
                                 primitive "title" (JStr "T");
                                 JDict [("typeName", JStr "subject");
                                        ("multiple", JBool true);
                                        ("value",
                                         JList [JStr "Medicine, Health and Life Sciences"]);
                                        ("typeClass",
                                         JStr "controlledVocabulary")];
                                 JDict [("typeName", JStr "datasetContact");
                                        ("multiple", JBool true);
                                        ("value",
                                         JList [add_contact_email
                                                  (JStr "a@b.nl")]);
                                        ("typeClass", JStr "compound")];
                                 JDict [("multiple", JBool true);
                                        ("typeClass", JStr "compound");
                                        ("typeName", JStr "keyword");
                                        ("value", JList [])];
                                 JDict [("multiple", JBool true);
                                        ("typeClass", JStr "compound");
                                        ("typeName", JStr "publication");
                                        ("value", JList [])]])])]);
                   ("protocol", JStr "hdl");
                   ("authority", JStr "21.T12996");
                   ("identifier", JStr "P01")])])
         "datasetVersion" = Done md
    /\ getitem md "protocol" = Done (JStr "hdl")
    /\ getitem md "authority" = Done (JStr authority)
    /\ getitem md "identifier" = Done (JStr identifier).
Proof.
  intros im.
  apply (pid_is_cut_at_the_second_slash
           (JDict [("datasetVersion",
              JDict [("metadataBlocks",
                      JDict [("citation", JDict [("fields", JList [])])])])])
           im).
  reflexivity.
Defined.

Lemma publication_entry_of_an_address_witness :
  publication_entry "https://orcid.org/0000/0001"
  = Done (add_publication (JStr "00000001") (JStr "cid")
            (JStr "https://orcid.org/0000/0001")).
Proof.
  apply (publication_entry_of_an_address "https:" "orcid" "0000" "0001" []).
  repeat constructor.
Defined.

End MapperWitnesses.
